(** * ShotLine: ownership policy and entity lifecycle

    A shallow embedding of the ShotLine application
    ([network/ShotLine/models.py], [permissions.py], [serializers.py],
    [views.py], [admin.py]) and the properties of its authorization and
    data-consistency core.

    Conventions of the embedding.
    - The relational tables are finite maps from primary key to row; every
      table has its own auto-increment sequence.  Foreign keys hold the
      primary key of the row they point at.  [created_at] columns and the
      orderings built on them are left out: nothing below depends on them.
    - A [DecimalField] coordinate is an integer number of micro-degrees
      (six decimal places); Python's truth value of such a number is
      "different from zero".
    - Code that touches the database or the geocoding service lives in the
      monad [M]: a function from the world (database and the log of the
      calls made to the geocoding service) to an outcome (a returned value
      or a raised exception) and the world at that moment.  Nothing is
      rolled back when an exception is raised: the views open no
      transaction, and Django's default is to run without one.
    - The Nominatim service is a parameter: a reply for every query, which
      may depend on the calls made so far. *)

From stdpp Require Import gmap strings list fin_maps pretty.

Open Scope Z_scope.

(** ** Data model (models.py) *)

Abbreviation pk := Z (only parsing).
Abbreviation Decimal := Z (only parsing).

(** An uploaded file, identified by its name.  The image fields of the
    serializers reject a file without a name, so a validated file is always
    true in a Python condition. *)
Definition File := string.

Module Post.
Record t := mk {
  author : pk;
  text : string;
  location_name : option string;
  latitude : option Decimal;
  longitude : option Decimal }.
End Post.

Module PostImage.
Record t := mk { post : pk; image : File }.
End PostImage.

Module Like.
Record t := mk { post : pk; user : pk }.
End Like.

Module Comment.
Record t := mk { post : pk; author : pk; text : string }.
End Comment.

#[global] Instance Post_eq_dec : EqDecision Post.t.
Proof. solve_decision. Defined.
#[global] Instance PostImage_eq_dec : EqDecision PostImage.t.
Proof. solve_decision. Defined.
#[global] Instance Like_eq_dec : EqDecision Like.t.
Proof. solve_decision. Defined.
#[global] Instance Comment_eq_dec : EqDecision Comment.t.
Proof. solve_decision. Defined.

(** [django.contrib.auth]: a stored user, and [request.user]. *)
Record User := { user_id : pk; is_superuser : bool }.

Inductive RequestUser :=
| AnonymousUser
| Authenticated (u : User).

Definition is_authenticated (u : RequestUser) : bool :=
  match u with AnonymousUser => false | Authenticated _ => true end.

(** [request.user.is_superuser]; [AnonymousUser.is_superuser] is [False]. *)
Definition user_is_superuser (u : RequestUser) : bool :=
  match u with AnonymousUser => false | Authenticated x => is_superuser x end.

(** [fk == request.user] for a foreign key to the user table, or [None]:
    Django compares model instances by primary key; [None] and
    [AnonymousUser] are equal to no stored user. *)
Definition eq_user (fk : option pk) (u : RequestUser) : bool :=
  match fk, u with
  | Some a, Authenticated x => bool_decide (a = user_id x)
  | _, _ => false
  end.

(** The database. *)
Record Store := {
  posts : gmap Z Post.t;
  images : gmap Z PostImage.t;
  likes : gmap Z Like.t;
  comments : gmap Z Comment.t;
  post_seq : pk;
  image_seq : pk;
  like_seq : pk;
  comment_seq : pk }.

Definition empty_store : Store :=
  {| posts := ∅; images := ∅; likes := ∅; comments := ∅;
     post_seq := 1; image_seq := 1; like_seq := 1; comment_seq := 1 |}.

(** ** The geocoding service (geopy) *)

(** The exception classes of [geopy.exc] the source names, and their base
    class.  [GeocoderTimedOut] and [GeocoderUnavailable] are subclasses of
    [GeocoderServiceError], which is a subclass of [GeopyError]. *)
Inductive GeopyExc :=
| GeopyError
| GeocoderServiceError
| GeocoderTimedOut
| GeocoderUnavailable.

Definition issubclass (e c : GeopyExc) : bool :=
  match c, e with
  | GeopyError, _ => true
  | GeocoderServiceError, (GeocoderServiceError | GeocoderTimedOut | GeocoderUnavailable) => true
  | GeocoderTimedOut, GeocoderTimedOut => true
  | GeocoderUnavailable, GeocoderUnavailable => true
  | _, _ => false
  end.

Inductive GeoCall :=
| CallGeocode (query : string)
| CallReverse (lat lon : Decimal).

(** What a call to the service gives: a location, no match ([None]), or an
    exception. *)
Inductive GeoReply (A : Type) :=
| Located (a : A)
| NoMatch
| Fails (e : GeopyExc).
Arguments Located {A} a.
Arguments NoMatch {A}.
Arguments Fails {A} e.

Record Nominatim := {
  geocode : list GeoCall → string → GeoReply (Decimal * Decimal);
  reverse : list GeoCall → Decimal → Decimal → GeoReply string }.

(** ** Exceptions and the monad of the handlers *)

Inductive Exn :=
| ValidationError (detail : string)
| Http404
| NotAuthenticated
| PermissionDenied
| MethodNotAllowed
| IntegrityError
| TypeError
| ValueError
| Geopy (e : GeopyExc).

Inductive Outcome (A : Type) :=
| Returned (a : A)
| Raised (e : Exn).
Arguments Returned {A} a.
Arguments Raised {A} e.

Record World := { db : Store; geo_log : list GeoCall }.

Definition M (A : Type) : Type := World → Outcome A * World.

Definition ret {A} (a : A) : M A := λ w, (Returned a, w).

Definition bind {A B} (m : M A) (k : A → M B) : M B :=
  λ w, match m w with
       | (Returned a, w') => k a w'
       | (Raised e, w') => (Raised e, w')
       end.

Definition raise {A} (e : Exn) : M A := λ w, (Raised e, w).

Notation "'let*' x := m 'in' k" := (bind m (λ x, k))
  (at level 10, x pattern, m at level 100, k at level 200).
Notation "m >> k" := (bind m (λ _, k))
  (at level 100, k at level 200, right associativity).

(** [try: m  except classes: handler] for the geopy exceptions. *)
Definition try_except {A} (m : M A) (classes : list GeopyExc) (handler : M A) : M A :=
  λ w, match m w with
       | (Raised (Geopy e), w') =>
           if existsb (issubclass e) classes then handler w' else (Raised (Geopy e), w')
       | r => r
       end.

Definition get_db : M Store := λ w, (Returned (db w), w).

Definition put_db (st : Store) : M unit :=
  λ w, (Returned tt, {| db := st; geo_log := geo_log w |}).

(** A computation is [pure] when it leaves the world as it is, and
    [db_pure] when it leaves the database as it is (it may call the
    geocoding service). *)
Definition pure {A} (m : M A) : Prop := ∀ w, (m w).2 = w.
Definition db_pure {A} (m : M A) : Prop := ∀ w, db (m w).2 = db w.

(** [hoare P m Q E]: from a database that satisfies [P], the computation
    [m] returns a value [a] and a database that satisfy [Q a], or raises
    and leaves a database that satisfies [E]. *)
Definition hoare {A} (P : Store → Prop) (m : M A) (Q : A → Store → Prop)
    (E : Store → Prop) : Prop :=
  ∀ w, P (db w) →
       match m w with
       | (Returned a, w') => Q a (db w')
       | (Raised _, w') => E (db w')
       end.

(** Python truth values. *)
Definition truthy_str (s : string) : bool := negb (String.eqb s "").
Definition truthy_opt_str (s : option string) : bool :=
  match s with Some x => truthy_str x | None => false end.
Definition truthy_opt_decimal (d : option Decimal) : bool :=
  match d with Some x => negb (x =? 0) | None => false end.
Definition truthy_list {A} (l : list A) : bool :=
  match l with [] => false | _ => true end.
Definition is_None {A} (o : option A) : bool :=
  match o with None => true | Some _ => false end.

(** [a or b] where [a] is [None] or an object that is always true. *)
Definition py_or {A} (a b : option A) : option A :=
  match a with Some x => Some x | None => b end.

(** ** The object-relational layer (django.db)

    What the calls of the source to Django's ORM do to the tables.  Foreign
    keys and [unique_together] are constraints of the database: a write that
    breaks one raises [IntegrityError] and writes nothing. *)

Definition with_posts (st : Store) (m : gmap Z Post.t) (seq : pk) : Store :=
  {| posts := m; images := images st; likes := likes st; comments := comments st;
     post_seq := seq; image_seq := image_seq st; like_seq := like_seq st;
     comment_seq := comment_seq st |}.

Definition with_images (st : Store) (m : gmap Z PostImage.t) (seq : pk) : Store :=
  {| posts := posts st; images := m; likes := likes st; comments := comments st;
     post_seq := post_seq st; image_seq := seq; like_seq := like_seq st;
     comment_seq := comment_seq st |}.

Definition with_likes (st : Store) (m : gmap Z Like.t) (seq : pk) : Store :=
  {| posts := posts st; images := images st; likes := m; comments := comments st;
     post_seq := post_seq st; image_seq := image_seq st; like_seq := seq;
     comment_seq := comment_seq st |}.

Definition with_comments (st : Store) (m : gmap Z Comment.t) (seq : pk) : Store :=
  {| posts := posts st; images := images st; likes := likes st; comments := m;
     post_seq := post_seq st; image_seq := image_seq st; like_seq := like_seq st;
     comment_seq := seq |}.

(** [Post.objects.filter(pk=k).exists()] *)
Definition post_exists (st : Store) (k : pk) : bool :=
  bool_decide (is_Some (posts st !! k)).

(** [Like.objects.filter(post=p, user=u).exists()] *)
Definition like_exists (st : Store) (p u : pk) : bool :=
  bool_decide (map_Exists (λ _ l, Like.post l = p ∧ Like.user l = u) (likes st)).

(** [Like.objects.filter(post=post, user=request.user).exists()]; no row
    belongs to [AnonymousUser]. *)
Definition like_exists_for (st : Store) (p : pk) (u : RequestUser) : bool :=
  match u with
  | Authenticated x => like_exists st p (user_id x)
  | AnonymousUser => false
  end.

(** The same query leaving out the row [k] itself: what the unique
    constraint looks at when the row [k] is updated. *)
Definition like_exists_other (st : Store) (k p u : pk) : bool :=
  bool_decide (map_Exists (λ i l, i ≠ k ∧ Like.post l = p ∧ Like.user l = u) (likes st)).

(** [post.likes.count()], [post.images.count()], [post.comments.count()] *)
Definition count_likes (st : Store) (p : pk) : nat :=
  size (filter (λ kv, Like.post kv.2 = p) (likes st)).
Definition count_images (st : Store) (p : pk) : nat :=
  size (filter (λ kv, PostImage.post kv.2 = p) (images st)).
Definition count_comments (st : Store) (p : pk) : nat :=
  size (filter (λ kv, Comment.post kv.2 = p) (comments st)).

(** INSERT of a new row: the primary key comes from the table's sequence. *)
Definition insert_post (row : Post.t) : M pk :=
  let* st := get_db in
  let k := post_seq st in
  put_db (with_posts st (<[k := row]> (posts st)) (k + 1)) >> ret k.

Definition insert_image (row : PostImage.t) : M pk :=
  let* st := get_db in
  if post_exists st (PostImage.post row) then
    let k := image_seq st in
    put_db (with_images st (<[k := row]> (images st)) (k + 1)) >> ret k
  else raise IntegrityError.

Definition insert_like (row : Like.t) : M pk :=
  let* st := get_db in
  if post_exists st (Like.post row) && negb (like_exists st (Like.post row) (Like.user row)) then
    let k := like_seq st in
    put_db (with_likes st (<[k := row]> (likes st)) (k + 1)) >> ret k
  else raise IntegrityError.

Definition insert_comment (row : Comment.t) : M pk :=
  let* st := get_db in
  if post_exists st (Comment.post row) then
    let k := comment_seq st in
    put_db (with_comments st (<[k := row]> (comments st)) (k + 1)) >> ret k
  else raise IntegrityError.

(** UPDATE of the row with primary key [k] ([instance.save()] on a loaded
    instance). *)
Definition update_post (k : pk) (row : Post.t) : M unit :=
  let* st := get_db in
  put_db (with_posts st (<[k := row]> (posts st)) (post_seq st)).

Definition update_image (k : pk) (row : PostImage.t) : M unit :=
  let* st := get_db in
  if post_exists st (PostImage.post row) then
    put_db (with_images st (<[k := row]> (images st)) (image_seq st))
  else raise IntegrityError.

Definition update_like (k : pk) (row : Like.t) : M unit :=
  let* st := get_db in
  if post_exists st (Like.post row)
     && negb (like_exists_other st k (Like.post row) (Like.user row)) then
    put_db (with_likes st (<[k := row]> (likes st)) (like_seq st))
  else raise IntegrityError.

Definition update_comment (k : pk) (row : Comment.t) : M unit :=
  let* st := get_db in
  if post_exists st (Comment.post row) then
    put_db (with_comments st (<[k := row]> (comments st)) (comment_seq st))
  else raise IntegrityError.

(** [queryset.delete()] on [post.images.all()], [post.likes.all()] and
    [post.comments.all()]. *)
Definition delete_images_of (p : pk) : M unit :=
  let* st := get_db in
  put_db
    (with_images st (filter (λ kv, PostImage.post kv.2 ≠ p) (images st)) (image_seq st)).

Definition delete_likes_of (p : pk) : M unit :=
  let* st := get_db in
  put_db (with_likes st (filter (λ kv, Like.post kv.2 ≠ p) (likes st)) (like_seq st)).

Definition delete_comments_of (p : pk) : M unit :=
  let* st := get_db in
  put_db
    (with_comments st (filter (λ kv, Comment.post kv.2 ≠ p) (comments st))
       (comment_seq st)).

(** [instance.delete()] on a row without dependants. *)
Definition delete_image (k : pk) : M unit :=
  let* st := get_db in put_db (with_images st (delete k (images st)) (image_seq st)).
Definition delete_like (k : pk) : M unit :=
  let* st := get_db in put_db (with_likes st (delete k (likes st)) (like_seq st)).
Definition delete_comment (k : pk) : M unit :=
  let* st := get_db in put_db (with_comments st (delete k (comments st)) (comment_seq st)).

(** [post.delete()]: the three foreign keys to [Post] are declared with
    [on_delete=models.CASCADE], so Django's collector deletes the rows that
    point at the post, and then the post. *)
Definition Post_delete (k : pk) : M unit :=
  delete_images_of k >> delete_likes_of k >> delete_comments_of k >>
  let* st := get_db in
  put_db (with_posts st (delete k (posts st)) (post_seq st)).

(** [generics.get_object_or_404(Model, pk=k)] and the lookup of
    [GenericAPIView.get_object]. *)
Definition get_or_404 {A} (table : Store → gmap Z A) (k : pk) : M A :=
  let* st := get_db in
  match table st !! k with
  | Some row => ret row
  | None => raise Http404
  end.

(** ** permissions.py *)

Inductive Method := GET | HEAD | OPTIONS | POST | PUT | PATCH | DELETE.

(** [permissions.SAFE_METHODS] *)
Definition SAFE_METHODS : list Method := [GET; HEAD; OPTIONS].

#[global] Instance Method_eq_dec : EqDecision Method.
Proof. solve_decision. Defined.

Definition is_safe (m : Method) : bool := bool_decide (m ∈ SAFE_METHODS).

(** The attributes [author] and [user] a model instance may have:
    [getattr(obj, 'author', None)] and [getattr(obj, 'user', None)]. *)
Class Model (A : Type) := {
  getattr_author : A → option pk;
  getattr_user : A → option pk }.

#[global] Instance Post_Model : Model Post.t :=
  {| getattr_author p := Some (Post.author p); getattr_user _ := None |}.
#[global] Instance PostImage_Model : Model PostImage.t :=
  {| getattr_author _ := None; getattr_user _ := None |}.
#[global] Instance Like_Model : Model Like.t :=
  {| getattr_author _ := None; getattr_user l := Some (Like.user l) |}.
#[global] Instance Comment_Model : Model Comment.t :=
  {| getattr_author c := Some (Comment.author c); getattr_user _ := None |}.

(** [IsAuthorOrReadOnly.has_object_permission] *)
Definition has_object_permission {A} `{Model A}
    (method : Method) (user : RequestUser) (obj : A) : bool :=
  if is_safe method then true
  else
    let author := py_or (getattr_author obj) (getattr_user obj) in
    eq_user author user.

(** ** Requests and responses (rest_framework) *)

(** A request as the handlers see it: the method, [request.user], the files
    sent under the key [images] ([request.FILES.getlist('images')]) and the
    parsed body. *)
Record Request (B : Type) := {
  method : Method;
  user : RequestUser;
  FILES_images : list File;
  data : B }.
Arguments method {B} _.
Arguments user {B} _.
Arguments FILES_images {B} _.
Arguments data {B} _.

(** What a view answers. *)
Inductive Response (R : Type) :=
| HTTP_200 (body : R)
| HTTP_201 (id : pk)
| HTTP_204
| HTTP_200_OPTIONS.
Arguments HTTP_200 {R} body.
Arguments HTTP_201 {R} id.
Arguments HTTP_204 {R}.
Arguments HTTP_200_OPTIONS {R}.

(** ** models.py *)

Section Application.
Context (geolocator : Nominatim).

(** [geolocator.geocode(name)] and
    [geolocator.reverse((lat, lon), exactly_one=True)]: the call is logged,
    and the reply of the service becomes a value or an exception.  Before
    it sends anything, [reverse] makes a [geopy.point.Point] of its
    argument, which raises [ValueError] for a latitude outside
    [[-90; 90]] degrees (a longitude is wrapped, not refused). *)
Definition geolocator_geocode (name : string) : M (option (Decimal * Decimal)) :=
  λ w, let w' := {| db := db w; geo_log := geo_log w ++ [CallGeocode name] |} in
       match geocode geolocator (geo_log w) name with
       | Located c => (Returned (Some c), w')
       | NoMatch => (Returned None, w')
       | Fails e => (Raised (Geopy e), w')
       end.

Definition latitude_in_range (lat : Decimal) : bool :=
  (-90000000 <=? lat) && (lat <=? 90000000).

Definition geolocator_reverse (lat lon : Decimal) : M (option string) :=
  λ w, if latitude_in_range lat then
         let w' := {| db := db w; geo_log := geo_log w ++ [CallReverse lat lon] |} in
         match reverse geolocator (geo_log w) lat lon with
         | Located a => (Returned (Some a), w')
         | NoMatch => (Returned None, w')
         | Fails e => (Raised (Geopy e), w')
         end
       else (Raised ValueError, w).

Definition get_coordinates (location_name : string) : M (option Decimal * option Decimal) :=
  try_except
    (let* location := geolocator_geocode location_name in
     match location with
     | Some (lat, lon) => ret (Some lat, Some lon)
     | None => ret (None, None)
     end)
    [GeocoderTimedOut; GeocoderServiceError]
    (ret (None, None)).

Definition get_location_name (latitude longitude : Decimal) : M (option string) :=
  try_except
    (let* location := geolocator_reverse latitude longitude in
     match location with
     | Some address => ret (Some address)
     | None => ret None
     end)
    [GeocoderTimedOut; GeocoderServiceError]
    (ret None).

Definition set_coordinates (self : Post.t) (lat lon : option Decimal) : Post.t :=
  Post.mk (Post.author self) (Post.text self) (Post.location_name self) lat lon.

(** [Post.save]: [id] is the primary key of the instance, [None] for an
    instance that was never saved.  The value is the primary key and the
    instance after the call. *)
Definition Post_save (id : option pk) (self : Post.t) : M (pk * Post.t) :=
  let* self :=
    (if truthy_opt_str (Post.location_name self)
        && (is_None (Post.latitude self) || is_None (Post.longitude self))
     then
       let* c := get_coordinates (default "" (Post.location_name self)) in
       if negb (is_None c.1) && negb (is_None c.2)
       then ret (set_coordinates self c.1 c.2)
       else ret self
     else ret self) in
  match id with
  | None => let* k := insert_post self in ret (k, self)
  | Some k => update_post k self >> ret (k, self)
  end.

(** [self.location_name or ''] *)
Definition location_name_or_empty (self : Post.t) : string :=
  match Post.location_name self with
  | Some s => if truthy_str s then s else ""
  | None => ""
  end.

(** The property [Post.location_address]. *)
Definition location_address (self : Post.t) : M string :=
  if truthy_opt_decimal (Post.latitude self) && truthy_opt_decimal (Post.longitude self)
  then
    let* address := get_location_name (default 0 (Post.latitude self))
                                      (default 0 (Post.longitude self)) in
    if truthy_opt_str address
    then ret (default "" address)
    else ret (location_name_or_empty self)
  else ret (location_name_or_empty self).

(** The property [Post.likes_count]. *)
Definition likes_count (id : pk) : M nat :=
  let* st := get_db in ret (count_likes st id).

(** ** serializers.py *)

(** The dictionaries of the serializers, one optional entry per key:
    [None] is a key that is not in the dictionary. *)
Record PostDict := {
  pd_author : option RequestUser;
  pd_text : option string;
  pd_location_name : option string;
  pd_latitude : option Decimal;
  pd_longitude : option Decimal;
  pd_image : option File;
  pd_uploaded_images : option (list File) }.

Record LikeDict := { ld_post : option pk; ld_user : option RequestUser }.

Record CommentDict := {
  cd_post : option pk;
  cd_author : option RequestUser;
  cd_text : option string }.

Record ImageDict := { id_post_id : option pk; id_image : option File }.

Definition msg_required : string := "This field is required.".
Definition msg_blank : string := "This field may not be blank.".
Definition msg_no_file : string := "No file was submitted.".

(** [Invalid pk "7" - object does not exist.], with the key as it was sent. *)
Definition double_quote : string := String (Ascii.ascii_of_nat 34) EmptyString.
Definition msg_does_not_exist (p : pk) : string :=
  String.append "Invalid pk "
    (String.append double_quote
       (String.append (pretty p)
          (String.append double_quote " - object does not exist."))).
Definition msg_no_image : string :=
  "К посту должно быть прикреплено хотя бы одно изображение".

(** Validation of a required, non-blank [CharField] ([text]); [partial] is
    true for PATCH.  The text is taken as already stripped of surrounding
    white space.  Of the errors of several fields the first is reported. *)
Definition validate_text (partial : bool) (text : option string) : M unit :=
  match text with
  | None => if partial then ret tt else raise (ValidationError msg_required)
  | Some s => if truthy_str s then ret tt else raise (ValidationError msg_blank)
  end.

(** Validation of [PrimaryKeyRelatedField(queryset=Post.objects.all())]. *)
Definition validate_post_pk (partial : bool) (post : option pk) : M unit :=
  match post with
  | None => if partial then ret tt else raise (ValidationError msg_required)
  | Some p =>
      let* st := get_db in
      if post_exists st p then ret tt else raise (ValidationError (msg_does_not_exist p))
  end.

(** Validation of a required [ImageField]. *)
Definition validate_image (partial : bool) (image : option File) : M unit :=
  match image with
  | None => if partial then ret tt else raise (ValidationError msg_no_file)
  | Some _ => ret tt
  end.

(** The three places the source looks for images:
    [data.get('uploaded_images') or data.get('image') or
     (request and request.FILES.getlist('images'))]. *)
Definition has_images {B} (d : PostDict) (request : Request B) : bool :=
  truthy_list (default [] (pd_uploaded_images d))
  || negb (is_None (pd_image d))
  || truthy_list (FILES_images request).

(** [PostSerializer.validate]; [instance] is [self.instance]. *)
Definition PostSerializer_validate {B} (instance : option pk) (request : Request B)
    (d : PostDict) : M PostDict :=
  if is_None instance && negb (has_images d request)
  then raise (ValidationError msg_no_image)
  else ret d.

(** [serializer.is_valid(raise_exception=True)] of the four serializers:
    the writable fields are validated and copied from the body of the
    request (any other key of the body is dropped), then [validate] runs. *)
Definition PostSerializer_is_valid {B} (instance : option pk) (partial : bool)
    (request : Request B) (body : PostDict) : M PostDict :=
  validate_text partial (pd_text body) >>
  PostSerializer_validate instance request
    {| pd_author := None; pd_text := pd_text body;
       pd_location_name := pd_location_name body;
       pd_latitude := None; pd_longitude := None;
       pd_image := pd_image body;
       pd_uploaded_images := pd_uploaded_images body |}.

Definition LikeSerializer_is_valid (partial : bool) (body : LikeDict) : M LikeDict :=
  validate_post_pk partial (ld_post body) >>
  ret {| ld_post := ld_post body; ld_user := None |}.

Definition CommentSerializer_is_valid (partial : bool) (body : CommentDict) : M CommentDict :=
  validate_post_pk partial (cd_post body) >>
  validate_text partial (cd_text body) >>
  ret {| cd_post := cd_post body; cd_author := None; cd_text := cd_text body |}.

Definition PostImageSerializer_is_valid (partial : bool) (body : ImageDict) : M ImageDict :=
  validate_image partial (id_image body) >>
  ret {| id_post_id := None; id_image := id_image body |}.

(** [PostSerializer.get_location]; the conversion of the coordinates to
    [float] is left out. *)
Record LocationData := {
  loc_latitude : Decimal;
  loc_longitude : Decimal;
  loc_name : option string }.

Definition get_location (obj : Post.t) : option LocationData :=
  if truthy_opt_decimal (Post.latitude obj) && truthy_opt_decimal (Post.longitude obj)
  then Some {| loc_latitude := default 0 (Post.latitude obj);
               loc_longitude := default 0 (Post.longitude obj);
               loc_name := if truthy_opt_str (Post.location_name obj)
                           then Post.location_name obj else None |}
  else None.

(** [PostSerializer.get_likes_count] *)
Definition get_likes_count (id : pk) : M nat :=
  let* st := get_db in ret (count_likes st id).

(** The foreign key to the user table of a new row: a stored user is
    needed; Django refuses [AnonymousUser] with [ValueError], the database
    a missing value with [IntegrityError]. *)
Definition user_fk (u : option RequestUser) : M pk :=
  match u with
  | Some (Authenticated x) => ret (user_id x)
  | Some AnonymousUser => raise ValueError
  | None => raise IntegrityError
  end.

(** [Post.objects.create] with the dictionary as keywords.  The constructor
    of the model refuses [AnonymousUser] as author with [ValueError] and
    raises [TypeError] for a keyword that is no field of [Post]; then
    [Post.save] runs (a missing author is refused by the database). *)
Definition Post_objects_create (kwargs : PostDict) : M (pk * Post.t) :=
  match pd_author kwargs with
  | Some AnonymousUser => raise ValueError
  | author =>
      if negb (is_None (pd_image kwargs)) || negb (is_None (pd_uploaded_images kwargs))
      then raise TypeError
      else
        let* a := user_fk author in
        Post_save None
          (Post.mk a (default "" (pd_text kwargs)) (pd_location_name kwargs)
                   (pd_latitude kwargs) (pd_longitude kwargs))
  end.

Definition PostImage_objects_create (post : option pk) (image : option File) : M pk :=
  match post with
  | Some p => insert_image (PostImage.mk p (default "" image))
  | None => raise IntegrityError
  end.

Definition Like_objects_create (kwargs : LikeDict) : M pk :=
  let* u := user_fk (ld_user kwargs) in
  match ld_post kwargs with
  | Some p => insert_like (Like.mk p u)
  | None => raise IntegrityError
  end.

Definition Comment_objects_create (kwargs : CommentDict) : M pk :=
  let* a := user_fk (cd_author kwargs) in
  match cd_post kwargs with
  | Some p => insert_comment (Comment.mk p a (default "" (cd_text kwargs)))
  | None => raise IntegrityError
  end.

Fixpoint for_each {A} (l : list A) (body : A → M unit) : M unit :=
  match l with
  | [] => ret tt
  | x :: l' => body x >> for_each l' body
  end.

Definition pd_set_location (d : PostDict) (name : option string)
    (lat lon : option Decimal) : PostDict :=
  {| pd_author := pd_author d; pd_text := pd_text d; pd_location_name := name;
     pd_latitude := lat; pd_longitude := lon; pd_image := pd_image d;
     pd_uploaded_images := pd_uploaded_images d |}.

Definition pd_pop_uploaded_images (d : PostDict) : PostDict :=
  {| pd_author := pd_author d; pd_text := pd_text d;
     pd_location_name := pd_location_name d;
     pd_latitude := pd_latitude d; pd_longitude := pd_longitude d;
     pd_image := pd_image d; pd_uploaded_images := None |}.

Definition pd_set_author (d : PostDict) (u : RequestUser) : PostDict :=
  {| pd_author := Some u; pd_text := pd_text d;
     pd_location_name := pd_location_name d;
     pd_latitude := pd_latitude d; pd_longitude := pd_longitude d;
     pd_image := pd_image d; pd_uploaded_images := pd_uploaded_images d |}.

(** [PostSerializer.create] *)
Definition PostSerializer_create {B} (request : Request B) (validated_data : PostDict)
    : M pk :=
  if negb (has_images validated_data request)
  then raise (ValidationError msg_no_image)
  else
    let location_name := pd_location_name validated_data in
    let validated_data :=
      pd_set_location validated_data None
        (pd_latitude validated_data) (pd_longitude validated_data) in
    let* validated_data :=
      (if truthy_opt_str location_name
       then
         try_except
           (let* location := geolocator_geocode (default "" location_name) in
            match location with
            | Some (lat, lon) =>
                ret (pd_set_location validated_data location_name (Some lat) (Some lon))
            | None => ret validated_data
            end)
           [GeocoderUnavailable]
           (ret validated_data)
       else ret validated_data) in
    let uploaded_images := default [] (pd_uploaded_images validated_data) in
    let validated_data := pd_pop_uploaded_images validated_data in
    let* post := Post_objects_create validated_data in
    for_each uploaded_images
      (λ img, PostImage_objects_create (Some post.1) (Some img) >> ret tt) >>
    (match pd_image validated_data with
     | Some image => PostImage_objects_create (Some post.1) (Some image) >> ret tt
     | None => ret tt
     end) >>
    ret post.1.

(** [ModelSerializer.update] for a post: every entry of the dictionary is
    set on the instance ([image] and [uploaded_images] become plain
    attributes, which [save] does not write), then [instance.save()]. *)
Definition PostSerializer_update (id : pk) (instance : Post.t) (validated_data : PostDict)
    : M (pk * Post.t) :=
  let instance :=
    Post.mk (Post.author instance)
      (default (Post.text instance) (pd_text validated_data))
      (match pd_location_name validated_data with
       | Some name => Some name
       | None => Post.location_name instance
       end)
      (Post.latitude instance) (Post.longitude instance) in
  Post_save (Some id) instance.

(** [LikeSerializer.create]: the user of the request replaces the entry
    [user], then [ModelSerializer.create]. *)
Definition LikeSerializer_create {B} (request : Request B) (validated_data : LikeDict)
    : M pk :=
  Like_objects_create {| ld_post := ld_post validated_data; ld_user := Some (user request) |}.

Definition LikeSerializer_update (id : pk) (instance : Like.t) (validated_data : LikeDict)
    : M (pk * Like.t) :=
  let instance := Like.mk (default (Like.post instance) (ld_post validated_data))
                          (Like.user instance) in
  update_like id instance >> ret (id, instance).

(** [CommentSerializer.create] *)
Definition CommentSerializer_create {B} (request : Request B) (validated_data : CommentDict)
    : M pk :=
  Comment_objects_create
    {| cd_post := cd_post validated_data; cd_author := Some (user request);
       cd_text := cd_text validated_data |}.

Definition CommentSerializer_update (id : pk) (instance : Comment.t)
    (validated_data : CommentDict) : M (pk * Comment.t) :=
  let instance :=
    Comment.mk (default (Comment.post instance) (cd_post validated_data))
               (Comment.author instance)
               (default (Comment.text instance) (cd_text validated_data)) in
  update_comment id instance >> ret (id, instance).

(** [PostImageSerializer]: [ModelSerializer.create] and [update]. *)
Definition PostImageSerializer_create (validated_data : ImageDict) : M pk :=
  PostImage_objects_create (id_post_id validated_data) (id_image validated_data).

Definition PostImageSerializer_update (id : pk) (instance : PostImage.t)
    (validated_data : ImageDict) : M (pk * PostImage.t) :=
  let instance :=
    PostImage.mk (PostImage.post instance)
                 (default (PostImage.image instance) (id_image validated_data)) in
  update_image id instance >> ret (id, instance).

(** ** views.py *)

(** The permission classes the views use.  [has_permission] of
    [IsAuthorOrReadOnly] and [has_object_permission] of the other two are
    those of [BasePermission], which allow. *)
Inductive Permission :=
| IsAuthenticated
| IsAuthenticatedOrReadOnly
| IsAuthorOrReadOnly.

Definition has_permission (p : Permission) (method : Method) (u : RequestUser) : bool :=
  match p with
  | IsAuthenticated => is_authenticated u
  | IsAuthenticatedOrReadOnly => is_safe method || is_authenticated u
  | IsAuthorOrReadOnly => true
  end.

Definition object_permission {A} `{Model A} (p : Permission) (method : Method)
    (u : RequestUser) (obj : A) : bool :=
  match p with
  | IsAuthorOrReadOnly => has_object_permission method u obj
  | _ => true
  end.

(** [APIView.permission_denied] *)
Definition permission_denied {A B} (request : Request B) : M A :=
  if is_authenticated (user request) then raise PermissionDenied else raise NotAuthenticated.

(** [APIView.check_permissions] and [check_object_permissions] *)
Fixpoint check_permissions {B} (permission_classes : list Permission) (request : Request B)
    : M unit :=
  match permission_classes with
  | [] => ret tt
  | p :: ps =>
      if has_permission p (method request) (user request)
      then check_permissions ps request
      else permission_denied request
  end.

Fixpoint check_object_permissions {A B} `{Model A} (permission_classes : list Permission)
    (request : Request B) (obj : A) : M unit :=
  match permission_classes with
  | [] => ret tt
  | p :: ps =>
      if object_permission p (method request) (user request) obj
      then check_object_permissions ps request obj
      else permission_denied request
  end.

(** [GenericAPIView.get_object] *)
Definition get_object {A B} `{Model A} (table : Store → gmap Z A)
    (permission_classes : list Permission) (request : Request B) (k : pk) : M A :=
  let* obj := get_or_404 table k in
  check_object_permissions permission_classes request obj >> ret obj.

Definition msg_update_own_objects : string := "Вы можете изменять только свои объекты".
Definition msg_delete_own_objects : string := "Вы можете удалять только свои объекты".
Definition msg_post_id_required : string := "post_id is required in URL".
Definition msg_already_liked : string := "Вы уже поставили лайк этому посту".
Definition msg_update_own_likes : string := "Вы можете изменять только свои лайки".
Definition msg_delete_own_likes : string := "Вы можете удалять только свои лайки".

(** [AuthorCheckMixin]; [super_perform] is the method of the next class. *)
Definition AuthorCheckMixin_perform_update {A B R} `{Model A} (request : Request B)
    (instance : A) (super_perform : M R) : M R :=
  let author := py_or (getattr_author instance) (getattr_user instance) in
  if negb (eq_user author (user request))
  then raise (ValidationError msg_update_own_objects)
  else super_perform.

Definition AuthorCheckMixin_perform_destroy {A B R} `{Model A} (request : Request B)
    (instance : A) (super_perform : M R) : M R :=
  let author := py_or (getattr_author instance) (getattr_user instance) in
  if negb (eq_user author (user request))
  then raise (ValidationError msg_delete_own_objects)
  else super_perform.

(** The representation of a post ([PostSerializer.Meta.fields] without the
    write-only entries and [created_at]); the nested rows are given as the
    maps they are drawn from. *)
Record PostRepr := {
  r_id : pk;
  r_author : pk;
  r_comments : gmap Z Comment.t;
  r_text : string;
  r_likes_count : nat;
  r_images : gmap Z PostImage.t;
  r_location : option LocationData }.

Definition PostSerializer_data (id : pk) (obj : Post.t) : M PostRepr :=
  let* st := get_db in
  let* n := get_likes_count id in
  ret {| r_id := id; r_author := Post.author obj;
         r_comments := filter (λ kv, Comment.post kv.2 = id) (comments st);
         r_text := Post.text obj; r_likes_count := n;
         r_images := filter (λ kv, PostImage.post kv.2 = id) (images st);
         r_location := get_location obj |}.

(** [APIView.dispatch] of a list view ([ListCreateAPIView]) and of a detail
    view ([RetrieveUpdateDestroyAPIView]): the permissions of the view are
    checked first, then the handler of the method runs. *)
Definition dispatch_list {B L} (permission_classes : list Permission)
    (request : Request B) (list : M L) (create : M pk) : M (Response L) :=
  check_permissions permission_classes request >>
  match method request with
  | GET | HEAD => let* r := list in ret (HTTP_200 r)
  | POST => let* k := create in ret (HTTP_201 k)
  | OPTIONS => ret HTTP_200_OPTIONS
  | PUT | PATCH | DELETE => raise MethodNotAllowed
  end.

Definition dispatch_detail {B R} (permission_classes : list Permission)
    (request : Request B) (retrieve : M R) (update : bool → M R) (destroy : M unit)
    : M (Response R) :=
  check_permissions permission_classes request >>
  match method request with
  | GET | HEAD => let* r := retrieve in ret (HTTP_200 r)
  | PUT => let* r := update false in ret (HTTP_200 r)
  | PATCH => let* r := update true in ret (HTTP_200 r)
  | DELETE => destroy >> ret HTTP_204
  | OPTIONS => ret HTTP_200_OPTIONS
  | POST => raise MethodNotAllowed
  end.

(** *** PostList and PostDetail *)

Definition PostList_permission_classes := [IsAuthenticatedOrReadOnly].

(** The rows the listing draws from; search, ordering and pagination are
    left out. *)
Definition PostList_list : M (gmap Z Post.t) :=
  let* st := get_db in ret (posts st).

Definition PostList_perform_create (request : Request PostDict) (validated_data : PostDict)
    : M pk :=
  PostSerializer_create request (pd_set_author validated_data (user request)).

Definition PostList_create (request : Request PostDict) : M pk :=
  let* validated_data := PostSerializer_is_valid None false request (data request) in
  PostList_perform_create request validated_data.

Definition PostList (request : Request PostDict) : M (Response (gmap Z Post.t)) :=
  dispatch_list PostList_permission_classes request PostList_list (PostList_create request).

Definition PostDetail_permission_classes := [IsAuthenticatedOrReadOnly; IsAuthorOrReadOnly].

Definition PostDetail_retrieve (request : Request PostDict) (k : pk) : M PostRepr :=
  let* instance := get_object posts PostDetail_permission_classes request k in
  PostSerializer_data k instance.

Definition PostDetail_perform_update (request : Request PostDict) (k : pk)
    (instance : Post.t) (validated_data : PostDict) : M (pk * Post.t) :=
  AuthorCheckMixin_perform_update request instance
    (PostSerializer_update k instance validated_data).

Definition PostDetail_update (request : Request PostDict) (k : pk) (partial : bool)
    : M PostRepr :=
  let* instance := get_object posts PostDetail_permission_classes request k in
  let* validated_data := PostSerializer_is_valid (Some k) partial request (data request) in
  let* saved := PostDetail_perform_update request k instance validated_data in
  PostSerializer_data saved.1 saved.2.

Definition PostDetail_perform_destroy (request : Request PostDict) (k : pk)
    (instance : Post.t) : M unit :=
  AuthorCheckMixin_perform_destroy request instance (Post_delete k).

Definition PostDetail_destroy (request : Request PostDict) (k : pk) : M unit :=
  let* instance := get_object posts PostDetail_permission_classes request k in
  PostDetail_perform_destroy request k instance.

Definition PostDetail (request : Request PostDict) (k : pk) : M (Response PostRepr) :=
  dispatch_detail PostDetail_permission_classes request
    (PostDetail_retrieve request k) (PostDetail_update request k)
    (PostDetail_destroy request k).

(** *** PostImageList and PostImageDetail *)

Definition PostImageList_permission_classes := [IsAuthenticatedOrReadOnly].

Definition PostImageList_get_queryset (post_id : pk) : M (gmap Z PostImage.t) :=
  let* st := get_db in
  ret (filter (λ kv, PostImage.post kv.2 = post_id) (images st)).

Definition PostImageList_perform_create (post_id : pk) (validated_data : ImageDict)
    : M pk :=
  if post_id =? 0
  then raise (ValidationError msg_post_id_required)
  else PostImageSerializer_create
         {| id_post_id := Some post_id; id_image := id_image validated_data |}.

Definition PostImageList_create (request : Request ImageDict) (post_id : pk) : M pk :=
  let* validated_data := PostImageSerializer_is_valid false (data request) in
  PostImageList_perform_create post_id validated_data.

Definition PostImageList (request : Request ImageDict) (post_id : pk)
    : M (Response (gmap Z PostImage.t)) :=
  dispatch_list PostImageList_permission_classes request
    (PostImageList_get_queryset post_id) (PostImageList_create request post_id).

Definition PostImageDetail_permission_classes :=
  [IsAuthenticatedOrReadOnly; IsAuthorOrReadOnly].

Definition PostImageDetail_retrieve (request : Request ImageDict) (k : pk)
    : M (pk * PostImage.t) :=
  let* instance := get_object images PostImageDetail_permission_classes request k in
  ret (k, instance).

Definition PostImageDetail_update (request : Request ImageDict) (k : pk) (partial : bool)
    : M (pk * PostImage.t) :=
  let* instance := get_object images PostImageDetail_permission_classes request k in
  let* validated_data := PostImageSerializer_is_valid partial (data request) in
  AuthorCheckMixin_perform_update request instance
    (PostImageSerializer_update k instance validated_data).

Definition PostImageDetail_destroy (request : Request ImageDict) (k : pk) : M unit :=
  let* instance := get_object images PostImageDetail_permission_classes request k in
  AuthorCheckMixin_perform_destroy request instance (delete_image k).

Definition PostImageDetail (request : Request ImageDict) (k : pk)
    : M (Response (pk * PostImage.t)) :=
  dispatch_detail PostImageDetail_permission_classes request
    (PostImageDetail_retrieve request k) (PostImageDetail_update request k)
    (PostImageDetail_destroy request k).

(** *** LikeList and LikeDetail *)

Definition LikeList_permission_classes := [IsAuthenticated].

Definition LikeList_get_queryset (post_id : pk) : M (gmap Z Like.t) :=
  let* st := get_db in
  if negb (post_id =? 0)
  then ret (filter (λ kv, Like.post kv.2 = post_id) (likes st))
  else ret (likes st).

Definition LikeList_perform_create (request : Request LikeDict) (post_id : pk)
    (validated_data : LikeDict) : M pk :=
  get_or_404 posts post_id >>
  let* st := get_db in
  if like_exists_for st post_id (user request)
  then raise (ValidationError msg_already_liked)
  else LikeSerializer_create request
         {| ld_post := Some post_id; ld_user := Some (user request) |}.

Definition LikeList_create (request : Request LikeDict) (post_id : pk) : M pk :=
  let* validated_data := LikeSerializer_is_valid false (data request) in
  LikeList_perform_create request post_id validated_data.

Definition LikeList (request : Request LikeDict) (post_id : pk)
    : M (Response (gmap Z Like.t)) :=
  dispatch_list LikeList_permission_classes request
    (LikeList_get_queryset post_id) (LikeList_create request post_id).

Definition LikeDetail_permission_classes := [IsAuthenticated].

Definition LikeDetail_retrieve (request : Request LikeDict) (k : pk) : M (pk * Like.t) :=
  let* instance := get_object likes LikeDetail_permission_classes request k in
  ret (k, instance).

Definition LikeDetail_perform_update (request : Request LikeDict) (k : pk)
    (instance : Like.t) (validated_data : LikeDict) : M (pk * Like.t) :=
  if negb (eq_user (Some (Like.user instance)) (user request))
  then raise (ValidationError msg_update_own_likes)
  else LikeSerializer_update k instance validated_data.

Definition LikeDetail_update (request : Request LikeDict) (k : pk) (partial : bool)
    : M (pk * Like.t) :=
  let* instance := get_object likes LikeDetail_permission_classes request k in
  let* validated_data := LikeSerializer_is_valid partial (data request) in
  LikeDetail_perform_update request k instance validated_data.

Definition LikeDetail_perform_destroy (request : Request LikeDict) (k : pk)
    (instance : Like.t) : M unit :=
  if negb (eq_user (Some (Like.user instance)) (user request))
  then raise (ValidationError msg_delete_own_likes)
  else delete_like k.

Definition LikeDetail_destroy (request : Request LikeDict) (k : pk) : M unit :=
  let* instance := get_object likes LikeDetail_permission_classes request k in
  LikeDetail_perform_destroy request k instance.

Definition LikeDetail (request : Request LikeDict) (k : pk) : M (Response (pk * Like.t)) :=
  dispatch_detail LikeDetail_permission_classes request
    (LikeDetail_retrieve request k) (LikeDetail_update request k)
    (LikeDetail_destroy request k).

(** *** CommentList and CommentDetail *)

Definition CommentList_permission_classes := [IsAuthenticatedOrReadOnly].

Definition CommentList_get_queryset (post_id : pk) : M (gmap Z Comment.t) :=
  let* st := get_db in
  if negb (post_id =? 0)
  then ret (filter (λ kv, Comment.post kv.2 = post_id) (comments st))
  else ret (comments st).

Definition CommentList_perform_create (request : Request CommentDict) (post_id : pk)
    (validated_data : CommentDict) : M pk :=
  get_or_404 posts post_id >>
  CommentSerializer_create request
    {| cd_post := Some post_id; cd_author := Some (user request);
       cd_text := cd_text validated_data |}.

Definition CommentList_create (request : Request CommentDict) (post_id : pk) : M pk :=
  let* validated_data := CommentSerializer_is_valid false (data request) in
  CommentList_perform_create request post_id validated_data.

Definition CommentList (request : Request CommentDict) (post_id : pk)
    : M (Response (gmap Z Comment.t)) :=
  dispatch_list CommentList_permission_classes request
    (CommentList_get_queryset post_id) (CommentList_create request post_id).

Definition CommentDetail_permission_classes :=
  [IsAuthenticatedOrReadOnly; IsAuthorOrReadOnly].

Definition CommentDetail_retrieve (request : Request CommentDict) (k : pk)
    : M (pk * Comment.t) :=
  let* instance := get_object comments CommentDetail_permission_classes request k in
  ret (k, instance).

Definition CommentDetail_update (request : Request CommentDict) (k : pk) (partial : bool)
    : M (pk * Comment.t) :=
  let* instance := get_object comments CommentDetail_permission_classes request k in
  let* validated_data := CommentSerializer_is_valid partial (data request) in
  AuthorCheckMixin_perform_update request instance
    (CommentSerializer_update k instance validated_data).

Definition CommentDetail_destroy (request : Request CommentDict) (k : pk) : M unit :=
  let* instance := get_object comments CommentDetail_permission_classes request k in
  AuthorCheckMixin_perform_destroy request instance (delete_comment k).

Definition CommentDetail (request : Request CommentDict) (k : pk)
    : M (Response (pk * Comment.t)) :=
  dispatch_detail CommentDetail_permission_classes request
    (CommentDetail_retrieve request k) (CommentDetail_update request k)
    (CommentDetail_destroy request k).

(** ** admin.py *)

(** [PostAdmin.has_change_permission] and [has_delete_permission]; [obj] is
    [None] for the list of objects. *)
Definition PostAdmin_has_change_permission (u : RequestUser) (obj : option Post.t) : bool :=
  match obj with
  | None => true
  | Some o => user_is_superuser u || eq_user (Some (Post.author o)) u
  end.

Definition PostAdmin_has_delete_permission (u : RequestUser) (obj : option Post.t) : bool :=
  match obj with
  | None => true
  | Some o => user_is_superuser u || eq_user (Some (Post.author o)) u
  end.

(** [PostAdmin.get_queryset] *)
Definition PostAdmin_get_queryset (u : RequestUser) : M (gmap Z Post.t) :=
  let* st := get_db in
  if user_is_superuser u then ret (posts st)
  else ret (filter (λ kv, eq_user (Some (Post.author kv.2)) u = true) (posts st)).

(** [PostAdmin.delete_model]: the dependants are deleted by hand, then the
    post. *)
Definition PostAdmin_delete_model (k : pk) : M unit :=
  delete_images_of k >> delete_likes_of k >> delete_comments_of k >> Post_delete k.

(** [PostAdmin.delete_selected_posts]; the queryset is given by the primary
    keys of its rows. *)
Definition PostAdmin_delete_selected_posts (queryset : list pk) : M unit :=
  for_each queryset
    (λ k, delete_images_of k >> delete_likes_of k >> delete_comments_of k >> Post_delete k).

(** [queryset.delete()] of [delete_selected_images], [delete_selected_likes]
    and [delete_selected_comments], and [CommentAdmin.delete_model]. *)
Definition PostImageAdmin_delete_selected_images (queryset : list pk) : M unit :=
  for_each queryset delete_image.
Definition LikeAdmin_delete_selected_likes (queryset : list pk) : M unit :=
  for_each queryset delete_like.
Definition CommentAdmin_delete_selected_comments (queryset : list pk) : M unit :=
  for_each queryset delete_comment.
Definition CommentAdmin_delete_model (k : pk) : M unit := delete_comment k.

(** ** The application as a transition system (urls.py)

    One transition per route of the API and per custom operation of the
    admin site. *)
Inductive Call :=
| api_posts (request : Request PostDict)
| api_post (request : Request PostDict) (k : pk)
| api_post_images (request : Request ImageDict) (post_id : pk)
| api_post_image (request : Request ImageDict) (post_id k : pk)
| api_post_likes (request : Request LikeDict) (post_id : pk)
| api_post_like (request : Request LikeDict) (post_id k : pk)
| api_post_comments (request : Request CommentDict) (post_id : pk)
| api_post_comment (request : Request CommentDict) (post_id k : pk)
| admin_delete_post (k : pk)
| admin_delete_selected_posts (queryset : list pk)
| admin_delete_selected_images (queryset : list pk)
| admin_delete_selected_likes (queryset : list pk)
| admin_delete_selected_comments (queryset : list pk)
| admin_delete_comment (k : pk).

(** The world after a call, whatever the call answers. *)
Definition run (c : Call) (w : World) : World :=
  match c with
  | api_posts request => (PostList request w).2
  | api_post request k => (PostDetail request k w).2
  | api_post_images request post_id => (PostImageList request post_id w).2
  | api_post_image request _ k => (PostImageDetail request k w).2
  | api_post_likes request post_id => (LikeList request post_id w).2
  | api_post_like request _ k => (LikeDetail request k w).2
  | api_post_comments request post_id => (CommentList request post_id w).2
  | api_post_comment request _ k => (CommentDetail request k w).2
  | admin_delete_post k => (PostAdmin_delete_model k w).2
  | admin_delete_selected_posts q => (PostAdmin_delete_selected_posts q w).2
  | admin_delete_selected_images q => (PostImageAdmin_delete_selected_images q w).2
  | admin_delete_selected_likes q => (LikeAdmin_delete_selected_likes q w).2
  | admin_delete_selected_comments q => (CommentAdmin_delete_selected_comments q w).2
  | admin_delete_comment k => (CommentAdmin_delete_model k w).2
  end.

Definition initial_world : World := {| db := empty_store; geo_log := [] |}.

Inductive reachable : World → Prop :=
| reachable_initial : reachable initial_world
| reachable_run c w : reachable w → reachable (run c w).

End Application.

(** ** Invariants of the database *)

(** Primary keys come from the sequences. *)
Definition seq_wf (st : Store) : Prop :=
  (∀ k r, posts st !! k = Some r → k < post_seq st) ∧
  (∀ k r, images st !! k = Some r → k < image_seq st) ∧
  (∀ k r, likes st !! k = Some r → k < like_seq st) ∧
  (∀ k r, comments st !! k = Some r → k < comment_seq st).

(** Every foreign key to [Post] points at a stored post. *)
Definition fk_wf (st : Store) : Prop :=
  (∀ k r, images st !! k = Some r → is_Some (posts st !! PostImage.post r)) ∧
  (∀ k r, likes st !! k = Some r → is_Some (posts st !! Like.post r)) ∧
  (∀ k r, comments st !! k = Some r → is_Some (posts st !! Comment.post r)).

(** [Like.Meta.unique_together = ('post', 'user')] *)
Definition likes_unique (st : Store) : Prop :=
  ∀ k1 k2 l1 l2,
    likes st !! k1 = Some l1 → likes st !! k2 = Some l2 →
    Like.post l1 = Like.post l2 → Like.user l1 = Like.user l2 → k1 = k2.

Definition wf (st : Store) : Prop := seq_wf st ∧ fk_wf st ∧ likes_unique st.

(** ** Updates of a like *)

(** The row [LikeSerializer.update] writes for the like [L] and the
    validated body [d]. *)
Definition like_after_update (L : Like.t) (d : LikeDict) : Like.t :=
  Like.mk (default (Like.post L) (ld_post d)) (Like.user L).

(** The body [d] of an update of the like [L] with primary key [k] is
    accepted by the serializer and by the constraints of the database: the
    post is given unless the update is partial, the post of the new row is
    stored, and no other like has the post and the user of the new row. *)
Definition like_update_accepted (st : Store) (k : pk) (L : Like.t) (partial : bool)
    (d : LikeDict) : Prop :=
  (ld_post d = None → partial = true) ∧
  is_Some (posts st !! Like.post (like_after_update L d)) ∧
  ¬ ∃ i l, likes st !! i = Some l ∧ i ≠ k ∧
           Like.post l = Like.post (like_after_update L d) ∧ Like.user l = Like.user L.

(** ** Rows of a post *)

(** The database holds neither the post [k] nor a row that points at it. *)
Definition no_rows_of (k : pk) (st : Store) : Prop :=
  posts st !! k = None ∧
  (∀ i r, images st !! i = Some r → PostImage.post r ≠ k) ∧
  (∀ i r, likes st !! i = Some r → Like.post r ≠ k) ∧
  (∀ i r, comments st !! i = Some r → Comment.post r ≠ k).

(** The rows of [st] that point at the post [k] are not in [st']. *)
Definition rows_of_removed (k : pk) (st st' : Store) : Prop :=
  (∀ i r, images st !! i = Some r → PostImage.post r = k → images st' !! i = None) ∧
  (∀ i r, likes st !! i = Some r → Like.post r = k → likes st' !! i = None) ∧
  (∀ i r, comments st !! i = Some r → Comment.post r = k → comments st' !! i = None).

(** ** Sample data

    Users, requests and geocoding services for the concrete cases below. *)

Definition alice : User := {| user_id := 1; is_superuser := false |}.
Definition bob : User := {| user_id := 2; is_superuser := false |}.
Definition root : User := {| user_id := 3; is_superuser := true |}.

(** A service that answers every query, one whose reverse lookup gives an
    empty address, and one that always times out. *)
Definition nominatim_up : Nominatim :=
  {| geocode := λ _ _, Located (48856600, 2352200);
     reverse := λ _ _ _, Located "Mitad del Mundo, Quito" |}.
Definition nominatim_blank : Nominatim :=
  {| geocode := λ _ _, NoMatch; reverse := λ _ _ _, Located "" |}.
Definition nominatim_timing_out : Nominatim :=
  {| geocode := λ _ _, Fails GeocoderTimedOut;
     reverse := λ _ _ _, Fails GeocoderTimedOut |}.

Definition post_body (text : string) (location_name : option string) (image : option File)
    (uploaded_images : option (list File)) : PostDict :=
  {| pd_author := None; pd_text := Some text; pd_location_name := location_name;
     pd_latitude := None; pd_longitude := None;
     pd_image := image; pd_uploaded_images := uploaded_images |}.

Definition empty_post_body : PostDict :=
  {| pd_author := None; pd_text := None; pd_location_name := None;
     pd_latitude := None; pd_longitude := None;
     pd_image := None; pd_uploaded_images := None |}.

Definition like_body (post : option pk) : LikeDict := {| ld_post := post; ld_user := None |}.

Definition comment_body (post : option pk) (text : option string) : CommentDict :=
  {| cd_post := post; cd_author := None; cd_text := text |}.

Definition image_body (image : option File) : ImageDict :=
  {| id_post_id := None; id_image := image |}.

Definition request_of {B} (m : Method) (u : User) (body : B) : Request B :=
  {| method := m; user := Authenticated u; FILES_images := []; data := body |}.

(** Alice publishes a post with one image and the text "hello"; Bob likes
    it. *)
Definition world_with_post : World :=
  run nominatim_up
    (api_posts (request_of POST alice (post_body "hello" None None (Some ["cat.png"]))))
    initial_world.

Definition world_with_like : World :=
  run nominatim_up (api_post_likes (request_of POST bob (like_body (Some 1))) 1)
    world_with_post.

(** A post on the equator, with a name. *)
Definition post_on_equator : Post.t :=
  Post.mk 1 "hello" (Some "Quito") (Some 0) (Some (-78455800)).

(** A post with coordinates and a name. *)
Definition post_in_paris : Post.t :=
  Post.mk 1 "hello" (Some "Paris") (Some 48856600) (Some 2352200).

(** ** More of admin.py *)

(** A Python [str] is a sequence of characters (code points), and [len] and
    slices count characters.  A text is held here as its UTF-8 encoding, as
    the string literals are: a character is a leading byte followed by its
    continuation bytes (the bytes [10xxxxxx]).  [py_len] is [len(text)] and
    [py_take n] is [text[:n]]. *)
Definition is_continuation (c : Ascii.ascii) : bool :=
  match c with Ascii.Ascii _ _ _ _ _ _ b6 b7 => b7 && negb b6 end.

Fixpoint py_len (text : string) : nat :=
  match text with
  | EmptyString => 0
  | String c text' =>
      if is_continuation c then py_len text' else S (py_len text')
  end.

Fixpoint py_take (n : nat) (text : string) : string :=
  match text with
  | EmptyString => EmptyString
  | String c text' =>
      if is_continuation c then String c (py_take n text')
      else match n with
           | O => EmptyString
           | S n' => String c (py_take n' text')
           end
  end.

(** [text[:n] + ('...' if len(text) > n else '')] *)
Definition preview (n : nat) (text : string) : string :=
  String.append (py_take n text) (if (n <? py_len text)%nat then "..." else "").

(** [PostAdmin.text_preview] and [CommentAdmin.text_preview] *)
Definition PostAdmin_text_preview (obj : Post.t) : string := preview 100 (Post.text obj).
Definition CommentAdmin_text_preview (obj : Comment.t) : string :=
  preview 100 (Comment.text obj).

(** [queryset.count()] for the queryset of an admin action, the rows picked
    in the list, given by their primary keys: a count made by the database
    when it is asked, over the rows that are stored then. *)
Definition queryset_count {A} (table : gmap Z A) (queryset : list pk) : nat :=
  length (filter (λ k, is_Some (table !! k)) (remove_dups queryset)).

(** The number that [delete_selected_images], [delete_selected_likes] and
    [delete_selected_comments] put in their message: [queryset.count()],
    asked after [queryset.delete()]. *)
Definition PostImageAdmin_delete_selected_images_message (queryset : list pk) : M nat :=
  PostImageAdmin_delete_selected_images queryset >>
  let* st := get_db in ret (queryset_count (images st) queryset).

Definition LikeAdmin_delete_selected_likes_message (queryset : list pk) : M nat :=
  LikeAdmin_delete_selected_likes queryset >>
  let* st := get_db in ret (queryset_count (likes st) queryset).

Definition CommentAdmin_delete_selected_comments_message (queryset : list pk) : M nat :=
  CommentAdmin_delete_selected_comments queryset >>
  let* st := get_db in ret (queryset_count (comments st) queryset).

(** ** Calls and their requests *)

(** The method and the user of the request of a call to the API. *)
Definition call_method (c : Call) : option Method :=
  match c with
  | api_posts r | api_post r _ => Some (method r)
  | api_post_images r _ | api_post_image r _ _ => Some (method r)
  | api_post_likes r _ | api_post_like r _ _ => Some (method r)
  | api_post_comments r _ | api_post_comment r _ _ => Some (method r)
  | _ => None
  end.

Definition call_user (c : Call) : option RequestUser :=
  match c with
  | api_posts r | api_post r _ => Some (user r)
  | api_post_images r _ | api_post_image r _ _ => Some (user r)
  | api_post_likes r _ | api_post_like r _ _ => Some (user r)
  | api_post_comments r _ | api_post_comment r _ _ => Some (user r)
  | _ => None
  end.

Definition outcome_error {A} (o : Outcome A) : option Exn :=
  match o with Returned _ => None | Raised e => Some e end.

Section Calls.
Context (geolocator : Nominatim).

(** The exception a call raises, if it raises one. *)
Definition run_error (c : Call) (w : World) : option Exn :=
  match c with
  | api_posts request => outcome_error (PostList geolocator request w).1
  | api_post request k => outcome_error (PostDetail geolocator request k w).1
  | api_post_images request post_id => outcome_error (PostImageList request post_id w).1
  | api_post_image request _ k => outcome_error (PostImageDetail request k w).1
  | api_post_likes request post_id => outcome_error (LikeList request post_id w).1
  | api_post_like request _ k => outcome_error (LikeDetail request k w).1
  | api_post_comments request post_id => outcome_error (CommentList request post_id w).1
  | api_post_comment request _ k => outcome_error (CommentDetail request k w).1
  | admin_delete_post k => outcome_error (PostAdmin_delete_model k w).1
  | admin_delete_selected_posts q => outcome_error (PostAdmin_delete_selected_posts q w).1
  | admin_delete_selected_images q =>
      outcome_error (PostImageAdmin_delete_selected_images q w).1
  | admin_delete_selected_likes q => outcome_error (LikeAdmin_delete_selected_likes q w).1
  | admin_delete_selected_comments q =>
      outcome_error (CommentAdmin_delete_selected_comments q w).1
  | admin_delete_comment k => outcome_error (CommentAdmin_delete_model k w).1
  end.

(** The world after a sequence of calls. *)
Definition run_all (cs : list Call) (w : World) : World :=
  foldl (λ w c, run geolocator c w) w cs.

End Calls.

(** ** Rows over time *)

(** [st'] is a later database than [st]: the sequences did not go back, and
    every row of [st'] either has a primary key that [st] had not given out
    yet, or was in [st] already, with the same owner (the author of a post
    or a comment, the user of a like) and, for an image, the same post. *)
Definition evolves (st st' : Store) : Prop :=
  (post_seq st ≤ post_seq st' ∧ image_seq st ≤ image_seq st' ∧
   like_seq st ≤ like_seq st' ∧ comment_seq st ≤ comment_seq st') ∧
  (∀ k P', posts st' !! k = Some P' →
     post_seq st ≤ k ∨ ∃ P, posts st !! k = Some P ∧ Post.author P' = Post.author P) ∧
  (∀ k I', images st' !! k = Some I' →
     image_seq st ≤ k ∨ ∃ I, images st !! k = Some I ∧ PostImage.post I' = PostImage.post I) ∧
  (∀ k L', likes st' !! k = Some L' →
     like_seq st ≤ k ∨ ∃ L, likes st !! k = Some L ∧ Like.user L' = Like.user L) ∧
  (∀ k C', comments st' !! k = Some C' →
     comment_seq st ≤ k ∨
     ∃ C, comments st !! k = Some C ∧ Comment.author C' = Comment.author C).

(** A row that is in both databases has the same owner in both. *)
Definition owners_kept (st st' : Store) : Prop :=
  (∀ k P P', posts st !! k = Some P → posts st' !! k = Some P' →
     Post.author P' = Post.author P) ∧
  (∀ k I I', images st !! k = Some I → images st' !! k = Some I' →
     PostImage.post I' = PostImage.post I) ∧
  (∀ k L L', likes st !! k = Some L → likes st' !! k = Some L' →
     Like.user L' = Like.user L) ∧
  (∀ k C C', comments st !! k = Some C → comments st' !! k = Some C' →
     Comment.author C' = Comment.author C).

(** The rows that do not belong to the post [k] are the same in both
    databases. *)
Definition rows_of_others_kept (k : pk) (st st' : Store) : Prop :=
  (∀ j, j ≠ k → posts st' !! j = posts st !! j) ∧
  (∀ i r, images st !! i = Some r → PostImage.post r ≠ k → images st' !! i = Some r) ∧
  (∀ i r, likes st !! i = Some r → Like.post r ≠ k → likes st' !! i = Some r) ∧
  (∀ i r, comments st !! i = Some r → Comment.post r ≠ k → comments st' !! i = Some r).

(** The posts that are not in the queryset, and the rows that belong to
    them, are the same in both databases. *)
Definition rows_outside_kept (queryset : list pk) (st st' : Store) : Prop :=
  (∀ j, j ∉ queryset → posts st' !! j = posts st !! j) ∧
  (∀ i r, images st !! i = Some r → PostImage.post r ∉ queryset → images st' !! i = Some r) ∧
  (∀ i r, likes st !! i = Some r → Like.post r ∉ queryset → likes st' !! i = Some r) ∧
  (∀ i r, comments st !! i = Some r → Comment.post r ∉ queryset →
     comments st' !! i = Some r).

(** * Properties *)

(** ** Python truth values and the user comparison *)

Lemma truthy_str_spec s : truthy_str s = true ↔ s ≠ "".
Proof.
  unfold truthy_str. destruct (String.eqb_spec s ""); simpl; split; congruence.
Qed.

Lemma truthy_opt_decimal_true d :
  truthy_opt_decimal d = true ↔ ∃ x, d = Some x ∧ x ≠ 0.
Proof.
  destruct d as [x|]; simpl.
  - destruct (Z.eqb_spec x 0); simpl; split.
    + discriminate.
    + intros (y & [= <-] & ?). contradiction.
    + eauto.
    + done.
  - split; [discriminate | intros (x & ? & _); discriminate].
Qed.

Lemma location_name_or_empty_default self :
  location_name_or_empty self = default "" (Post.location_name self).
Proof.
  unfold location_name_or_empty. destruct (Post.location_name self) as [s|]; simpl; [|done].
  destruct (truthy_str s) eqn:E; [done|].
  unfold truthy_str in E. destruct (String.eqb_spec s ""); simpl in E; congruence.
Qed.

Lemma eq_user_true fk u : eq_user fk (Authenticated u) = true ↔ fk = Some (user_id u).
Proof.
  destruct fk as [a|]; simpl; [|split; discriminate].
  rewrite bool_decide_eq_true. split; congruence.
Qed.


Lemma eq_user_superuser_irrelevant fk i b1 b2 :
  eq_user fk (Authenticated {| user_id := i; is_superuser := b1 |})
  = eq_user fk (Authenticated {| user_id := i; is_superuser := b2 |}).
Proof. by destruct fk. Qed.

(** ** The ownership policy *)

(** For a method that is not safe the decision is the comparison of the
    owner attribute with the user of the request. *)
Lemma has_object_permission_unsafe {A} `{Model A} m u (obj : A) :
  is_safe m = false →
  has_object_permission m u obj = eq_user (py_or (getattr_author obj) (getattr_user obj)) u.
Proof. intros E. unfold has_object_permission. by rewrite E. Qed.

Lemma has_object_permission_safe {A} `{Model A} m u (obj : A) :
  is_safe m = true → has_object_permission m u obj = true.
Proof. intros E. unfold has_object_permission. by rewrite E. Qed.

(** C5, as stated, fails: the object permission of the API denies a
    superuser who is not the author the deletion of a post. *)
Lemma superuser_denied_by_api :
  is_superuser root = true ∧
  has_object_permission DELETE (Authenticated root) post_in_paris = false ∧
  (PostDetail nominatim_up (request_of DELETE root empty_post_body) 1 world_with_like).1
  = Raised PermissionDenied.
Proof. done. Qed.

(** C5, amended: a superuser is allowed to change and to delete every post
    by the checks of the admin site, author or not; the object permission
    of the API does not look at the superuser flag: what it decides for a
    superuser is what it decides for the same user without the flag, for
    every method and every entity. *)
Theorem superuser_override_admin_only (S : User) :
  is_superuser S = true →
  (∀ P : Post.t,
     PostAdmin_has_change_permission (Authenticated S) (Some P) = true ∧
     PostAdmin_has_delete_permission (Authenticated S) (Some P) = true) ∧
  (∀ A (MA : Model A) (m : Method) (obj : A),
     has_object_permission m (Authenticated S) obj
     = has_object_permission m
         (Authenticated {| user_id := user_id S; is_superuser := false |}) obj).
Proof.
  intros HS. split.
  - intros P. unfold PostAdmin_has_change_permission, PostAdmin_has_delete_permission.
    simpl. by rewrite HS.
  - intros A MA m obj. unfold has_object_permission.
    destruct (is_safe m); [done|]. destruct S as [i b]. apply eq_user_superuser_irrelevant.
Qed.

Lemma superuser_override_admin_only_witness :
  is_superuser root = true ∧
  PostAdmin_has_delete_permission (Authenticated root) (Some post_in_paris) = true.
Proof.
  split; [reflexivity|].
  exact (proj2 (proj1 (superuser_override_admin_only root eq_refl) post_in_paris)).
Defined.

(** ** The location display *)

Section Location.
Context (geolocator : Nominatim).

(** The property never writes to the database. *)
Lemma location_address_db self w : db (location_address geolocator self w).2 = db w.
Proof.
  unfold location_address.
  destruct (truthy_opt_decimal (Post.latitude self) && truthy_opt_decimal (Post.longitude self));
    [|done].
  unfold bind, get_location_name, try_except, bind, geolocator_reverse, ret.
  repeat case_match; simplify_eq/=; done.
Qed.

(** C10: a post whose latitude or longitude is exactly zero is shown like a
    post without coordinates: [location_address] makes no call to the
    geocoding service (the world, with its log of calls, is unchanged) and
    returns the location name, or the empty string when there is none; the
    serialized [location] is [None]. *)
Theorem zero_coordinates_shown_as_absent (self : Post.t) (w : World) :
  Post.latitude self = Some 0 ∨ Post.longitude self = Some 0 →
  location_address geolocator self w = (Returned (default "" (Post.location_name self)), w) ∧
  geo_log (location_address geolocator self w).2 = geo_log w ∧
  get_location self = None.
Proof.
  intros Hz.
  assert (truthy_opt_decimal (Post.latitude self) && truthy_opt_decimal (Post.longitude self)
          = false) as E.
  { destruct Hz as [-> | ->]; simpl; [done | apply andb_false_r]. }
  unfold location_address, get_location. rewrite E, location_name_or_empty_default. done.
Qed.

(** The part of C7 that holds.  When both coordinates are stored and
    different from zero, the latitude is one that geopy accepts, and the
    reverse lookup gives an address that is not empty, the address is
    returned; when a coordinate is missing, or the lookup finds nothing,
    or fails with a timeout or any other service error, the location name
    is returned, or the empty string when there is none.  A service error
    is never raised to the caller, and the database is never written. *)
Lemma location_address_fallback (self : Post.t) (w : World) :
  db (location_address geolocator self w).2 = db w ∧
  (∀ lat lon address,
     Post.latitude self = Some lat → Post.longitude self = Some lon →
     lat ≠ 0 → lon ≠ 0 → latitude_in_range lat = true →
     reverse geolocator (geo_log w) lat lon = Located address → address ≠ "" →
     (location_address geolocator self w).1 = Returned address) ∧
  (Post.latitude self = None ∨ Post.longitude self = None ∨
   (∃ lat lon, Post.latitude self = Some lat ∧ Post.longitude self = Some lon ∧
      latitude_in_range lat = true ∧
      (reverse geolocator (geo_log w) lat lon = NoMatch ∨
       ∃ e, reverse geolocator (geo_log w) lat lon = Fails e ∧
            issubclass e GeocoderServiceError = true)) →
   (location_address geolocator self w).1 = Returned (default "" (Post.location_name self))) ∧
  (∀ e, (location_address geolocator self w).1 = Raised (Geopy e) →
        issubclass e GeocoderServiceError = false).
Proof.
  split; [apply location_address_db|].
  unfold location_address. rewrite !location_name_or_empty_default.
  split; [|split].
  - intros lat lon address -> -> Hlat Hlon Hrange Hrev Haddr. simpl.
    destruct (Z.eqb_spec lat 0); [done|]. destruct (Z.eqb_spec lon 0); [done|]. simpl.
    unfold bind, get_location_name, try_except, bind, geolocator_reverse.
    rewrite Hrange, Hrev. simpl.
    apply truthy_str_spec in Haddr. by rewrite Haddr.
  - intros [-> | [-> | (lat & lon & -> & -> & Hrange & Hrev)]]; simpl.
    + done.
    + by rewrite andb_false_r.
    + destruct (negb (lat =? 0) && negb (lon =? 0)); [|done].
      unfold bind, get_location_name, try_except, bind, geolocator_reverse.
      rewrite Hrange.
      destruct Hrev as [-> | (e & -> & He)]; simpl; [done|].
      destruct e; simpl in *; done.
  - intros e.
    destruct (truthy_opt_decimal (Post.latitude self) && truthy_opt_decimal (Post.longitude self));
      [|done].
    unfold bind, get_location_name, try_except, bind, geolocator_reverse.
    destruct (latitude_in_range _); [|done].
    destruct (reverse geolocator _ _ _) as [a | | e']; simpl.
    + by destruct (truthy_str a).
    + done.
    + destruct e'; simpl; intros [= <-] || discriminate; done.
Qed.

(** A stored latitude that geopy refuses: [ValueError] is no service error,
    so [get_location_name] does not catch it and the property raises it. *)
Lemma location_address_latitude_out_of_range (self : Post.t) (w : World) lat lon :
  Post.latitude self = Some lat → Post.longitude self = Some lon → lon ≠ 0 →
  lat < -90000000 ∨ 90000000 < lat →
  location_address geolocator self w = (Raised ValueError, w).
Proof.
  intros Hlat Hlon Hz Hr. unfold location_address. rewrite Hlat, Hlon. simpl.
  destruct (Z.eqb_spec lat 0); [lia|]. destruct (Z.eqb_spec lon 0); [done|]. simpl.
  unfold bind, get_location_name, try_except, bind, geolocator_reverse.
  assert (latitude_in_range lat = false) as ->; [|done].
  unfold latitude_in_range. destruct Hr.
  - by rewrite (proj2 (Z.leb_gt _ _)).
  - rewrite (proj2 (Z.leb_gt lat _)) by done. apply andb_false_r.
Qed.

End Location.

(** ** Reasoning about the monad *)

Lemma is_safe_eval m :
  is_safe m = match m with GET | HEAD | OPTIONS => true | _ => false end.
Proof. by destruct m. Qed.

Lemma elem_of_mutating m : m ∈ [PUT; PATCH; DELETE] ↔ m = PUT ∨ m = PATCH ∨ m = DELETE.
Proof. rewrite !elem_of_cons, elem_of_nil. tauto. Qed.

Lemma bool_decide_pk_ne (a b : Z) : a ≠ b → bool_decide (a = b) = false.
Proof. intros. by apply bool_decide_eq_false_2. Qed.

Lemma bool_decide_pk_eq (a b : Z) : a = b → bool_decide (a = b) = true.
Proof. intros. by apply bool_decide_eq_true_2. Qed.

Section Monad.
Context {A B : Type}.
Implicit Types (m : M A) (k : A → M B).

Lemma bind_returned m k w a w' : m w = (Returned a, w') → bind m k w = k a w'.
Proof. unfold bind. by intros ->. Qed.

Lemma bind_raised m k w e w' : m w = (Raised e, w') → bind m k w = (Raised e, w').
Proof. unfold bind. by intros ->. Qed.

Lemma bind_inv_returned m k w b w2 :
  bind m k w = (Returned b, w2) → ∃ a w1, m w = (Returned a, w1) ∧ k a w1 = (Returned b, w2).
Proof. unfold bind. destruct (m w) as [[a|e] w1]; [eauto | discriminate]. Qed.

End Monad.


Lemma pure_db_pure {A} (m : M A) : pure m → db_pure m.
Proof. intros H w. by rewrite H. Qed.

Lemma pure_ret {A} (a : A) : pure (ret a).
Proof. done. Qed.

Lemma pure_raise {A} e : pure (@raise A e).
Proof. done. Qed.

Lemma pure_get_db : pure get_db.
Proof. done. Qed.

Lemma pure_bind {A B} (m : M A) (k : A → M B) :
  pure m → (∀ a, pure (k a)) → pure (bind m k).
Proof.
  intros Hm Hk w. unfold bind. specialize (Hm w).
  destruct (m w) as [[a|e] w1]; simpl in *; subst; [apply Hk | done].
Qed.

Lemma db_pure_ret {A} (a : A) : db_pure (ret a).
Proof. done. Qed.

Lemma db_pure_raise {A} e : db_pure (@raise A e).
Proof. done. Qed.

Lemma db_pure_bind {A B} (m : M A) (k : A → M B) :
  db_pure m → (∀ a, db_pure (k a)) → db_pure (bind m k).
Proof.
  intros Hm Hk w. unfold bind. specialize (Hm w).
  destruct (m w) as [[a|e] w1]; simpl in *; [by rewrite Hk | done].
Qed.

Lemma db_pure_try_except {A} (m h : M A) classes :
  db_pure m → db_pure h → db_pure (try_except m classes h).
Proof.
  intros Hm Hh w. unfold try_except. specialize (Hm w).
  destruct (m w) as [[a|[]] w1]; simpl in *; try done.
  destruct (existsb _ _); [by rewrite Hh | done].
Qed.

Ltac solve_pure :=
  repeat first
    [ progress intros
    | apply pure_ret | apply pure_raise | apply pure_get_db | apply pure_bind
    | match goal with |- pure (match ?x with _ => _ end) => destruct x end
    | match goal with |- pure (if ?x then _ else _) => destruct x end ].

Lemma pure_permission_denied {A B} (request : Request B) : pure (@permission_denied A B request).
Proof. unfold permission_denied. solve_pure. Qed.

Lemma pure_check_permissions {B} perms (request : Request B) :
  pure (check_permissions perms request).
Proof.
  induction perms as [|p ps IH]; simpl; [apply pure_ret|].
  destruct (has_permission _ _ _); [done | apply pure_permission_denied].
Qed.

Lemma pure_check_object_permissions {A B} `{Model A} perms (request : Request B) (obj : A) :
  pure (check_object_permissions perms request obj).
Proof.
  induction perms as [|p ps IH]; simpl; [apply pure_ret|].
  destruct (object_permission _ _ _ _); [done | apply pure_permission_denied].
Qed.

Lemma pure_get_or_404 {A} (table : Store → gmap Z A) k : pure (get_or_404 table k).
Proof. unfold get_or_404. solve_pure. Qed.

Lemma pure_get_object {A B} `{Model A} (table : Store → gmap Z A) perms
    (request : Request B) k :
  pure (get_object table perms request k).
Proof.
  unfold get_object. apply pure_bind; [apply pure_get_or_404|].
  intros obj. apply pure_bind; [apply pure_check_object_permissions | solve_pure].
Qed.

Lemma pure_validate_text partial t : pure (validate_text partial t).
Proof. unfold validate_text. solve_pure. Qed.

Lemma pure_validate_post_pk partial p : pure (validate_post_pk partial p).
Proof. unfold validate_post_pk. solve_pure. Qed.

Lemma pure_validate_image partial i : pure (validate_image partial i).
Proof. unfold validate_image. solve_pure. Qed.

Lemma pure_PostSerializer_is_valid {B} instance partial (request : Request B) body :
  pure (PostSerializer_is_valid instance partial request body).
Proof.
  unfold PostSerializer_is_valid, PostSerializer_validate.
  apply pure_bind; [apply pure_validate_text | solve_pure].
Qed.

Lemma pure_LikeSerializer_is_valid partial body : pure (LikeSerializer_is_valid partial body).
Proof.
  unfold LikeSerializer_is_valid. apply pure_bind; [apply pure_validate_post_pk | solve_pure].
Qed.

Lemma pure_CommentSerializer_is_valid partial body :
  pure (CommentSerializer_is_valid partial body).
Proof.
  unfold CommentSerializer_is_valid.
  apply pure_bind; [apply pure_validate_post_pk|]. intros _.
  apply pure_bind; [apply pure_validate_text | solve_pure].
Qed.

Lemma pure_PostImageSerializer_is_valid partial body :
  pure (PostImageSerializer_is_valid partial body).
Proof.
  unfold PostImageSerializer_is_valid.
  apply pure_bind; [apply pure_validate_image | solve_pure].
Qed.

Lemma pure_PostSerializer_data k obj : pure (PostSerializer_data k obj).
Proof. unfold PostSerializer_data, get_likes_count. solve_pure. Qed.

Lemma db_pure_get_coordinates geolocator name : db_pure (get_coordinates geolocator name).
Proof.
  unfold get_coordinates. apply db_pure_try_except; [|apply db_pure_ret].
  apply db_pure_bind.
  - intros w. unfold geolocator_geocode. by destruct (geocode _ _ _).
  - intros [[lat lon]|]; apply db_pure_ret.
Qed.

(** ** The generic steps of a view *)

Lemma check_permissions_authenticated {B} perms (request : Request B) w :
  is_authenticated (user request) = true →
  check_permissions perms request w = (Returned (), w).
Proof.
  intros Hu. induction perms as [|p ps IH]; simpl; [done|].
  assert (has_permission p (method request) (user request) = true) as ->; [|done].
  destruct p; simpl; rewrite ?Hu; [done | apply orb_true_r | done].
Qed.

Lemma check_permissions_read {B} (request : Request B) w :
  is_safe (method request) = true →
  check_permissions [IsAuthenticatedOrReadOnly; IsAuthorOrReadOnly] request w = (Returned (), w).
Proof. intros Hm. simpl. by rewrite Hm. Qed.

Lemma get_or_404_found {A} (table : Store → gmap Z A) k w row :
  table (db w) !! k = Some row → get_or_404 table k w = (Returned row, w).
Proof. intros H. unfold get_or_404, bind, get_db. by rewrite H. Qed.

Lemma get_or_404_missing {A} (table : Store → gmap Z A) k w :
  table (db w) !! k = None → get_or_404 table k w = (Raised Http404, w).
Proof. intros H. unfold get_or_404, bind, get_db. by rewrite H. Qed.

Lemma get_object_missing {A B} `{Model A} (table : Store → gmap Z A) perms
    (request : Request B) k w :
  table (db w) !! k = None → get_object table perms request k w = (Raised Http404, w).
Proof. intros H0. unfold get_object. apply bind_raised. by apply get_or_404_missing. Qed.

(** The object permissions of the views that use [IsAuthorOrReadOnly]. *)
Lemma get_object_author_allowed {A B} `{Model A} (table : Store → gmap Z A)
    (request : Request B) k w obj :
  table (db w) !! k = Some obj →
  has_object_permission (method request) (user request) obj = true →
  get_object table [IsAuthenticatedOrReadOnly; IsAuthorOrReadOnly] request k w
  = (Returned obj, w).
Proof.
  intros Hk Hp. unfold get_object.
  erewrite bind_returned by (by apply get_or_404_found).
  unfold bind. simpl. by rewrite Hp.
Qed.

Lemma get_object_author_denied {A B} `{Model A} (table : Store → gmap Z A)
    (request : Request B) k w obj :
  table (db w) !! k = Some obj →
  is_authenticated (user request) = true →
  has_object_permission (method request) (user request) obj = false →
  get_object table [IsAuthenticatedOrReadOnly; IsAuthorOrReadOnly] request k w
  = (Raised PermissionDenied, w).
Proof.
  intros Hk Hu Hp. unfold get_object.
  erewrite bind_returned by (by apply get_or_404_found).
  unfold bind. simpl. rewrite Hp. unfold permission_denied. by rewrite Hu.
Qed.

(** The views of the likes have no object permission. *)
Lemma get_object_like_found {B} (request : Request B) k w obj :
  likes (db w) !! k = Some obj →
  get_object likes [IsAuthenticated] request k w = (Returned obj, w).
Proof.
  intros Hk. unfold get_object.
  erewrite bind_returned by (by apply get_or_404_found). done.
Qed.


(** ** C1: updates and deletions by another subject *)



(** ** C9: likes are changed by their user only *)

Lemma post_exists_true st p : post_exists st p = true ↔ is_Some (posts st !! p).
Proof. unfold post_exists. apply bool_decide_eq_true. Qed.

Lemma like_exists_true st p u :
  like_exists st p u = true ↔ ∃ i l, likes st !! i = Some l ∧ Like.post l = p ∧ Like.user l = u.
Proof. unfold like_exists. rewrite bool_decide_eq_true. done. Qed.

Lemma like_exists_other_true st k p u :
  like_exists_other st k p u = true ↔
  ∃ i l, likes st !! i = Some l ∧ i ≠ k ∧ Like.post l = p ∧ Like.user l = u.
Proof. unfold like_exists_other. rewrite bool_decide_eq_true. done. Qed.

Lemma like_exists_other_false st k p u :
  like_exists_other st k p u = false ↔
  ¬ ∃ i l, likes st !! i = Some l ∧ i ≠ k ∧ Like.post l = p ∧ Like.user l = u.
Proof.
  rewrite <- like_exists_other_true. destruct (like_exists_other st k p u); split; congruence.
Qed.

(** The deletion of a like through its view, for an authenticated user. *)
Lemma LikeDetail_delete_eq (request : Request LikeDict) k w L S :
  likes (db w) !! k = Some L → user request = Authenticated S → method request = DELETE →
  LikeDetail request k w
  = if bool_decide (Like.user L = user_id S)
    then (Returned HTTP_204, (delete_like k w).2)
    else (Raised (ValidationError msg_delete_own_likes), w).
Proof.
  destruct request as [m u f d]. simpl. intros Hk -> ->.
  unfold LikeDetail, dispatch_detail.
  erewrite bind_returned by (by apply check_permissions_authenticated).
  simpl. unfold LikeDetail_destroy.
  unfold bind at 1. erewrite bind_returned by (by apply get_object_like_found).
  unfold LikeDetail_perform_destroy. simpl.
  destruct (bool_decide (Like.user L = user_id S)); done.
Qed.

(** The update of a like through its view, for an authenticated user. *)
Lemma LikeDetail_update_eq (request : Request LikeDict) k w L S :
  likes (db w) !! k = Some L → user request = Authenticated S →
  method request ∈ [PUT; PATCH] →
  LikeDetail request k w
  = match LikeSerializer_is_valid (bool_decide (method request = PATCH)) (data request) w with
    | (Raised e, _) => (Raised e, w)
    | (Returned validated_data, _) =>
        if bool_decide (Like.user L = user_id S)
        then match LikeSerializer_update k L validated_data w with
             | (Returned r, w') => (Returned (HTTP_200 r), w')
             | (Raised e, w') => (Raised e, w')
             end
        else (Raised (ValidationError msg_update_own_likes), w)
    end.
Proof.
  destruct request as [m u f d]. simpl. intros Hk -> Hm.
  rewrite !elem_of_cons, elem_of_nil in Hm.
  unfold LikeDetail, dispatch_detail.
  erewrite bind_returned by (by apply check_permissions_authenticated).
  simpl.
  assert (∀ partial,
    bind (LikeDetail_update {| method := m; user := Authenticated S;
                               FILES_images := f; data := d |} k partial)
         (λ r, ret (HTTP_200 r)) w
    = match LikeSerializer_is_valid partial d w with
      | (Raised e, _) => (Raised e, w)
      | (Returned validated_data, _) =>
          if bool_decide (Like.user L = user_id S)
          then match LikeSerializer_update k L validated_data w with
               | (Returned r, w') => (Returned (HTTP_200 r), w')
               | (Raised e, w') => (Raised e, w')
               end
          else (Raised (ValidationError msg_update_own_likes), w)
      end) as Hupd.
  { intros partial. unfold LikeDetail_update.
    unfold bind at 1. erewrite bind_returned by (by apply get_object_like_found).
    pose proof (pure_LikeSerializer_is_valid partial d w) as Hpure.
    unfold bind at 1. cbn [data].
    destruct (LikeSerializer_is_valid partial d w) as [[vd|e] w1]; simpl in Hpure; subst w1;
      [|done].
    unfold LikeDetail_perform_update. simpl.
    destruct (bool_decide (Like.user L = user_id S)); simpl; [|done].
    by destruct (LikeSerializer_update k L vd w) as [[r|e] w2]. }
  destruct Hm as [-> | [-> | []]]; apply Hupd.
Qed.

Lemma LikeSerializer_is_valid_raises partial d w e w' :
  LikeSerializer_is_valid partial d w = (Raised e, w') → ∃ detail, e = ValidationError detail.
Proof.
  unfold LikeSerializer_is_valid, validate_post_pk, bind, get_db, raise, ret.
  repeat case_match; intros; simplify_eq; eauto.
Qed.

(** C9: for a stored like and an authenticated subject, a deletion succeeds
    exactly when the subject is the user of the like; an update succeeds
    only when the subject is the user of the like, and then it does succeed
    whenever its body is accepted.  A subject who is not the user of the
    like, superuser or not, is refused with a [ValidationError] and the
    world stays as it was. *)
Theorem like_mutation_only_by_its_user (w : World) (S : User) k L
    (request : Request LikeDict) :
  likes (db w) !! k = Some L → user request = Authenticated S →
  (method request = DELETE →
     ((LikeDetail request k w).1 = Returned HTTP_204 ↔ user_id S = Like.user L) ∧
     (user_id S = Like.user L → likes (db (LikeDetail request k w).2) !! k = None)) ∧
  (method request ∈ [PUT; PATCH] →
     (∀ r, (LikeDetail request k w).1 = Returned r → user_id S = Like.user L) ∧
     (user_id S = Like.user L →
      like_update_accepted (db w) k L (bool_decide (method request = PATCH)) (data request) →
      (LikeDetail request k w).1
        = Returned (HTTP_200 (k, like_after_update L (data request))) ∧
      likes (db (LikeDetail request k w).2) !! k
        = Some (like_after_update L (data request)))) ∧
  (method request ∈ [PUT; PATCH; DELETE] → user_id S ≠ Like.user L →
     ∃ detail, LikeDetail request k w = (Raised (ValidationError detail), w)).
Proof.
  intros Hk Hu. split; [|split].
  - intros Hm. rewrite (LikeDetail_delete_eq _ _ _ _ _ Hk Hu Hm).
    destruct (decide (Like.user L = user_id S)) as [Heq|Hne].
    + rewrite bool_decide_pk_eq by done. simpl. split; [done|].
      intros _. apply lookup_delete_eq.
    + rewrite bool_decide_pk_ne by done. simpl. split; [split; [done | congruence] | congruence].
  - intros Hm. rewrite (LikeDetail_update_eq _ _ _ _ _ Hk Hu Hm).
    set (partial := bool_decide (method request = PATCH)).
    split.
    + intros r. destruct (LikeSerializer_is_valid partial (data request) w) as [[vd|e] w1];
        [|done].
      destruct (decide (Like.user L = user_id S)) as [Heq|Hne]; [done|].
      rewrite bool_decide_pk_ne by done. done.
    + intros Heq (Hreq & Hpost & Hother).
      rewrite bool_decide_pk_eq by done.
      assert (LikeSerializer_is_valid partial (data request) w
              = (Returned {| ld_post := ld_post (data request); ld_user := None |}, w)) as ->.
      { unfold LikeSerializer_is_valid, validate_post_pk, bind, get_db, raise, ret.
        unfold like_after_update in Hpost. simpl in Hpost.
        destruct (ld_post (data request)) as [p|]; simpl in *.
        - apply post_exists_true in Hpost. by rewrite Hpost.
        - by rewrite Hreq. }
      unfold LikeSerializer_update, update_like, bind, get_db, put_db, ret. simpl.
      apply post_exists_true in Hpost. apply like_exists_other_false in Hother.
      unfold like_after_update in *. simpl in *. rewrite Hpost, Hother. simpl.
      split; [done | apply lookup_insert_eq].
  - intros Hm Hne. apply elem_of_mutating in Hm.
    assert (bool_decide (Like.user L = user_id S) = false) as Hb
      by (apply bool_decide_pk_ne; congruence).
    destruct Hm as [Hm | [Hm | Hm]].
    + rewrite (LikeDetail_update_eq _ _ _ _ _ Hk Hu) by (rewrite Hm; set_solver).
      rewrite Hb.
      destruct (LikeSerializer_is_valid _ _ w) as [[vd|e] w1] eqn:E; [eauto|].
      apply LikeSerializer_is_valid_raises in E as [detail ->]. eauto.
    + rewrite (LikeDetail_update_eq _ _ _ _ _ Hk Hu) by (rewrite Hm; set_solver).
      rewrite Hb.
      destruct (LikeSerializer_is_valid _ _ w) as [[vd|e] w1] eqn:E; [eauto|].
      apply LikeSerializer_is_valid_raises in E as [detail ->]. eauto.
    + rewrite (LikeDetail_delete_eq _ _ _ _ _ Hk Hu Hm), Hb. eauto.
Qed.

(** ** C3: deletion of a post *)

(** The database after [post.delete()]. *)
Lemma Post_delete_eq k w :
  Post_delete k w
  = (Returned (),
     {| db := {| posts := delete k (posts (db w));
                 images := filter (λ kv, PostImage.post kv.2 ≠ k) (images (db w));
                 likes := filter (λ kv, Like.post kv.2 ≠ k) (likes (db w));
                 comments := filter (λ kv, Comment.post kv.2 ≠ k) (comments (db w));
                 post_seq := post_seq (db w); image_seq := image_seq (db w);
                 like_seq := like_seq (db w); comment_seq := comment_seq (db w) |};
        geo_log := geo_log w |}).
Proof. done. Qed.

Lemma Post_delete_no_rows k w : no_rows_of k (db (Post_delete k w).2).
Proof.
  rewrite Post_delete_eq. simpl. split; [apply lookup_delete_eq|].
  split; [|split]; intros i r [_ Hr]%map_lookup_filter_Some; exact Hr.
Qed.

Lemma Post_delete_rows_removed k w : rows_of_removed k (db w) (db (Post_delete k w).2).
Proof.
  rewrite Post_delete_eq. simpl.
  split; [|split]; intros i r Hi Hr; apply map_lookup_filter_None_2; right;
    intros r' Hi' Hne; simpl in Hne; congruence.
Qed.

(** The author deletes a post through the API. *)
Lemma PostDetail_delete_by_author geolocator (request : Request PostDict) k w P S :
  posts (db w) !! k = Some P → user request = Authenticated S →
  user_id S = Post.author P → method request = DELETE →
  PostDetail geolocator request k w = (Returned HTTP_204, (Post_delete k w).2).
Proof.
  destruct request as [m u f d]. simpl. intros Hk -> HS ->.
  assert (eq_user (Some (Post.author P)) (Authenticated S) = true) as Hown
    by (by apply eq_user_true; rewrite HS).
  unfold PostDetail, dispatch_detail.
  erewrite bind_returned by (by apply check_permissions_authenticated).
  simpl. unfold PostDetail_destroy.
  unfold bind at 1.
  erewrite bind_returned
    by (eapply get_object_author_allowed; [exact Hk | by rewrite has_object_permission_unsafe]).
  unfold PostDetail_perform_destroy, AuthorCheckMixin_perform_destroy.
  cbn [getattr_author getattr_user Post_Model py_or user]. rewrite Hown. cbn [negb].
  by rewrite Post_delete_eq.
Qed.

(** Reading a row that is not stored. *)
Lemma PostDetail_retrieve_missing geolocator (request : Request PostDict) k w :
  posts (db w) !! k = None → method request = GET →
  PostDetail geolocator request k w = (Raised Http404, w).
Proof.
  destruct request as [m u f d]. simpl. intros Hk ->.
  unfold PostDetail, dispatch_detail.
  erewrite bind_returned by (by apply check_permissions_read).
  simpl. apply bind_raised. unfold PostDetail_retrieve. apply bind_raised.
  by apply get_object_missing.
Qed.

Lemma PostImageDetail_retrieve_missing (request : Request ImageDict) k w :
  images (db w) !! k = None → method request = GET →
  PostImageDetail request k w = (Raised Http404, w).
Proof.
  destruct request as [m u f d]. simpl. intros Hk ->.
  unfold PostImageDetail, dispatch_detail.
  erewrite bind_returned by (by apply check_permissions_read).
  simpl. apply bind_raised. unfold PostImageDetail_retrieve. apply bind_raised.
  by apply get_object_missing.
Qed.

Lemma CommentDetail_retrieve_missing (request : Request CommentDict) k w :
  comments (db w) !! k = None → method request = GET →
  CommentDetail request k w = (Raised Http404, w).
Proof.
  destruct request as [m u f d]. simpl. intros Hk ->.
  unfold CommentDetail, dispatch_detail.
  erewrite bind_returned by (by apply check_permissions_read).
  simpl. apply bind_raised. unfold CommentDetail_retrieve. apply bind_raised.
  by apply get_object_missing.
Qed.

Lemma LikeDetail_retrieve_missing (request : Request LikeDict) k w :
  likes (db w) !! k = None → method request = GET →
  is_authenticated (user request) = true →
  LikeDetail request k w = (Raised Http404, w).
Proof.
  destruct request as [m u f d]. simpl. intros Hk -> Hu.
  unfold LikeDetail, dispatch_detail.
  erewrite bind_returned by (by apply check_permissions_authenticated).
  simpl. apply bind_raised. unfold LikeDetail_retrieve. apply bind_raised.
  by apply get_object_missing.
Qed.

(** C3: when its author deletes a post through the API, the call answers
    204 and the database then holds neither the post nor any image, like or
    comment that points at it: every dependant row of the post is gone.
    Reading the post, one of its former images, one of its former likes (by
    an authenticated user, as the view of the likes demands) or one of its
    former comments then raises [Http404]. *)
Theorem post_delete_cascades geolocator (w : World) (S : User) k P
    (request : Request PostDict) :
  posts (db w) !! k = Some P → user request = Authenticated S →
  user_id S = Post.author P → method request = DELETE →
  let w' := (PostDetail geolocator request k w).2 in
  (PostDetail geolocator request k w).1 = Returned HTTP_204 ∧
  no_rows_of k (db w') ∧
  rows_of_removed k (db w) (db w') ∧
  (∀ request' : Request PostDict, method request' = GET →
     PostDetail geolocator request' k w' = (Raised Http404, w')) ∧
  (∀ i r (request' : Request ImageDict),
     images (db w) !! i = Some r → PostImage.post r = k → method request' = GET →
     PostImageDetail request' i w' = (Raised Http404, w')) ∧
  (∀ i r (request' : Request LikeDict),
     likes (db w) !! i = Some r → Like.post r = k → method request' = GET →
     is_authenticated (user request') = true →
     LikeDetail request' i w' = (Raised Http404, w')) ∧
  (∀ i r (request' : Request CommentDict),
     comments (db w) !! i = Some r → Comment.post r = k → method request' = GET →
     CommentDetail request' i w' = (Raised Http404, w')).
Proof.
  intros Hk Hu HS Hm w'. subst w'.
  rewrite (PostDetail_delete_by_author _ _ _ _ _ _ Hk Hu HS Hm). cbn [fst snd].
  pose proof (Post_delete_no_rows k w) as Hnone.
  pose proof (Post_delete_rows_removed k w) as (Himg & Hlike & Hcom).
  split; [done|]. split; [done|]. split; [done|].
  split; [|split; [|split]].
  - intros request' Hget. apply PostDetail_retrieve_missing; [apply Hnone | done].
  - intros i r request' Hi Hr Hget. apply PostImageDetail_retrieve_missing; eauto.
  - intros i r request' Hi Hr Hget Hauth. apply LikeDetail_retrieve_missing; eauto.
  - intros i r request' Hi Hr Hget. apply CommentDetail_retrieve_missing; eauto.
Qed.

(** ** The invariants are kept by every write *)

Ltac wf_lookup :=
  repeat match goal with
  | H : <[_:=_]> _ !! _ = Some _ |- _ => apply lookup_insert_Some in H
  | H : delete _ _ !! _ = Some _ |- _ => apply lookup_delete_Some in H
  | H : filter _ _ !! _ = Some _ |- _ => apply map_lookup_filter_Some in H; simpl in H
  | |- is_Some (<[_:=_]> _ !! _) => apply lookup_insert_is_Some'
  | |- is_Some (delete _ _ !! _) => apply lookup_delete_is_Some
  end.

Ltac wf_use_seq :=
  repeat match goal with
  | H : ∀ k r, ?m !! k = Some r → k < _, H' : ?m !! _ = Some _ |- _ =>
      pose proof (H _ _ H'); clear H'
  end.

Ltac wf_solve :=
  match goal with Hwf : wf _ |- _ =>
    destruct Hwf as ((Hs1 & Hs2 & Hs3 & Hs4) & (Hf1 & Hf2 & Hf3) & Hu) end;
  unfold wf, seq_wf, fk_wf, likes_unique; simpl;
  repeat split; intros; wf_lookup;
  try (destruct_and?; destruct_or?; destruct_and?; simplify_eq/=;
       solve [ done | eauto 3 | right; eauto 3 | wf_use_seq; lia ]).

Lemma wf_empty_store : wf empty_store.
Proof. repeat split; intros ? *; simpl; by rewrite ?lookup_empty. Qed.

Lemma wf_insert_post st row :
  wf st → wf (with_posts st (<[post_seq st := row]> (posts st)) (post_seq st + 1)).
Proof. intros Hwf. wf_solve. Qed.

Lemma wf_insert_image st row :
  wf st → is_Some (posts st !! PostImage.post row) →
  wf (with_images st (<[image_seq st := row]> (images st)) (image_seq st + 1)).
Proof. intros Hwf Hp. wf_solve. Qed.

Lemma wf_insert_comment st row :
  wf st → is_Some (posts st !! Comment.post row) →
  wf (with_comments st (<[comment_seq st := row]> (comments st)) (comment_seq st + 1)).
Proof. intros Hwf Hp. wf_solve. Qed.

Lemma wf_insert_like st row :
  wf st → is_Some (posts st !! Like.post row) →
  (¬ ∃ i l, likes st !! i = Some l ∧ Like.post l = Like.post row ∧ Like.user l = Like.user row) →
  wf (with_likes st (<[like_seq st := row]> (likes st)) (like_seq st + 1)).
Proof.
  intros Hwf Hp Hnew. wf_solve.
  destruct_and?; destruct_or?; destruct_and?; simplify_eq/=.
  - done.
  - exfalso. apply Hnew. eauto 6.
  - exfalso. apply Hnew. eauto 6.
  - eauto.
Qed.

Lemma wf_update_post st k row :
  wf st → is_Some (posts st !! k) →
  wf (with_posts st (<[k := row]> (posts st)) (post_seq st)).
Proof. intros Hwf [r0 Hp]. wf_solve. Qed.

Lemma wf_update_image st k row :
  wf st → is_Some (images st !! k) → is_Some (posts st !! PostImage.post row) →
  wf (with_images st (<[k := row]> (images st)) (image_seq st)).
Proof. intros Hwf [r0 Hk] Hp. wf_solve. Qed.

Lemma wf_update_comment st k row :
  wf st → is_Some (comments st !! k) → is_Some (posts st !! Comment.post row) →
  wf (with_comments st (<[k := row]> (comments st)) (comment_seq st)).
Proof. intros Hwf [r0 Hk] Hp. wf_solve. Qed.

Lemma wf_update_like st k row :
  wf st → is_Some (likes st !! k) → is_Some (posts st !! Like.post row) →
  (¬ ∃ i l, likes st !! i = Some l ∧ i ≠ k ∧
            Like.post l = Like.post row ∧ Like.user l = Like.user row) →
  wf (with_likes st (<[k := row]> (likes st)) (like_seq st)).
Proof.
  intros Hwf [r0 Hk] Hp Hnew. wf_solve.
  destruct_and?; destruct_or?; destruct_and?; simplify_eq/=.
  - done.
  - exfalso. apply Hnew. eauto 8.
  - exfalso. apply Hnew. eauto 8.
  - eauto.
Qed.

Lemma wf_delete_image st k : wf st → wf (with_images st (delete k (images st)) (image_seq st)).
Proof. intros Hwf. wf_solve. Qed.

Lemma wf_delete_like st k : wf st → wf (with_likes st (delete k (likes st)) (like_seq st)).
Proof. intros Hwf. wf_solve. Qed.

Lemma wf_delete_comment st k :
  wf st → wf (with_comments st (delete k (comments st)) (comment_seq st)).
Proof. intros Hwf. wf_solve. Qed.

Lemma wf_delete_images_of st p :
  wf st →
  wf (with_images st (filter (λ kv, PostImage.post kv.2 ≠ p) (images st)) (image_seq st)).
Proof. intros Hwf. wf_solve. Qed.

Lemma wf_delete_likes_of st p :
  wf st → wf (with_likes st (filter (λ kv, Like.post kv.2 ≠ p) (likes st)) (like_seq st)).
Proof. intros Hwf. wf_solve. Qed.

Lemma wf_delete_comments_of st p :
  wf st →
  wf (with_comments st (filter (λ kv, Comment.post kv.2 ≠ p) (comments st)) (comment_seq st)).
Proof. intros Hwf. wf_solve. Qed.

(** The post may go once no row points at it. *)
Lemma wf_delete_post st k :
  wf st →
  (∀ i r, images st !! i = Some r → PostImage.post r ≠ k) →
  (∀ i r, likes st !! i = Some r → Like.post r ≠ k) →
  (∀ i r, comments st !! i = Some r → Comment.post r ≠ k) →
  wf (with_posts st (delete k (posts st)) (post_seq st)).
Proof.
  intros Hwf Hi Hl Hc. wf_solve.
  - split; [intros ->; by eapply Hi | by eauto].
  - split; [intros ->; by eapply Hl | by eauto].
  - split; [intros ->; by eapply Hc | by eauto].
Qed.

(** ** A Hoare logic for the handlers *)

Section Hoare.
Context {A B : Type}.
Implicit Types (P E : Store → Prop).

Lemma hoare_ret P (Q : A → Store → Prop) E a :
  (∀ st, P st → Q a st) → hoare P (ret a) Q E.
Proof. intros H w Hw. simpl. auto. Qed.

Lemma hoare_raise P (Q : A → Store → Prop) E e :
  (∀ st, P st → E st) → hoare P (raise e) Q E.
Proof. intros H w Hw. simpl. auto. Qed.

Lemma hoare_bind P (R : A → Store → Prop) (Q : B → Store → Prop) E (m : M A) (k : A → M B) :
  hoare P m R E → (∀ a, hoare (R a) (k a) Q E) → hoare P (bind m k) Q E.
Proof.
  intros Hm Hk w Hw. specialize (Hm w Hw). unfold bind.
  destruct (m w) as [[a|e] w1]; [by apply Hk | done].
Qed.

Lemma hoare_weaken P P' (Q Q' : A → Store → Prop) E E' (m : M A) :
  hoare P m Q E →
  (∀ st, P' st → P st) → (∀ a st, Q a st → Q' a st) → (∀ st, E st → E' st) →
  hoare P' m Q' E'.
Proof.
  intros Hm HP HQ HE w Hw. specialize (Hm w (HP _ Hw)).
  destruct (m w) as [[a|e] w1]; auto.
Qed.

Lemma hoare_pre P P' (Q : A → Store → Prop) E (m : M A) :
  (∀ st, P' st → P st) → hoare P m Q E → hoare P' m Q E.
Proof. intros HP Hm. eapply hoare_weaken; eauto. Qed.

(** A computation that does not write keeps whatever holds. *)
Lemma hoare_db_pure P (Q : A → Store → Prop) E (m : M A) :
  db_pure m → (∀ a st, P st → Q a st) → (∀ st, P st → E st) → hoare P m Q E.
Proof.
  intros Hm HQ HE w Hw. specialize (Hm w).
  destruct (m w) as [[a|e] w1]; simpl in Hm; rewrite Hm; auto.
Qed.

Lemma hoare_bind_db_pure P (Q : B → Store → Prop) E (m : M A) (k : A → M B) :
  db_pure m → (∀ st, P st → E st) → (∀ a, hoare P (k a) Q E) → hoare P (bind m k) Q E.
Proof.
  intros Hm HE Hk. apply hoare_bind with (R := λ _, P); [|done].
  by apply hoare_db_pure.
Qed.

Lemma hoare_try_except P (Q : A → Store → Prop) E (m h : M A) classes :
  hoare P m Q E → hoare E h Q E → hoare P (try_except m classes h) Q E.
Proof.
  intros Hm Hh w Hw. specialize (Hm w Hw). unfold try_except.
  destruct (m w) as [[a|[]] w1]; try done.
  destruct (existsb _ _); [by apply Hh | done].
Qed.

End Hoare.

(** A lookup that succeeded tells that the row is stored. *)
Lemma hoare_bind_get_or_404 {A B} (table : Store → gmap Z A) k P
    (Q : B → Store → Prop) E (body : A → M B) :
  (∀ st, P st → E st) →
  (∀ obj, hoare (λ st, P st ∧ table st !! k = Some obj) (body obj) Q E) →
  hoare P (bind (get_or_404 table k) body) Q E.
Proof.
  intros HE Hb w Hw.
  destruct (table (db w) !! k) as [obj|] eqn:Hk.
  - erewrite bind_returned by (by apply get_or_404_found). by apply Hb.
  - erewrite bind_raised by (by apply get_or_404_missing). by apply HE.
Qed.

Lemma hoare_bind_get_object {A B C} `{Model A} (table : Store → gmap Z A) perms
    (request : Request C) k P (Q : B → Store → Prop) E (body : A → M B) :
  (∀ st, P st → E st) →
  (∀ obj, hoare (λ st, P st ∧ table st !! k = Some obj) (body obj) Q E) →
  hoare P (bind (get_object table perms request k) body) Q E.
Proof.
  intros HE Hb w Hw.
  pose proof (pure_get_object table perms request k w) as Hpure.
  unfold bind. destruct (get_object table perms request k w) as [[obj|e] w1] eqn:Hg;
    simpl in Hpure; subst w1; [|by apply HE].
  apply Hb. split; [done|].
  unfold get_object in Hg. apply bind_inv_returned in Hg as (obj' & w1 & Hg1 & Hg2).
  apply bind_inv_returned in Hg2 as (? & w2 & _ & Hg3). injection Hg3 as <- _.
  unfold get_or_404, bind, get_db in Hg1.
  destruct (table (db w) !! k); unfold ret, raise in Hg1; by simplify_eq.
Qed.

Lemma hoare_for_each {A} (I : Store → Prop) (l : list A) (body : A → M unit) :
  (∀ x, hoare I (body x) (λ _, I) I) → hoare I (for_each l body) (λ _, I) I.
Proof.
  intros Hb. induction l as [|x l IH]; simpl.
  - by apply hoare_ret.
  - eapply hoare_bind; [apply Hb | intros ?; apply IH].
Qed.

(** The writes of the object-relational layer keep the invariants. *)
Lemma hoare_insert_post row : hoare wf (insert_post row) (λ _, wf) wf.
Proof. intros w Hw. simpl. by apply wf_insert_post. Qed.

Lemma hoare_insert_image row : hoare wf (insert_image row) (λ _, wf) wf.
Proof.
  intros w Hw. unfold insert_image, bind, get_db. simpl.
  destruct (post_exists _ _) eqn:E; simpl; [|done].
  apply wf_insert_image; [done | by apply post_exists_true].
Qed.

Lemma hoare_insert_comment row : hoare wf (insert_comment row) (λ _, wf) wf.
Proof.
  intros w Hw. unfold insert_comment, bind, get_db. simpl.
  destruct (post_exists _ _) eqn:E; simpl; [|done].
  apply wf_insert_comment; [done | by apply post_exists_true].
Qed.

Lemma hoare_insert_like row : hoare wf (insert_like row) (λ _, wf) wf.
Proof.
  intros w Hw. unfold insert_like, bind, get_db. simpl.
  destruct (post_exists _ _) eqn:E; simpl; [|done].
  destruct (like_exists _ _ _) eqn:E2; simpl; [done|].
  apply wf_insert_like; [done | by apply post_exists_true |].
  intros Hex. apply like_exists_true in Hex. congruence.
Qed.

Lemma hoare_update_post k row :
  hoare (λ st, wf st ∧ is_Some (posts st !! k)) (update_post k row) (λ _, wf) wf.
Proof. intros w [Hw Hk]. simpl. by apply wf_update_post. Qed.

Lemma hoare_update_image k row :
  hoare (λ st, wf st ∧ is_Some (images st !! k)) (update_image k row) (λ _, wf) wf.
Proof.
  intros w [Hw Hk]. unfold update_image, bind, get_db. simpl.
  destruct (post_exists _ _) eqn:E; simpl; [|done].
  apply wf_update_image; [done | done | by apply post_exists_true].
Qed.

Lemma hoare_update_comment k row :
  hoare (λ st, wf st ∧ is_Some (comments st !! k)) (update_comment k row) (λ _, wf) wf.
Proof.
  intros w [Hw Hk]. unfold update_comment, bind, get_db. simpl.
  destruct (post_exists _ _) eqn:E; simpl; [|done].
  apply wf_update_comment; [done | done | by apply post_exists_true].
Qed.

Lemma hoare_update_like k row :
  hoare (λ st, wf st ∧ is_Some (likes st !! k)) (update_like k row) (λ _, wf) wf.
Proof.
  intros w [Hw Hk]. unfold update_like, bind, get_db. simpl.
  destruct (post_exists _ _) eqn:E; simpl; [|done].
  destruct (like_exists_other _ _ _ _) eqn:E2; simpl; [done|].
  apply wf_update_like; [done | done | by apply post_exists_true |].
  by apply like_exists_other_false.
Qed.

Lemma hoare_delete_image k : hoare wf (delete_image k) (λ _, wf) wf.
Proof. intros w Hw. simpl. by apply wf_delete_image. Qed.

Lemma hoare_delete_like k : hoare wf (delete_like k) (λ _, wf) wf.
Proof. intros w Hw. simpl. by apply wf_delete_like. Qed.

Lemma hoare_delete_comment k : hoare wf (delete_comment k) (λ _, wf) wf.
Proof. intros w Hw. simpl. by apply wf_delete_comment. Qed.

Lemma hoare_delete_images_of p : hoare wf (delete_images_of p) (λ _, wf) wf.
Proof. intros w Hw. simpl. by apply wf_delete_images_of. Qed.

Lemma hoare_delete_likes_of p : hoare wf (delete_likes_of p) (λ _, wf) wf.
Proof. intros w Hw. simpl. by apply wf_delete_likes_of. Qed.

Lemma hoare_delete_comments_of p : hoare wf (delete_comments_of p) (λ _, wf) wf.
Proof. intros w Hw. simpl. by apply wf_delete_comments_of. Qed.

Lemma hoare_Post_delete k : hoare wf (Post_delete k) (λ _, wf) wf.
Proof.
  intros w Hw. rewrite Post_delete_eq.
  pose proof (wf_delete_comments_of _ k (wf_delete_likes_of _ k (wf_delete_images_of _ k Hw)))
    as Hw3.
  apply (wf_delete_post _ k) in Hw3; [exact Hw3 | ..]; simpl;
    intros i r [_ Hr]%map_lookup_filter_Some; exact Hr.
Qed.

Create HintDb pure discriminated.
#[local] Hint Resolve pure_ret pure_raise pure_get_db pure_permission_denied
  pure_check_permissions pure_check_object_permissions pure_get_or_404 pure_get_object
  pure_validate_text pure_validate_post_pk pure_validate_image
  pure_PostSerializer_is_valid pure_LikeSerializer_is_valid
  pure_CommentSerializer_is_valid pure_PostImageSerializer_is_valid
  pure_PostSerializer_data : pure.

Ltac solve_db_pure :=
  first [ apply pure_db_pure; solve [auto with pure]
        | apply db_pure_get_coordinates
        | apply db_pure_ret | apply db_pure_raise ].

Ltac hoare_imp := intros; simpl in *; solve [ tauto | intuition eauto ].

Ltac hoare_step :=
  match goal with
  | |- hoare _ (bind (get_object _ _ _ _) _) _ _ =>
      apply hoare_bind_get_object; [hoare_imp | intros ?]
  | |- hoare _ (bind (get_or_404 _ _) _) _ _ =>
      apply hoare_bind_get_or_404; [hoare_imp | intros ?]
  | |- hoare _ (bind _ _) _ _ =>
      apply hoare_bind_db_pure; [solve_db_pure | hoare_imp | intros ?]
  | |- hoare _ (ret _) _ _ => apply hoare_ret; hoare_imp
  | |- hoare _ (raise _) _ _ => apply hoare_raise; hoare_imp
  | |- hoare _ (permission_denied _) _ _ =>
      apply hoare_db_pure; [solve_db_pure | hoare_imp | hoare_imp]
  | |- hoare _ (if ?b then _ else _) _ _ => destruct b
  | |- hoare _ (match ?x with _ => _ end) _ _ => destruct x
  end.

(** A step whose specification is [lem], with the precondition at hand
    weakened to the one of [lem]. *)
Ltac hoare_by lem :=
  eapply hoare_pre; [|apply lem]; hoare_imp.

Ltac hoare_bind_by lem :=
  eapply hoare_bind; [hoare_by lem | intros ?].

Section Invariants.
Context (geolocator : Nominatim).

Lemma hoare_Post_save id self :
  hoare (λ st, wf st ∧ match id with Some k => is_Some (posts st !! k) | None => True end)
    (Post_save geolocator id self) (λ _, wf) wf.
Proof.
  unfold Post_save.
  eapply hoare_bind with (R := λ _ st, wf st ∧
    match id with Some k => is_Some (posts st !! k) | None => True end).
  - repeat hoare_step.
  - intros self'. destruct id as [k|].
    + hoare_bind_by (hoare_update_post k self'). hoare_step.
    + hoare_bind_by (hoare_insert_post self'). hoare_step.
Qed.

Lemma hoare_user_fk u P : hoare P (user_fk u) (λ _, P) P.
Proof. unfold user_fk. repeat hoare_step. Qed.

Lemma hoare_Post_objects_create kwargs :
  hoare wf (Post_objects_create geolocator kwargs) (λ _, wf) wf.
Proof.
  unfold Post_objects_create.
  assert (∀ author,
    hoare wf
      (if negb (is_None (pd_image kwargs)) || negb (is_None (pd_uploaded_images kwargs))
       then raise TypeError
       else
         let* a := user_fk author in
         Post_save geolocator None
           (Post.mk a (default "" (pd_text kwargs)) (pd_location_name kwargs)
                    (pd_latitude kwargs) (pd_longitude kwargs)))
      (λ _, wf) wf) as Hrest.
  { intros author. hoare_step; [hoare_step|].
    eapply hoare_bind; [apply hoare_user_fk | intros a].
    hoare_by (hoare_Post_save None). }
  destruct (pd_author kwargs) as [[|x]|]; [hoare_step | apply Hrest..].
Qed.

Lemma hoare_PostImage_objects_create post image :
  hoare wf (PostImage_objects_create post image) (λ _, wf) wf.
Proof.
  unfold PostImage_objects_create. hoare_step; [apply hoare_insert_image | hoare_step].
Qed.

Lemma hoare_Like_objects_create kwargs : hoare wf (Like_objects_create kwargs) (λ _, wf) wf.
Proof.
  unfold Like_objects_create.
  eapply hoare_bind; [apply hoare_user_fk | intros u].
  hoare_step; [apply hoare_insert_like | hoare_step].
Qed.

Lemma hoare_Comment_objects_create kwargs :
  hoare wf (Comment_objects_create kwargs) (λ _, wf) wf.
Proof.
  unfold Comment_objects_create.
  eapply hoare_bind; [apply hoare_user_fk | intros u].
  hoare_step; [apply hoare_insert_comment | hoare_step].
Qed.

Lemma db_pure_geocode_step (d : PostDict) name :
  db_pure
    (try_except
       (let* location := geolocator_geocode geolocator name in
        match location with
        | Some (lat, lon) => ret (pd_set_location d (Some name) (Some lat) (Some lon))
        | None => ret d
        end)
       [GeocoderUnavailable] (ret d)).
Proof.
  apply db_pure_try_except; [|apply db_pure_ret].
  apply db_pure_bind.
  - intros w. unfold geolocator_geocode. by destruct (geocode _ _ _).
  - intros [[lat lon]|]; apply db_pure_ret.
Qed.

Lemma hoare_PostSerializer_create {B} (request : Request B) validated_data :
  hoare wf (PostSerializer_create geolocator request validated_data) (λ _, wf) wf.
Proof.
  unfold PostSerializer_create. hoare_step; [hoare_step|].
  eapply hoare_bind with (R := λ _, wf).
  - destruct (truthy_opt_str (pd_location_name validated_data)); [|hoare_step].
    apply hoare_db_pure; [|hoare_imp..].
    destruct (pd_location_name validated_data) as [name|]; simpl.
    + apply db_pure_geocode_step.
    + apply db_pure_try_except; [|apply db_pure_ret].
      apply db_pure_bind.
      * intros w. unfold geolocator_geocode. by destruct (geocode _ _ _).
      * intros [[lat lon]|]; apply db_pure_ret.
  - intros d.
    eapply hoare_bind; [apply hoare_Post_objects_create | intros post].
    eapply hoare_bind with (R := λ _, wf).
    + apply hoare_for_each. intros img.
      eapply hoare_bind; [apply hoare_PostImage_objects_create | intros ?; hoare_step].
    + intros _. eapply hoare_bind with (R := λ _, wf); [|intros ?; hoare_step].
      destruct (pd_image _); [|hoare_step].
      eapply hoare_bind; [apply hoare_PostImage_objects_create | intros ?; hoare_step].
Qed.

End Invariants.

Lemma hoare_dispatch_list {B L} perms (request : Request B) (list : M L) (create : M pk) :
  hoare wf list (λ _, wf) wf → hoare wf create (λ _, wf) wf →
  hoare wf (dispatch_list perms request list create) (λ _, wf) wf.
Proof.
  intros Hl Hc. unfold dispatch_list. hoare_step.
  destruct (method request); try hoare_step;
    (eapply hoare_bind; [eassumption | intros ?; hoare_step]).
Qed.

Lemma hoare_dispatch_detail {B R} perms (request : Request B) (retrieve : M R)
    (update : bool → M R) (destroy : M unit) :
  hoare wf retrieve (λ _, wf) wf → (∀ partial, hoare wf (update partial) (λ _, wf) wf) →
  hoare wf destroy (λ _, wf) wf →
  hoare wf (dispatch_detail perms request retrieve update destroy) (λ _, wf) wf.
Proof.
  intros Hr Hu Hd. unfold dispatch_detail. hoare_step.
  destruct (method request); try hoare_step;
    (eapply hoare_bind; [first [eassumption | apply Hu] | intros ?; hoare_step]).
Qed.

Section Views.
Context (geolocator : Nominatim).

Lemma hoare_PostList request : hoare wf (PostList geolocator request) (λ _, wf) wf.
Proof.
  apply hoare_dispatch_list.
  - unfold PostList_list. repeat hoare_step.
  - unfold PostList_create, PostList_perform_create. hoare_step.
    apply hoare_PostSerializer_create.
Qed.

Lemma hoare_PostDetail request k : hoare wf (PostDetail geolocator request k) (λ _, wf) wf.
Proof.
  apply hoare_dispatch_detail.
  - unfold PostDetail_retrieve. hoare_step.
    apply hoare_db_pure; [solve_db_pure | hoare_imp..].
  - intros partial. unfold PostDetail_update. hoare_step. hoare_step.
    eapply hoare_bind with (R := λ _, wf).
    + unfold PostDetail_perform_update, AuthorCheckMixin_perform_update.
      hoare_step; [hoare_step|]. unfold PostSerializer_update.
      hoare_by (hoare_Post_save geolocator (Some k)).
    + intros saved. apply hoare_db_pure; [solve_db_pure | hoare_imp..].
  - unfold PostDetail_destroy. hoare_step.
    unfold PostDetail_perform_destroy, AuthorCheckMixin_perform_destroy.
    hoare_step; [hoare_step|]. hoare_by hoare_Post_delete.
Qed.

Lemma hoare_PostImageList request post_id :
  hoare wf (PostImageList request post_id) (λ _, wf) wf.
Proof.
  apply hoare_dispatch_list.
  - unfold PostImageList_get_queryset. repeat hoare_step.
  - unfold PostImageList_create, PostImageList_perform_create. hoare_step.
    hoare_step; [hoare_step|]. apply hoare_PostImage_objects_create.
Qed.

Lemma hoare_PostImageDetail request k : hoare wf (PostImageDetail request k) (λ _, wf) wf.
Proof.
  apply hoare_dispatch_detail.
  - unfold PostImageDetail_retrieve. hoare_step. hoare_step.
  - intros partial. unfold PostImageDetail_update. hoare_step. hoare_step.
    unfold AuthorCheckMixin_perform_update. hoare_step; [hoare_step|].
    unfold PostImageSerializer_update.
    eapply hoare_bind; [hoare_by (hoare_update_image k) | intros ?; hoare_step].
  - unfold PostImageDetail_destroy. hoare_step.
    unfold AuthorCheckMixin_perform_destroy. hoare_step; [hoare_step|].
    hoare_by hoare_delete_image.
Qed.

Lemma hoare_LikeList request post_id : hoare wf (LikeList request post_id) (λ _, wf) wf.
Proof.
  apply hoare_dispatch_list.
  - unfold LikeList_get_queryset. repeat hoare_step.
  - unfold LikeList_create, LikeList_perform_create. hoare_step. hoare_step. hoare_step.
    hoare_step; [hoare_step|]. unfold LikeSerializer_create.
    hoare_by hoare_Like_objects_create.
Qed.

Lemma hoare_LikeDetail request k : hoare wf (LikeDetail request k) (λ _, wf) wf.
Proof.
  apply hoare_dispatch_detail.
  - unfold LikeDetail_retrieve. hoare_step. hoare_step.
  - intros partial. unfold LikeDetail_update. hoare_step. hoare_step.
    unfold LikeDetail_perform_update. hoare_step; [hoare_step|].
    unfold LikeSerializer_update.
    eapply hoare_bind; [hoare_by (hoare_update_like k) | intros ?; hoare_step].
  - unfold LikeDetail_destroy. hoare_step.
    unfold LikeDetail_perform_destroy. hoare_step; [hoare_step|].
    hoare_by hoare_delete_like.
Qed.

Lemma hoare_CommentList request post_id :
  hoare wf (CommentList request post_id) (λ _, wf) wf.
Proof.
  apply hoare_dispatch_list.
  - unfold CommentList_get_queryset. repeat hoare_step.
  - unfold CommentList_create, CommentList_perform_create. hoare_step. hoare_step.
    unfold CommentSerializer_create. hoare_by hoare_Comment_objects_create.
Qed.

Lemma hoare_CommentDetail request k : hoare wf (CommentDetail request k) (λ _, wf) wf.
Proof.
  apply hoare_dispatch_detail.
  - unfold CommentDetail_retrieve. hoare_step. hoare_step.
  - intros partial. unfold CommentDetail_update. hoare_step. hoare_step.
    unfold AuthorCheckMixin_perform_update. hoare_step; [hoare_step|].
    unfold CommentSerializer_update.
    eapply hoare_bind; [hoare_by (hoare_update_comment k) | intros ?; hoare_step].
  - unfold CommentDetail_destroy. hoare_step.
    unfold AuthorCheckMixin_perform_destroy. hoare_step; [hoare_step|].
    hoare_by hoare_delete_comment.
Qed.

Lemma hoare_PostAdmin_delete_model k : hoare wf (PostAdmin_delete_model k) (λ _, wf) wf.
Proof.
  unfold PostAdmin_delete_model.
  eapply hoare_bind; [apply hoare_delete_images_of | intros ?].
  eapply hoare_bind; [apply hoare_delete_likes_of | intros ?].
  eapply hoare_bind; [apply hoare_delete_comments_of | intros ?].
  apply hoare_Post_delete.
Qed.

(** What [hoare] says of the world after a computation. *)
Lemma hoare_wf_after {A} (m : M A) w :
  hoare wf m (λ _, wf) wf → wf (db w) → wf (db (m w).2).
Proof. intros Hm Hw. specialize (Hm w Hw). by destruct (m w) as [[a|e] w1]. Qed.

(** Every call keeps the invariants of the database. *)
Lemma run_wf c w : wf (db w) → wf (db (run geolocator c w)).
Proof.
  intros Hw. destruct c; unfold run; apply hoare_wf_after; try done.
  - apply hoare_PostList.
  - apply hoare_PostDetail.
  - apply hoare_PostImageList.
  - apply hoare_PostImageDetail.
  - apply hoare_LikeList.
  - apply hoare_LikeDetail.
  - apply hoare_CommentList.
  - apply hoare_CommentDetail.
  - apply hoare_PostAdmin_delete_model.
  - apply hoare_for_each. intros k. apply hoare_PostAdmin_delete_model.
  - apply hoare_for_each. apply hoare_delete_image.
  - apply hoare_for_each. apply hoare_delete_like.
  - apply hoare_for_each. apply hoare_delete_comment.
  - apply hoare_delete_comment.
Qed.

Lemma reachable_wf w : reachable geolocator w → wf (db w).
Proof.
  induction 1 as [|c w Hr IH]; [apply wf_empty_store | by apply run_wf].
Qed.

End Views.

(** ** C2: one like per post and user *)

(** A second like of the same post by the same user. *)
Lemma LikeList_create_duplicate (request : Request LikeDict) p w S :
  wf (db w) → user request = Authenticated S → method request = POST →
  like_exists (db w) p (user_id S) = true →
  LikeList request p w
  = match LikeSerializer_is_valid false (data request) w with
    | (Raised e, _) => (Raised e, w)
    | (Returned _, _) => (Raised (ValidationError msg_already_liked), w)
    end.
Proof.
  destruct request as [m u f d]. simpl. intros Hwf -> -> Hex.
  unfold LikeList, dispatch_list.
  erewrite bind_returned by (by apply check_permissions_authenticated).
  simpl. unfold LikeList_create.
  pose proof (pure_LikeSerializer_is_valid false d w) as Hpure.
  unfold bind at 1 2. cbn [data].
  destruct (LikeSerializer_is_valid false d w) as [[vd|e] w1]; simpl in Hpure; subst w1;
    [|done].
  unfold LikeList_perform_create.
  assert (is_Some (posts (db w) !! p)) as [P HP].
  { apply like_exists_true in Hex as (i & l & Hi & <- & _).
    destruct Hwf as (_ & (_ & Hfk & _) & _). eauto. }
  erewrite bind_returned by (by apply get_or_404_found).
  unfold bind, get_db. simpl. by rewrite Hex.
Qed.

(** C2: in every database the application can reach, two likes of the same
    post by the same user are the same row.  When a like of the post by the
    user of the request is stored, a further creation of one is refused
    with a [ValidationError] and the world stays as it was, so no like is
    added or removed and the count of the likes of the post is the same; the
    error is the one that says the post was already liked, whenever the body
    of the request passes the validation of the serializer (its [post] names
    a stored post). *)
Theorem one_like_per_post_and_user geolocator (w : World) :
  reachable geolocator w →
  likes_unique (db w) ∧
  (∀ (S : User) (p : pk) (request : Request LikeDict),
     user request = Authenticated S → method request = POST →
     like_exists (db w) p (user_id S) = true →
     (∃ detail, LikeList request p w = (Raised (ValidationError detail), w)) ∧
     (∀ q, ld_post (data request) = Some q → is_Some (posts (db w) !! q) →
           LikeList request p w = (Raised (ValidationError msg_already_liked), w)) ∧
     likes (db (LikeList request p w).2) = likes (db w) ∧
     count_likes (db (LikeList request p w).2) p = count_likes (db w) p).
Proof.
  intros Hr. pose proof (reachable_wf _ _ Hr) as Hwf.
  split; [apply Hwf|].
  intros S p request Hu Hm Hex.
  rewrite (LikeList_create_duplicate _ _ _ _ Hwf Hu Hm Hex).
  split; [|split; [|split]].
  - destruct (LikeSerializer_is_valid false (data request) w) as [[vd|e] w1] eqn:E; [eauto|].
    apply LikeSerializer_is_valid_raises in E as [detail ->]. eauto.
  - intros q Hq Hpost.
    unfold LikeSerializer_is_valid, validate_post_pk, bind, get_db. rewrite Hq. simpl.
    apply post_exists_true in Hpost. by rewrite Hpost.
  - by destruct (LikeSerializer_is_valid false (data request) w) as [[vd|e] w1].
  - by destruct (LikeSerializer_is_valid false (data request) w) as [[vd|e] w1].
Qed.

(** ** C4: creation of a post *)

Section PostCreation.
Context (geolocator : Nominatim).

(** A post without any image is refused and nothing is written, whatever
    the other fields are. *)
Lemma post_without_image_rejected (request : Request PostDict) w text :
  method request = POST → is_authenticated (user request) = true →
  pd_text (data request) = Some text → text ≠ "" →
  has_images
    {| pd_author := None; pd_text := pd_text (data request);
       pd_location_name := pd_location_name (data request);
       pd_latitude := None; pd_longitude := None;
       pd_image := pd_image (data request);
       pd_uploaded_images := pd_uploaded_images (data request) |} request = false →
  PostList geolocator request w = (Raised (ValidationError msg_no_image), w).
Proof.
  destruct request as [m u f d]. simpl. intros -> Hu Ht Hne Himg.
  unfold PostList, dispatch_list.
  erewrite bind_returned by (by apply check_permissions_authenticated).
  simpl. apply bind_raised. unfold PostList_create. apply bind_raised.
  unfold PostSerializer_is_valid. cbn [data]. rewrite Ht.
  unfold validate_text. apply truthy_str_spec in Hne. rewrite Hne.
  erewrite bind_returned by done.
  unfold PostSerializer_validate. rewrite Ht in Himg. by rewrite Himg.
Qed.

(** C4 fails on the code: a post sent with its image in the field [image]
    passes the validation, and then [Post.objects.create] is called with
    the keyword [image], which is no field of [Post]: [TypeError] is raised
    and neither the post nor the image is written. *)
Theorem post_with_single_image_raises w :
  PostList geolocator
    (request_of POST alice (post_body "hello" None (Some "cat.png") None)) w
  = (Raised TypeError, w).
Proof. done. Qed.

End PostCreation.

Lemma count_images_fresh_post st : wf st → count_images st (post_seq st) = 0%nat.
Proof.
  intros ((Hs1 & _) & (Hf1 & _) & _). unfold count_images.
  rewrite (map_empty_filter_2 _ (images st)); [apply map_size_empty|].
  intros i r Hi Hp. simpl in Hp.
  destruct (Hf1 _ _ Hi) as [P HP]. apply Hs1 in HP. lia.
Qed.

Lemma count_images_insert st row :
  wf st →
  count_images
    (with_images st (<[image_seq st := row]> (images st)) (image_seq st + 1))
    (PostImage.post row)
  = S (count_images st (PostImage.post row)).
Proof.
  intros ((_ & Hs2 & _) & _). unfold count_images. simpl.
  rewrite map_filter_insert_True by done.
  apply map_size_insert_None, map_lookup_filter_None_2. left.
  destruct (images st !! image_seq st) as [r|] eqn:E; [|done].
  apply Hs2 in E. lia.
Qed.

(** The loop of [PostSerializer.create] over the uploaded images: one row
    per image. *)
Lemma for_each_uploaded_image (l : list File) p w :
  wf (db w) → is_Some (posts (db w) !! p) →
  ∃ w', for_each l (λ img, PostImage_objects_create (Some p) (Some img) >> ret ()) w
        = (Returned (), w') ∧
        wf (db w') ∧ posts (db w') = posts (db w) ∧
        count_images (db w') p = (count_images (db w) p + length l)%nat.
Proof.
  revert w. induction l as [|img l IH]; intros w Hwf Hp; cbn [for_each length].
  - exists w. split; [done|]. split; [done|]. split; [done | lia].
  - pose proof (count_images_insert (db w) (PostImage.mk p img) Hwf) as Hcount.
    pose proof (wf_insert_image (db w) (PostImage.mk p img) Hwf Hp) as Hwf'.
    set (w1 := {| db := with_images (db w)
                          (<[image_seq (db w) := PostImage.mk p img]> (images (db w)))
                          (image_seq (db w) + 1);
                  geo_log := geo_log w |}).
    destruct (IH w1 Hwf' Hp) as (w' & Hrun & Hwf'' & Hposts & Hn).
    exists w'. split; [|split; [done | split; [done|]]].
    + apply post_exists_true in Hp.
      unfold bind at 1 2. unfold PostImage_objects_create, insert_image, bind, get_db.
      simpl. rewrite Hp. exact Hrun.
    + rewrite Hn. subst w1. simpl in *. rewrite Hcount. lia.
Qed.

Section PostCreated.
Context (geolocator : Nominatim).

(** The part of C4 that holds: a post sent with its images in the list
    [uploaded_images], a text and no location name is created, and it has
    one image row for each image of the list. *)
Lemma post_with_uploaded_images_created (request : Request PostDict) w S text l :
  wf (db w) → method request = POST → user request = Authenticated S →
  pd_text (data request) = Some text → text ≠ "" →
  pd_uploaded_images (data request) = Some l → l ≠ [] →
  pd_image (data request) = None →
  truthy_opt_str (pd_location_name (data request)) = false →
  ∃ w', PostList geolocator request w = (Returned (HTTP_201 (post_seq (db w))), w') ∧
        posts (db w') !! post_seq (db w) = Some (Post.mk (user_id S) text None None None) ∧
        count_images (db w') (post_seq (db w)) = length l.
Proof.
  destruct request as [m u f d]. simpl. intros Hwf -> -> Ht Hne Hup Hl Himg Hloc.
  pose proof (wf_insert_post (db w) (Post.mk (user_id S) text None None None) Hwf) as Hwf1.
  set (w1 := {| db := with_posts (db w)
                        (<[post_seq (db w) := Post.mk (user_id S) text None None None]>
                           (posts (db w)))
                        (post_seq (db w) + 1);
                geo_log := geo_log w |}).
  destruct (for_each_uploaded_image l (post_seq (db w)) w1 Hwf1) as (w' & Hrun & _ & Hposts & Hn).
  { simpl. rewrite lookup_insert_eq. eauto. }
  exists w'.
  assert (truthy_list l = true) as Hl' by (by destruct l).
  apply truthy_str_spec in Hne.
  split; [|split].
  - unfold PostList, dispatch_list.
    erewrite bind_returned by (by apply check_permissions_authenticated).
    cbn [method]. unfold PostList_create.
    assert (PostSerializer_is_valid None false
              {| method := POST; user := Authenticated S; FILES_images := f; data := d |} d w
            = (Returned {| pd_author := None; pd_text := Some text;
                           pd_location_name := pd_location_name d;
                           pd_latitude := None; pd_longitude := None;
                           pd_image := None; pd_uploaded_images := Some l |}, w)) as Hvalid.
    { unfold PostSerializer_is_valid, validate_text, PostSerializer_validate, has_images.
      rewrite Ht, Hne, Hup, Himg. unfold bind, ret. simpl. by rewrite Hl'. }
    unfold bind at 1 2. cbn [data]. rewrite Hvalid.
    unfold PostList_perform_create, PostSerializer_create, has_images. simpl.
    rewrite Hl'. simpl. rewrite Hloc.
    unfold bind at 1. unfold ret at 1.
    unfold Post_objects_create, user_fk, Post_save. simpl.
    unfold bind at 1 2 3. simpl. unfold bind at 1. simpl.
    simpl in Hrun. subst w1. rewrite Hrun. done.
  - rewrite Hposts. subst w1. simpl. apply lookup_insert_eq.
  - rewrite Hn. subst w1.
    pose proof (count_images_fresh_post (db w) Hwf) as H0.
    unfold count_images in *. simpl in *. rewrite H0. done.
Qed.

End PostCreated.

(** ** C6: creation under a post that is not stored *)

(** The part of C6 that holds: a comment for a post that is not stored is
    refused with [Http404] and nothing is written, once the body passes the
    validation of the serializer. *)
Lemma comment_on_missing_post (request : Request CommentDict) post_id w q text :
  posts (db w) !! post_id = None →
  method request = POST → is_authenticated (user request) = true →
  cd_post (data request) = Some q → is_Some (posts (db w) !! q) →
  cd_text (data request) = Some text → text ≠ "" →
  CommentList request post_id w = (Raised Http404, w).
Proof.
  destruct request as [m u f d]. simpl. intros Hk -> Hu Hq Hqs Ht Hne.
  unfold CommentList, dispatch_list.
  erewrite bind_returned by (by apply check_permissions_authenticated).
  simpl. apply bind_raised. unfold CommentList_create.
  assert (CommentSerializer_is_valid false d w
          = (Returned {| cd_post := Some q; cd_author := None; cd_text := Some text |}, w))
    as Hvalid.
  { unfold CommentSerializer_is_valid, validate_post_pk, validate_text, bind, get_db.
    rewrite Hq, Ht. simpl. apply post_exists_true in Hqs. rewrite Hqs.
    apply truthy_str_spec in Hne. by rewrite Hne. }
  erewrite bind_returned by exact Hvalid.
  unfold CommentList_perform_create. apply bind_raised. by apply get_or_404_missing.
Qed.

(** When the body itself names a post that is not stored, the serializer
    refuses it before the view looks at the post of the URL. *)
Lemma comment_body_names_missing_post (request : Request CommentDict) post_id w q :
  method request = POST → is_authenticated (user request) = true →
  cd_post (data request) = Some q → posts (db w) !! q = None →
  CommentList request post_id w = (Raised (ValidationError (msg_does_not_exist q)), w).
Proof.
  destruct request as [m u f d]. simpl. intros -> Hu Hq Hqs.
  unfold CommentList, dispatch_list.
  erewrite bind_returned by (by apply check_permissions_authenticated).
  simpl. apply bind_raised. unfold CommentList_create. apply bind_raised.
  unfold CommentSerializer_is_valid. apply bind_raised.
  unfold validate_post_pk, bind, get_db, post_exists. cbn [data]. rewrite Hq. simpl.
  by rewrite Hqs.
Qed.

(** An image for a post that is not stored: the view does not look the post
    up, and the insertion breaks the foreign key. *)
Lemma image_on_missing_post (request : Request ImageDict) post_id w image :
  posts (db w) !! post_id = None → post_id ≠ 0 →
  method request = POST → is_authenticated (user request) = true →
  id_image (data request) = Some image →
  PostImageList request post_id w = (Raised IntegrityError, w).
Proof.
  destruct request as [m u f d]. simpl. intros Hk Hz -> Hu Hi.
  unfold PostImageList, dispatch_list.
  erewrite bind_returned by (by apply check_permissions_authenticated).
  simpl. apply bind_raised. unfold PostImageList_create.
  unfold PostImageSerializer_is_valid, validate_image. cbn [data]. rewrite Hi.
  unfold bind at 1 2. simpl.
  unfold PostImageList_perform_create. destruct (Z.eqb_spec post_id 0); [done|].
  unfold PostImageSerializer_create, PostImage_objects_create, insert_image, bind, get_db.
  simpl. unfold post_exists. rewrite Hk. done.
Qed.

Lemma image_on_post_zero (request : Request ImageDict) w image :
  method request = POST → is_authenticated (user request) = true →
  id_image (data request) = Some image →
  PostImageList request 0 w = (Raised (ValidationError msg_post_id_required), w).
Proof.
  destruct request as [m u f d]. simpl. intros -> Hu Hi.
  unfold PostImageList, dispatch_list.
  erewrite bind_returned by (by apply check_permissions_authenticated).
  simpl. apply bind_raised. unfold PostImageList_create.
  unfold PostImageSerializer_is_valid, validate_image. cbn [data]. rewrite Hi. done.
Qed.

(** C6 fails on the code for images: with the post 1 stored and no post 7,
    the creation of an image under the post 7 raises [IntegrityError], not
    [Http404]. *)
Theorem image_on_missing_post_raises_IntegrityError :
  posts (db world_with_post) !! 7 = None ∧
  PostImageList (request_of POST bob (image_body (Some "dog.png"))) 7 world_with_post
  = (Raised IntegrityError, world_with_post).
Proof. split; [done|]. by apply (image_on_missing_post _ _ _ "dog.png"). Qed.

(** ** C8: forward geocoding on a write *)

Section ForwardGeocoding.
Context (geolocator : Nominatim).

(** The part of C8 that holds, [Post.save]: when the post has a location
    name and lacks a coordinate, the geocoding service is called; if it
    finds nothing, times out or fails with any other service error, the
    post is saved as it is, its coordinates left as they were. *)
Lemma Post_save_survives_geocoding_failure id self w name :
  Post.location_name self = Some name → name ≠ "" →
  Post.latitude self = None ∨ Post.longitude self = None →
  geocode geolocator (geo_log w) name = NoMatch ∨
  (∃ e, geocode geolocator (geo_log w) name = Fails e ∧
        issubclass e GeocoderServiceError = true) →
  ∃ k w', Post_save geolocator id self w = (Returned (k, self), w') ∧
          posts (db w') !! k = Some self ∧
          geo_log w' = geo_log w ++ [CallGeocode name].
Proof.
  intros Hn Hne Hc Hg. apply truthy_str_spec in Hne.
  assert (is_None (Post.latitude self) || is_None (Post.longitude self) = true) as Hc'.
  { destruct Hc as [-> | ->]; simpl; [done | apply orb_true_r]. }
  assert (get_coordinates geolocator name w
          = (Returned (None, None),
             {| db := db w; geo_log := geo_log w ++ [CallGeocode name] |})) as Hgc.
  { unfold get_coordinates, try_except, bind, geolocator_geocode.
    destruct Hg as [-> | (e & -> & He)]; [done|]. by destruct e. }
  unfold Post_save. rewrite Hn. simpl. rewrite Hne, Hc'. simpl.
  unfold bind at 1 2. rewrite Hgc. simpl.
  destruct id as [k|]; simpl.
  - exists k. eexists. split; [done|]. simpl. split; [apply lookup_insert_eq | done].
  - exists (post_seq (db w)). eexists. split; [done|]. simpl.
    split; [apply lookup_insert_eq | done].
Qed.

End ForwardGeocoding.

(** C8 fails on the code for the creation through the API:
    [PostSerializer.create] calls the geocoding service itself and catches
    [GeocoderUnavailable] only.  When the service times out, the exception
    leaves the handler and no post is written. *)
Theorem post_creation_aborted_by_geocoder_timeout :
  PostList nominatim_timing_out
    (request_of POST alice (post_body "hello" (Some "Paris") None (Some ["cat.png"])))
    initial_world
  = (Raised (Geopy GeocoderTimedOut),
     {| db := empty_store; geo_log := [CallGeocode "Paris"] |}).
Proof. done. Qed.

(** ** Concrete cases *)

(** C7 fails on the code.  The post on the equator has both coordinates
    stored, and the reverse lookup of them would succeed, but its latitude
    is zero: [location_address] tests the coordinates for truth, takes the
    latitude for absent, makes no lookup and returns the location name,
    against its own docstring.  [Post.save] tests the same coordinates with
    [is None], takes them for present and does not geocode the name. *)
Theorem location_address_skips_lookup_at_zero_latitude :
  Post.latitude post_on_equator = Some 0 ∧
  Post.longitude post_on_equator = Some (-78455800) ∧
  reverse nominatim_up [] 0 (-78455800) = Located "Mitad del Mundo, Quito" ∧
  location_address nominatim_up post_on_equator initial_world
  = (Returned "Quito", initial_world) ∧
  (location_address nominatim_up post_on_equator initial_world).1
  ≠ Returned "Mitad del Mundo, Quito" ∧
  Post_save nominatim_up None post_on_equator initial_world
  = (Returned (1, post_on_equator),
     {| db := with_posts empty_store (<[1 := post_on_equator]> ∅) 2; geo_log := [] |}).
Proof. repeat split; done. Qed.

Lemma zero_coordinates_shown_as_absent_witness :
  location_address nominatim_up post_on_equator initial_world
  = (Returned "Quito", initial_world) ∧
  get_location post_on_equator = None.
Proof.
  destruct (zero_coordinates_shown_as_absent nominatim_up post_on_equator initial_world)
    as (H1 & _ & H2); [left; reflexivity|].
  split; [exact H1 | exact H2].
Defined.

Lemma world_with_like_reachable : reachable nominatim_up world_with_like.
Proof. unfold world_with_like, world_with_post. repeat constructor. Qed.



Lemma one_like_per_post_and_user_witness :
  LikeList (request_of POST bob (like_body (Some 1))) 1 world_with_like
  = (Raised (ValidationError msg_already_liked), world_with_like) ∧
  count_likes (db (LikeList (request_of POST bob (like_body (Some 1))) 1 world_with_like).2) 1
  = count_likes (db world_with_like) 1.
Proof.
  destruct (proj2 (one_like_per_post_and_user nominatim_up world_with_like
                     world_with_like_reachable)
              bob 1 (request_of POST bob (like_body (Some 1))))
    as (_ & H1 & _ & H2); [reflexivity | reflexivity | reflexivity |].
  split; [|exact H2].
  apply (H1 1); [reflexivity | vm_compute; eauto].
Defined.

Lemma post_delete_cascades_witness :
  (PostDetail nominatim_up (request_of DELETE alice empty_post_body) 1 world_with_like).1
  = Returned HTTP_204 ∧
  no_rows_of 1
    (db (PostDetail nominatim_up (request_of DELETE alice empty_post_body) 1
           world_with_like).2).
Proof.
  destruct (post_delete_cascades nominatim_up world_with_like alice 1
              (Post.mk 1 "hello" None None None)
              (request_of DELETE alice empty_post_body))
    as (H1 & H2 & _); [reflexivity | reflexivity | reflexivity | reflexivity |].
  split; [exact H1 | exact H2].
Defined.

Lemma like_mutation_only_by_its_user_witness :
  (LikeDetail (request_of DELETE bob (like_body None)) 1 world_with_like).1
  = Returned HTTP_204 ∧
  ∃ detail, LikeDetail (request_of DELETE root (like_body None)) 1 world_with_like
            = (Raised (ValidationError detail), world_with_like).
Proof.
  split.
  - destruct (like_mutation_only_by_its_user world_with_like bob 1 (Like.mk 1 2)
                (request_of DELETE bob (like_body None))) as (H1 & _);
      [reflexivity | reflexivity |].
    apply (proj1 (H1 eq_refl)). reflexivity.
  - destruct (like_mutation_only_by_its_user world_with_like root 1 (Like.mk 1 2)
                (request_of DELETE root (like_body None))) as (_ & _ & H3);
      [reflexivity | reflexivity |].
    apply H3; [simpl; set_solver | simpl; lia].
Defined.

(** The deletion of a post in the admin site deletes the dependants by hand
    and leaves the same: no row of the post. *)
Lemma PostAdmin_delete_model_no_rows k w :
  (PostAdmin_delete_model k w).1 = Returned () ∧
  no_rows_of k (db (PostAdmin_delete_model k w).2) ∧
  rows_of_removed k (db w) (db (PostAdmin_delete_model k w).2).
Proof.
  split; [done|]. split.
  - split; [apply lookup_delete_eq|].
    split; [|split]; intros i r [_ Hr]%map_lookup_filter_Some; exact Hr.
  - split; [|split]; intros i r Hi Hr;
      apply map_lookup_filter_None_2; right; intros r' Hi' Hne; simpl in Hne;
      apply map_lookup_filter_Some in Hi' as [Hi' _]; simpl in Hi'; congruence.
Qed.

(** The first like of a post by a user is stored: one more like of the
    post. *)
Lemma LikeList_create_new (request : Request LikeDict) p w U q :
  wf (db w) → user request = Authenticated U → method request = POST →
  ld_post (data request) = Some q → is_Some (posts (db w) !! q) →
  is_Some (posts (db w) !! p) → like_exists (db w) p (user_id U) = false →
  ∃ w', LikeList request p w = (Returned (HTTP_201 (like_seq (db w))), w') ∧
        likes (db w') = <[like_seq (db w) := Like.mk p (user_id U)]> (likes (db w)) ∧
        count_likes (db w') p = S (count_likes (db w) p).
Proof.
  destruct request as [m u f d]. simpl. intros Hwf -> -> Hq Hqs [P HP] Hnew.
  eexists. split; [|split].
  - unfold LikeList, dispatch_list.
    erewrite bind_returned by (by apply check_permissions_authenticated).
    cbn [method]. unfold LikeList_create.
    assert (LikeSerializer_is_valid false d w
            = (Returned {| ld_post := Some q; ld_user := None |}, w)) as Hvalid.
    { unfold LikeSerializer_is_valid, validate_post_pk, bind, get_db. rewrite Hq. simpl.
      apply post_exists_true in Hqs. by rewrite Hqs. }
    unfold bind at 1 2. cbn [data]. rewrite Hvalid.
    unfold LikeList_perform_create.
    erewrite bind_returned by (by apply get_or_404_found).
    unfold bind at 1. unfold get_db at 1. cbn [like_exists_for user]. rewrite Hnew.
    unfold LikeSerializer_create, Like_objects_create, user_fk, insert_like.
    unfold bind, get_db, ret, put_db. simpl. rewrite Hnew.
    assert (post_exists (db w) p = true) as -> by (apply post_exists_true; eauto).
    simpl. reflexivity.
  - done.
  - simpl. unfold count_likes. simpl.
    rewrite map_filter_insert_True by done.
    apply map_size_insert_None, map_lookup_filter_None_2. left.
    destruct Hwf as ((_ & _ & Hs3 & _) & _).
    destruct (likes (db w) !! like_seq (db w)) as [r|] eqn:E; [|done].
    apply Hs3 in E. lia.
Qed.

(** * Further properties of the views, the serializers and the admin site *)

(** ** Reading and anonymous requests *)

Lemma pure_dispatch_list_safe {B L} perms (request : Request B) (list : M L) (create : M pk) :
  is_safe (method request) = true → pure list →
  pure (dispatch_list perms request list create).
Proof.
  intros Hm Hl. unfold dispatch_list. apply pure_bind; [apply pure_check_permissions|].
  intros _. rewrite is_safe_eval in Hm.
  destruct (method request); try discriminate; solve_pure; done.
Qed.

Lemma pure_dispatch_detail_safe {B R} perms (request : Request B) (retrieve : M R)
    (update : bool → M R) (destroy : M unit) :
  is_safe (method request) = true → pure retrieve →
  pure (dispatch_detail perms request retrieve update destroy).
Proof.
  intros Hm Hl. unfold dispatch_detail. apply pure_bind; [apply pure_check_permissions|].
  intros _. rewrite is_safe_eval in Hm.
  destruct (method request); try discriminate; solve_pure; done.
Qed.

Lemma pure_retrieve_row {A B} `{Model A} (table : Store → gmap Z A) perms
    (request : Request B) k :
  pure (let* instance := get_object table perms request k in ret (k, instance)).
Proof. apply pure_bind; [apply pure_get_object | solve_pure]. Qed.

Lemma pure_get_queryset {A} (table : Store → gmap Z A) (f : Store → gmap Z A) post_id :
  pure (let* st := get_db in if negb (post_id =? 0) then ret (f st) else ret (table st)).
Proof. solve_pure. Qed.

(** X1: a request with a safe method (GET, HEAD, OPTIONS) to any route of
    the API leaves the world as it is: no row is written and the geocoding
    service is not called, whoever sends it and whatever it answers. *)
Theorem safe_requests_never_write geolocator (c : Call) (m : Method) (w : World) :
  call_method c = Some m → is_safe m = true → run geolocator c w = w.
Proof.
  intros Hc Hm. destruct c; simpl in Hc; try discriminate; injection Hc as <-; unfold run.
  - apply pure_dispatch_list_safe; [done|]. unfold PostList_list. solve_pure.
  - apply pure_dispatch_detail_safe; [done|]. unfold PostDetail_retrieve.
    apply pure_bind; [apply pure_get_object | intros ?; apply pure_PostSerializer_data].
  - apply pure_dispatch_list_safe; [done|]. unfold PostImageList_get_queryset. solve_pure.
  - apply pure_dispatch_detail_safe; [done|]. apply pure_retrieve_row.
  - apply pure_dispatch_list_safe; [done|]. apply pure_get_queryset.
  - apply pure_dispatch_detail_safe; [done|]. apply pure_retrieve_row.
  - apply pure_dispatch_list_safe; [done|]. apply pure_get_queryset.
  - apply pure_dispatch_detail_safe; [done|]. apply pure_retrieve_row.
Qed.

Lemma safe_requests_never_write_witness :
  run nominatim_up (api_post (request_of GET bob empty_post_body) 1) world_with_like
  = world_with_like.
Proof. apply (safe_requests_never_write nominatim_up _ GET); reflexivity. Defined.

Lemma check_permissions_anonymous {B} perms ps (request : Request B) w :
  user request = AnonymousUser → is_safe (method request) = false →
  perms = IsAuthenticated :: ps ∨ perms = IsAuthenticatedOrReadOnly :: ps →
  check_permissions perms request w = (Raised NotAuthenticated, w).
Proof.
  intros Hu Hm [-> | ->]; simpl; unfold permission_denied; rewrite Hu, ?Hm; done.
Qed.

Ltac anonymous_refused Hu Hm :=
  erewrite bind_raised;
    [done | eapply check_permissions_anonymous; [exact Hu | exact Hm | eauto]].

(** X2: an anonymous request with a method that is not safe, to any route
    of the API, raises [NotAuthenticated] and leaves the world as it is. *)
Theorem anonymous_cannot_mutate geolocator (c : Call) (m : Method) (w : World) :
  call_user c = Some AnonymousUser → call_method c = Some m → is_safe m = false →
  run_error geolocator c w = Some NotAuthenticated ∧ run geolocator c w = w.
Proof.
  intros Hu Hc Hm.
  destruct c; simpl in Hu, Hc; try discriminate;
    injection Hu as Hu; injection Hc as <-; unfold run_error, run;
    unfold PostList, PostDetail, PostImageList, PostImageDetail, LikeList, LikeDetail,
      CommentList, CommentDetail, dispatch_list, dispatch_detail;
    anonymous_refused Hu Hm.
Qed.

Lemma anonymous_cannot_mutate_witness :
  run_error nominatim_up
    (api_post {| method := DELETE; user := AnonymousUser; FILES_images := [];
                 data := empty_post_body |} 1) world_with_like
  = Some NotAuthenticated.
Proof.
  apply (anonymous_cannot_mutate nominatim_up _ DELETE); reflexivity.
Defined.

Lemma check_permissions_read_only {B} (request : Request B) w :
  is_safe (method request) = true →
  check_permissions [IsAuthenticatedOrReadOnly] request w = (Returned (), w).
Proof. intros Hm. simpl. by rewrite Hm. Qed.

(** X3: reading is public, except for the likes.  A GET of a stored post,
    image or comment by its primary key answers 200 with the row, and a GET
    of the list of posts, of the images or of the comments of a post answers
    200 with the rows, for every user, anonymous included; the post comes
    with the number of its likes and its serialized location.  A GET of a
    like or of a list of likes raises [NotAuthenticated] for an anonymous
    user and answers 200 for an authenticated one. *)
Theorem reading_is_public_except_likes geolocator (w : World) :
  (∀ (request : Request PostDict) k P,
     method request = GET → posts (db w) !! k = Some P →
     PostDetail geolocator request k w
     = (Returned (HTTP_200
          {| r_id := k; r_author := Post.author P;
             r_comments := filter (λ kv, Comment.post kv.2 = k) (comments (db w));
             r_text := Post.text P; r_likes_count := count_likes (db w) k;
             r_images := filter (λ kv, PostImage.post kv.2 = k) (images (db w));
             r_location := get_location P |}), w)) ∧
  (∀ (request : Request ImageDict) k I,
     method request = GET → images (db w) !! k = Some I →
     PostImageDetail request k w = (Returned (HTTP_200 (k, I)), w)) ∧
  (∀ (request : Request CommentDict) k C,
     method request = GET → comments (db w) !! k = Some C →
     CommentDetail request k w = (Returned (HTTP_200 (k, C)), w)) ∧
  (∀ (request : Request PostDict),
     method request = GET →
     PostList geolocator request w = (Returned (HTTP_200 (posts (db w))), w)) ∧
  (∀ (request : Request ImageDict) post_id,
     method request = GET →
     PostImageList request post_id w
     = (Returned (HTTP_200 (filter (λ kv, PostImage.post kv.2 = post_id) (images (db w)))),
        w)) ∧
  (∀ (request : Request CommentDict) post_id,
     method request = GET → post_id ≠ 0 →
     CommentList request post_id w
     = (Returned (HTTP_200 (filter (λ kv, Comment.post kv.2 = post_id) (comments (db w)))),
        w)) ∧
  (∀ (request : Request LikeDict) k,
     method request = GET → user request = AnonymousUser →
     LikeDetail request k w = (Raised NotAuthenticated, w) ∧
     LikeList request k w = (Raised NotAuthenticated, w)) ∧
  (∀ (request : Request LikeDict) k L,
     method request = GET → is_authenticated (user request) = true →
     likes (db w) !! k = Some L →
     LikeDetail request k w = (Returned (HTTP_200 (k, L)), w)) ∧
  (∀ (request : Request LikeDict) post_id,
     method request = GET → is_authenticated (user request) = true → post_id ≠ 0 →
     LikeList request post_id w
     = (Returned (HTTP_200 (filter (λ kv, Like.post kv.2 = post_id) (likes (db w)))), w)).
Proof.
  repeat split.
  - intros [m u f d] k P Hm Hk. simpl in Hm. subst m.
    unfold PostDetail, dispatch_detail.
    erewrite bind_returned by (by apply check_permissions_read).
    cbn [method]. unfold PostDetail_retrieve. unfold bind at 1.
    erewrite bind_returned by (by eapply get_object_author_allowed). done.
  - intros [m u f d] k I Hm Hk. simpl in Hm. subst m.
    unfold PostImageDetail, dispatch_detail.
    erewrite bind_returned by (by apply check_permissions_read).
    cbn [method]. unfold PostImageDetail_retrieve. unfold bind at 1.
    erewrite bind_returned by (by eapply get_object_author_allowed). done.
  - intros [m u f d] k C Hm Hk. simpl in Hm. subst m.
    unfold CommentDetail, dispatch_detail.
    erewrite bind_returned by (by apply check_permissions_read).
    cbn [method]. unfold CommentDetail_retrieve. unfold bind at 1.
    erewrite bind_returned by (by eapply get_object_author_allowed). done.
  - intros [m u f d] Hm. simpl in Hm. subst m.
    unfold PostList, dispatch_list.
    erewrite bind_returned by (by apply check_permissions_read_only). done.
  - intros [m u f d] post_id Hm. simpl in Hm. subst m.
    unfold PostImageList, dispatch_list.
    erewrite bind_returned by (by apply check_permissions_read_only). done.
  - intros [m u f d] post_id Hm Hp. simpl in Hm. subst m.
    unfold CommentList, dispatch_list.
    erewrite bind_returned by (by apply check_permissions_read_only).
    cbn [method]. unfold CommentList_get_queryset, bind, get_db. simpl.
    destruct (Z.eqb_spec post_id 0); done.
  - destruct request as [m u f d]. simpl in *. subst. done.
  - destruct request as [m u f d]. simpl in *. subst. done.
  - intros [m u f d] k L Hm Hu Hk. simpl in Hm, Hu. subst m.
    unfold LikeDetail, dispatch_detail.
    erewrite bind_returned by (by apply check_permissions_authenticated).
    cbn [method]. unfold LikeDetail_retrieve. unfold bind at 1.
    erewrite bind_returned by (by apply get_object_like_found). done.
  - intros [m u f d] post_id Hm Hu Hp. simpl in Hm, Hu. subst m.
    unfold LikeList, dispatch_list.
    erewrite bind_returned by (by apply check_permissions_authenticated).
    cbn [method]. unfold LikeList_get_queryset, bind, get_db. simpl.
    destruct (Z.eqb_spec post_id 0); done.
Qed.

Lemma reading_is_public_except_likes_witness :
  CommentList {| method := GET; user := AnonymousUser; FILES_images := [];
                 data := comment_body None None |} 1 world_with_like
  = (Returned (HTTP_200 (filter (λ kv, Comment.post kv.2 = 1) (comments (db world_with_like)))),
     world_with_like) ∧
  LikeList {| method := GET; user := AnonymousUser; FILES_images := [];
              data := like_body None |} 1 world_with_like
  = (Raised NotAuthenticated, world_with_like).
Proof.
  split.
  - apply (proj1 (proj2 (proj2 (proj2 (proj2 (proj2
             (reading_is_public_except_likes nominatim_up world_with_like)))))));
      [reflexivity | lia].
  - apply (proj1 (proj2 (proj2 (proj2 (proj2 (proj2 (proj2
             (reading_is_public_except_likes nominatim_up world_with_like))))))));
      reflexivity.
Defined.

(** ** Images cannot be changed through the API *)

(** X4: the route of a single image is read-only in effect.  An image has
    neither an [author] nor a [user] attribute, so the object permission
    refuses every update and every deletion, also to the author of the post
    and to a superuser: whatever the request, the world stays as it was,
    and a request whose method is not safe raises an exception. *)
Theorem image_detail_never_writes (request : Request ImageDict) (k : pk) (w : World) :
  (PostImageDetail request k w).2 = w ∧
  (is_safe (method request) = false → ∃ e, (PostImageDetail request k w).1 = Raised e).
Proof.
  destruct request as [m u f d]. cbn [method].
  destruct (is_safe m) eqn:Hsafe.
  - split; [|done]. apply pure_dispatch_detail_safe; [done | apply pure_retrieve_row].
  - enough (∃ e, PostImageDetail
              {| method := m; user := u; FILES_images := f; data := d |} k w
            = (Raised e, w)) as [e ->] by eauto.
    destruct u as [|S].
    + unfold PostImageDetail, dispatch_detail.
      erewrite bind_raised
        by (eapply check_permissions_anonymous; [reflexivity | exact Hsafe | eauto]).
      eauto.
    + unfold PostImageDetail, dispatch_detail.
      erewrite bind_returned by (by apply check_permissions_authenticated).
      cbn [method].
      assert (∀ R (body : PostImage.t → M R),
        ∃ e, bind (get_object images PostImageDetail_permission_classes
                    {| method := m; user := Authenticated S; FILES_images := f; data := d |}
                    k) body w = (Raised e, w)) as Hget.
      { intros R body. destruct (images (db w) !! k) as [I|] eqn:Hk.
        - exists PermissionDenied. apply bind_raised.
          eapply get_object_author_denied; [exact Hk | done |].
          by rewrite has_object_permission_unsafe. 
        - exists Http404. apply bind_raised. by apply get_object_missing. }
      rewrite is_safe_eval in Hsafe.
      destruct m; try discriminate; cbn [fst snd].
      * eauto.
      * unfold PostImageDetail_update.
        destruct (Hget _ (λ instance,
          let* validated_data := PostImageSerializer_is_valid false d in
          AuthorCheckMixin_perform_update
            {| method := PUT; user := Authenticated S; FILES_images := f; data := d |}
            instance (PostImageSerializer_update k instance validated_data))) as [e He].
        unfold bind at 1. cbn [data]. rewrite He. eauto.
      * unfold PostImageDetail_update.
        destruct (Hget _ (λ instance,
          let* validated_data := PostImageSerializer_is_valid true d in
          AuthorCheckMixin_perform_update
            {| method := PATCH; user := Authenticated S; FILES_images := f; data := d |}
            instance (PostImageSerializer_update k instance validated_data))) as [e He].
        unfold bind at 1. cbn [data]. rewrite He. eauto.
      * unfold PostImageDetail_destroy.
        destruct (Hget _ (λ instance,
          AuthorCheckMixin_perform_destroy
            {| method := DELETE; user := Authenticated S; FILES_images := f; data := d |}
            instance (delete_image k))) as [e He].
        unfold bind at 1. rewrite He. eauto.
Qed.

Lemma image_detail_never_writes_witness :
  ∃ e, (PostImageDetail (request_of DELETE alice (image_body None)) 1 world_with_like).1
       = Raised e.
Proof.
  apply (proj2 (image_detail_never_writes (request_of DELETE alice (image_body None)) 1
                  world_with_like)).
  reflexivity.
Defined.

(** ** Comments and likes are created under the post of the URL *)

(** X5: a comment is created under the post of the URL and with the user of
    the request as its author.  The entry [post] of the body has to name a
    stored post to pass the serializer, and is then ignored, as is any
    [author] in the body.  When the post of the URL is not stored,
    [Http404] is raised and nothing is written. *)
Theorem comment_created_under_url_post (request : Request CommentDict) post_id w U q text :
  user request = Authenticated U → method request = POST →
  cd_post (data request) = Some q → is_Some (posts (db w) !! q) →
  cd_text (data request) = Some text → text ≠ "" →
  (is_Some (posts (db w) !! post_id) →
   CommentList request post_id w
   = (Returned (HTTP_201 (comment_seq (db w))),
      {| db := with_comments (db w)
                 (<[comment_seq (db w) := Comment.mk post_id (user_id U) text]>
                    (comments (db w)))
                 (comment_seq (db w) + 1);
         geo_log := geo_log w |})) ∧
  (posts (db w) !! post_id = None → CommentList request post_id w = (Raised Http404, w)).
Proof.
  intros Hu Hm Hq Hqs Ht Hne. split.
  - destruct request as [m u f d]. simpl in *. subst m u. intros [P HP].
    assert (CommentSerializer_is_valid false d w
            = (Returned {| cd_post := Some q; cd_author := None; cd_text := Some text |}, w))
      as Hvalid.
    { unfold CommentSerializer_is_valid, validate_post_pk, validate_text, bind, get_db.
      rewrite Hq, Ht. simpl. apply post_exists_true in Hqs. rewrite Hqs.
      apply truthy_str_spec in Hne. by rewrite Hne. }
    unfold CommentList, dispatch_list.
    erewrite bind_returned by (by apply check_permissions_authenticated).
    cbn [method]. unfold CommentList_create.
    unfold bind at 1 2. cbn [data]. rewrite Hvalid.
    unfold CommentList_perform_create.
    erewrite bind_returned by (by apply get_or_404_found).
    unfold CommentSerializer_create, Comment_objects_create, user_fk, insert_comment.
    unfold bind, get_db, ret, put_db. simpl.
    assert (post_exists (db w) post_id = true) as -> by (apply post_exists_true; eauto).
    reflexivity.
  - intros Hk. apply (comment_on_missing_post _ _ _ q text); try done. by rewrite Hu.
Qed.

Lemma comment_created_under_url_post_witness :
  (CommentList (request_of POST bob (comment_body (Some 1) (Some "nice"))) 1
     world_with_like).1
  = Returned (HTTP_201 1).
Proof.
  destruct (comment_created_under_url_post
              (request_of POST bob (comment_body (Some 1) (Some "nice"))) 1
              world_with_like bob 1 "nice") as [H _];
    [reflexivity | reflexivity | reflexivity | vm_compute; eauto | reflexivity | done |].
  rewrite H; [reflexivity | vm_compute; eauto].
Defined.

(** The world after the first like of a post by a user. *)
Lemma LikeList_create_eq (request : Request LikeDict) p w U q :
  user request = Authenticated U → method request = POST →
  ld_post (data request) = Some q → is_Some (posts (db w) !! q) →
  is_Some (posts (db w) !! p) → like_exists (db w) p (user_id U) = false →
  LikeList request p w
  = (Returned (HTTP_201 (like_seq (db w))),
     {| db := with_likes (db w)
                (<[like_seq (db w) := Like.mk p (user_id U)]> (likes (db w)))
                (like_seq (db w) + 1);
        geo_log := geo_log w |}).
Proof.
  destruct request as [m u f d]. simpl. intros -> -> Hq Hqs [P HP] Hnew.
  unfold LikeList, dispatch_list.
  erewrite bind_returned by (by apply check_permissions_authenticated).
  cbn [method]. unfold LikeList_create.
  assert (LikeSerializer_is_valid false d w
          = (Returned {| ld_post := Some q; ld_user := None |}, w)) as Hvalid.
  { unfold LikeSerializer_is_valid, validate_post_pk, bind, get_db. rewrite Hq. simpl.
    apply post_exists_true in Hqs. by rewrite Hqs. }
  unfold bind at 1 2. cbn [data]. rewrite Hvalid.
  unfold LikeList_perform_create.
  erewrite bind_returned by (by apply get_or_404_found).
  unfold bind at 1. unfold get_db at 1. cbn [like_exists_for user]. rewrite Hnew.
  unfold LikeSerializer_create, Like_objects_create, user_fk, insert_like.
  unfold bind, get_db, ret, put_db. simpl. rewrite Hnew.
  assert (post_exists (db w) p = true) as -> by (apply post_exists_true; eauto).
  reflexivity.
Qed.

(** X6: like, then unlike.  The first like of a stored post by a user is
    stored under the post of the URL with the user of the request (the
    entry [post] of the body only has to name a stored post); when the same
    user then deletes that like, the answer is 204 and the database is the
    one before the like, but for the sequence of the likes, which has moved
    on by one: the primary key is not given out again. *)
Theorem like_then_unlike_restores (request unlike : Request LikeDict) p w U q :
  wf (db w) → user request = Authenticated U → method request = POST →
  ld_post (data request) = Some q → is_Some (posts (db w) !! q) →
  is_Some (posts (db w) !! p) → like_exists (db w) p (user_id U) = false →
  user unlike = Authenticated U → method unlike = DELETE →
  ∃ w1, LikeList request p w = (Returned (HTTP_201 (like_seq (db w))), w1) ∧
        likes (db w1) !! like_seq (db w) = Some (Like.mk p (user_id U)) ∧
        LikeDetail unlike (like_seq (db w)) w1
        = (Returned HTTP_204,
           {| db := with_likes (db w) (likes (db w)) (like_seq (db w) + 1);
              geo_log := geo_log w |}).
Proof.
  intros Hwf Hu Hm Hq Hqs Hp Hnew Hu' Hm'.
  eexists. split; [by eapply LikeList_create_eq|].
  split; [simpl; apply lookup_insert_eq|].
  erewrite LikeDetail_delete_eq; [| simpl; apply lookup_insert_eq | exact Hu' | exact Hm'].
  rewrite bool_decide_pk_eq by done. simpl. f_equal.
  unfold with_likes. simpl. f_equal. f_equal.
  apply delete_insert_id.
  destruct Hwf as ((_ & _ & Hs3 & _) & _).
  destruct (likes (db w) !! like_seq (db w)) as [r|] eqn:E; [|done].
  apply Hs3 in E. lia.
Qed.

Lemma like_then_unlike_restores_witness :
  ∃ w1, LikeList (request_of POST alice (like_body (Some 1))) 1 world_with_like
        = (Returned (HTTP_201 2), w1) ∧
        likes (db w1) !! 2 = Some (Like.mk 1 1) ∧
        LikeDetail (request_of DELETE alice (like_body None)) 2 w1
        = (Returned HTTP_204,
           {| db := with_likes (db world_with_like) (likes (db world_with_like)) 3;
              geo_log := geo_log world_with_like |}).
Proof.
  apply (like_then_unlike_restores (request_of POST alice (like_body (Some 1)))
           (request_of DELETE alice (like_body None)) 1 world_with_like alice 1).
  - apply (reachable_wf nominatim_up). apply world_with_like_reachable.
  - reflexivity.
  - reflexivity.
  - reflexivity.
  - vm_compute; eauto.
  - vm_compute; eauto.
  - vm_compute; reflexivity.
  - reflexivity.
  - reflexivity.
Defined.

(** ** What the deletion of a post leaves in place *)

Lemma Post_delete_rows_of_others_kept k w :
  rows_of_others_kept k (db w) (db (Post_delete k w).2).
Proof.
  rewrite Post_delete_eq. simpl. split; [|split; [|split]].
  - intros j Hj. by apply lookup_delete_ne.
  - intros i r Hi Hr. by apply map_lookup_filter_Some.
  - intros i r Hi Hr. by apply map_lookup_filter_Some.
  - intros i r Hi Hr. by apply map_lookup_filter_Some.
Qed.

(** X7: the deletion of a post by its author touches the post and its own
    rows only.  Every other post, and every image, like and comment of
    another post, is stored afterwards as it was; the sequences of the four
    tables and the log of the geocoding calls are as before. *)
Theorem post_delete_keeps_other_rows geolocator (request : Request PostDict) k w P S :
  posts (db w) !! k = Some P → user request = Authenticated S →
  user_id S = Post.author P → method request = DELETE →
  let w' := (PostDetail geolocator request k w).2 in
  rows_of_others_kept k (db w) (db w') ∧
  (post_seq (db w') = post_seq (db w) ∧ image_seq (db w') = image_seq (db w) ∧
   like_seq (db w') = like_seq (db w) ∧ comment_seq (db w') = comment_seq (db w)) ∧
  geo_log w' = geo_log w.
Proof.
  intros Hk Hu HS Hm. simpl.
  rewrite (PostDetail_delete_by_author geolocator request k w P S Hk Hu HS Hm).
  split; [apply Post_delete_rows_of_others_kept | done].
Qed.

Lemma post_delete_keeps_other_rows_witness :
  rows_of_others_kept 1 (db world_with_like)
    (db (PostDetail nominatim_up (request_of DELETE alice empty_post_body) 1
           world_with_like).2).
Proof.
  apply (post_delete_keeps_other_rows nominatim_up
           (request_of DELETE alice empty_post_body) 1 world_with_like
           (Post.mk 1 "hello" None None None) alice); reflexivity.
Defined.

(** ** The deletions of the admin site *)

Lemma filter_filter_same {A} (P : Z * A → Prop) `{!∀ x, Decision (P x)} (m : gmap Z A) :
  filter P (filter P m) = filter P m.
Proof. apply map_filter_id. by intros i x [_ Hx]%map_lookup_filter_Some. Qed.

Lemma PostAdmin_delete_model_eq k w : PostAdmin_delete_model k w = Post_delete k w.
Proof.
  rewrite Post_delete_eq. unfold PostAdmin_delete_model.
  unfold bind at 1. unfold delete_images_of at 1. unfold bind at 1, get_db at 1, put_db at 1.
  unfold bind at 1. unfold delete_likes_of at 1. unfold bind at 1, get_db at 1, put_db at 1.
  unfold bind at 1. unfold delete_comments_of at 1. unfold bind at 1, get_db at 1, put_db at 1.
  rewrite Post_delete_eq. simpl. by rewrite !filter_filter_same.
Qed.

Lemma no_rows_of_Post_delete j k w :
  no_rows_of j (db w) → no_rows_of j (db (Post_delete k w).2).
Proof.
  rewrite Post_delete_eq. simpl. intros (Hp & Hi & Hl & Hc). split; [|split; [|split]].
  - apply lookup_delete_None. by right.
  - intros i r [Hr _]%map_lookup_filter_Some. eauto.
  - intros i r [Hr _]%map_lookup_filter_Some. eauto.
  - intros i r [Hr _]%map_lookup_filter_Some. eauto.
Qed.

Lemma for_each_Post_delete (queryset : list pk) w :
  (for_each queryset Post_delete w).1 = Returned () ∧
  (∀ k, k ∈ queryset → no_rows_of k (db (for_each queryset Post_delete w).2)) ∧
  rows_outside_kept queryset (db w) (db (for_each queryset Post_delete w).2) ∧
  (∀ j, no_rows_of j (db w) → no_rows_of j (db (for_each queryset Post_delete w).2)).
Proof.
  revert w. induction queryset as [|k q IH]; intros w.
  - simpl. split; [done|]. split; [by intros k ?%elem_of_nil|]. done.
  - cbn [for_each]. rewrite (bind_returned _ _ _ _ _ (Post_delete_eq k w)).
    set (w1 := {| db := _; geo_log := geo_log w |}).
    destruct (IH w1) as (Hret & Hgone & Hkept & Hstable).
    pose proof (Post_delete_no_rows k w) as Hk.
    pose proof (Post_delete_rows_of_others_kept k w) as (Ho1 & Ho2 & Ho3 & Ho4).
    rewrite Post_delete_eq in Hk, Ho1, Ho2, Ho3, Ho4. fold w1 in Hk, Ho1, Ho2, Ho3, Ho4.
    cbn [snd] in Hk, Ho1, Ho2, Ho3, Ho4.
    split; [exact Hret|]. split; [|split].
    + intros j [-> | Hj]%elem_of_cons; [by apply Hstable | by apply Hgone].
    + destruct Hkept as (H1 & H2 & H3 & H4). split; [|split; [|split]].
      * intros j Hj. apply not_elem_of_cons in Hj as [Hjk Hj]. rewrite H1 by done. by apply Ho1.
      * intros i r Hi Hr. apply not_elem_of_cons in Hr as [Hrk Hr]. apply H2; [|done]. by apply Ho2.
      * intros i r Hi Hr. apply not_elem_of_cons in Hr as [Hrk Hr]. apply H3; [|done]. by apply Ho3.
      * intros i r Hi Hr. apply not_elem_of_cons in Hr as [Hrk Hr]. apply H4; [|done]. by apply Ho4.
    + intros j Hj. apply Hstable.
      pose proof (no_rows_of_Post_delete j k w Hj) as Hj'. by rewrite Post_delete_eq in Hj'.
Qed.

(** X8: the deletions of posts in the admin site.  [PostAdmin.delete_model]
    deletes the images, likes and comments of the post by hand before
    [obj.delete()], and ends in the very world [post.delete()] alone ends
    in.  [delete_selected_posts] does the same for every post of the
    queryset: afterwards no selected post and no row of a selected post is
    stored, while every other post and every row of another post is stored
    as it was. *)
Theorem admin_post_deletions (w : World) :
  (∀ k, PostAdmin_delete_model k w = Post_delete k w) ∧
  (∀ queryset,
     (PostAdmin_delete_selected_posts queryset w).1 = Returned () ∧
     (∀ k, k ∈ queryset →
           no_rows_of k (db (PostAdmin_delete_selected_posts queryset w).2)) ∧
     rows_outside_kept queryset (db w) (db (PostAdmin_delete_selected_posts queryset w).2)).
Proof.
  split; [intros k; apply PostAdmin_delete_model_eq|].
  intros queryset.
  assert (PostAdmin_delete_selected_posts queryset w = for_each queryset Post_delete w) as ->.
  { unfold PostAdmin_delete_selected_posts. revert w.
    induction queryset as [|k q IH]; intros w; [done|].
    cbn [for_each].
    pose proof (PostAdmin_delete_model_eq k w) as Hk. unfold PostAdmin_delete_model in Hk.
    rewrite Post_delete_eq in Hk.
    rewrite (bind_returned _ _ _ _ _ Hk), (bind_returned _ _ _ _ _ (Post_delete_eq k w)).
    apply IH. }
  destruct (for_each_Post_delete queryset w) as (H1 & H2 & H3 & _). done.
Qed.

Lemma admin_post_deletions_witness :
  no_rows_of 1 (db (PostAdmin_delete_selected_posts [1] world_with_like).2).
Proof.
  apply (proj1 (proj2 (proj2 (admin_post_deletions world_with_like) [1]))).
  set_solver.
Defined.

(** The rows a [queryset.delete()] over primary keys leaves. *)
Lemma for_each_delete {A} (table : Store → gmap Z A) (delete_row : pk → M unit)
    (queryset : list pk) :
  (∀ k w, (delete_row k w).1 = Returned () ∧
          ∀ i, table (db (delete_row k w).2) !! i
               = if bool_decide (i = k) then None else table (db w) !! i) →
  ∀ w, (for_each queryset delete_row w).1 = Returned () ∧
       ∀ i, table (db (for_each queryset delete_row w).2) !! i
            = if bool_decide (i ∈ queryset) then None else table (db w) !! i.
Proof.
  intros Hrow. induction queryset as [|k q IH]; intros w.
  - split; [done|]. intros i. by rewrite bool_decide_eq_false_2 by apply not_elem_of_nil.
  - cbn [for_each]. destruct (Hrow k w) as [Hret Hk]. unfold bind.
    destruct (delete_row k w) as [[[]|e] w1]; [|done]. simpl in Hk.
    destruct (IH w1) as [Hret' Hq]. split; [done|]. intros i. rewrite Hq, Hk.
    clear IH Hrow Hret Hret' Hq Hk.
    repeat case_bool_decide; try done; exfalso; rewrite ?elem_of_cons in *; tauto.
Qed.

Lemma queryset_count_none {A} (table : gmap Z A) (queryset : list pk) :
  (∀ k, k ∈ queryset → table !! k = None) → queryset_count table queryset = 0%nat.
Proof.
  intros Hq. unfold queryset_count.
  assert (∀ l : list pk, (∀ k, k ∈ l → table !! k = None) →
          filter (λ k, is_Some (table !! k)) l = []) as Hnil.
  { induction l as [|k l IH]; intros Hl; [done|].
    rewrite filter_cons_False.
    - apply IH. intros i Hi. apply Hl. apply elem_of_cons. by right.
    - rewrite Hl by (apply elem_of_cons; by left). by intros [? ?]. }
  rewrite Hnil; [done|]. intros k Hk. apply Hq. by rewrite elem_of_remove_dups in Hk.
Qed.

(** X9: the actions [delete_selected_images], [delete_selected_likes] and
    [delete_selected_comments] of the admin site delete the rows of the
    queryset and no other row of the table.  Their message counts the
    queryset after the deletion, when none of its rows is stored any more:
    the number in the message is always zero, however many rows were
    deleted. *)
Theorem admin_selected_rows_deleted (queryset : list pk) (w : World) :
  (∀ i, images (db (PostImageAdmin_delete_selected_images queryset w).2) !! i
        = if bool_decide (i ∈ queryset) then None else images (db w) !! i) ∧
  (∀ i, likes (db (LikeAdmin_delete_selected_likes queryset w).2) !! i
        = if bool_decide (i ∈ queryset) then None else likes (db w) !! i) ∧
  (∀ i, comments (db (CommentAdmin_delete_selected_comments queryset w).2) !! i
        = if bool_decide (i ∈ queryset) then None else comments (db w) !! i) ∧
  (PostImageAdmin_delete_selected_images_message queryset w).1 = Returned 0%nat ∧
  (LikeAdmin_delete_selected_likes_message queryset w).1 = Returned 0%nat ∧
  (CommentAdmin_delete_selected_comments_message queryset w).1 = Returned 0%nat.
Proof.
  assert (∀ k w0, (delete_image k w0).1 = Returned () ∧
            ∀ i, images (db (delete_image k w0).2) !! i
                 = if bool_decide (i = k) then None else images (db w0) !! i) as Hi.
  { intros k w0. split; [done|]. intros i. simpl. destruct (decide (i = k)) as [-> | Hne].
    - by rewrite bool_decide_eq_true_2, lookup_delete_eq.
    - by rewrite bool_decide_eq_false_2, lookup_delete_ne. }
  assert (∀ k w0, (delete_like k w0).1 = Returned () ∧
            ∀ i, likes (db (delete_like k w0).2) !! i
                 = if bool_decide (i = k) then None else likes (db w0) !! i) as Hl.
  { intros k w0. split; [done|]. intros i. simpl. destruct (decide (i = k)) as [-> | Hne].
    - by rewrite bool_decide_eq_true_2, lookup_delete_eq.
    - by rewrite bool_decide_eq_false_2, lookup_delete_ne. }
  assert (∀ k w0, (delete_comment k w0).1 = Returned () ∧
            ∀ i, comments (db (delete_comment k w0).2) !! i
                 = if bool_decide (i = k) then None else comments (db w0) !! i) as Hc.
  { intros k w0. split; [done|]. intros i. simpl. destruct (decide (i = k)) as [-> | Hne].
    - by rewrite bool_decide_eq_true_2, lookup_delete_eq.
    - by rewrite bool_decide_eq_false_2, lookup_delete_ne. }
  destruct (for_each_delete images delete_image queryset Hi w) as [Hri Hqi].
  destruct (for_each_delete likes delete_like queryset Hl w) as [Hrl Hql].
  destruct (for_each_delete comments delete_comment queryset Hc w) as [Hrc Hqc].
  split; [exact Hqi|]. split; [exact Hql|]. split; [exact Hqc|].
  unfold PostImageAdmin_delete_selected_images_message,
    LikeAdmin_delete_selected_likes_message, CommentAdmin_delete_selected_comments_message,
    PostImageAdmin_delete_selected_images, LikeAdmin_delete_selected_likes,
    CommentAdmin_delete_selected_comments, bind, get_db, ret.
  split; [|split].
  - destruct (for_each queryset delete_image w) as [[[]|e] w1]; [|done]. simpl in *.
    f_equal. apply queryset_count_none. intros k Hk. by rewrite Hqi, bool_decide_eq_true_2.
  - destruct (for_each queryset delete_like w) as [[[]|e] w1]; [|done]. simpl in *.
    f_equal. apply queryset_count_none. intros k Hk. by rewrite Hql, bool_decide_eq_true_2.
  - destruct (for_each queryset delete_comment w) as [[[]|e] w1]; [|done]. simpl in *.
    f_equal. apply queryset_count_none. intros k Hk. by rewrite Hqc, bool_decide_eq_true_2.
Qed.

(** ** The list of posts of the admin site *)

(** X10: the list of posts of the admin site shows a user the posts the
    user may change and delete, and no other.  For a logged-in user, a
    stored post is in [PostAdmin.get_queryset] if and only if
    [has_change_permission] allows it, [has_delete_permission] decides as
    [has_change_permission], and a superuser is shown every post. *)
Theorem admin_queryset_matches_permissions (U : User) (w : World) :
  ∃ qs, PostAdmin_get_queryset (Authenticated U) w = (Returned qs, w) ∧
        (∀ k P, posts (db w) !! k = Some P →
                (qs !! k = Some P
                 ↔ PostAdmin_has_change_permission (Authenticated U) (Some P) = true) ∧
                (qs !! k = None
                 ↔ PostAdmin_has_change_permission (Authenticated U) (Some P) = false) ∧
                PostAdmin_has_delete_permission (Authenticated U) (Some P)
                = PostAdmin_has_change_permission (Authenticated U) (Some P)) ∧
        (∀ k, posts (db w) !! k = None → qs !! k = None) ∧
        (is_superuser U = true → qs = posts (db w)).
Proof.
  unfold PostAdmin_get_queryset, bind, get_db, ret. cbn [user_is_superuser].
  destruct (is_superuser U) eqn:Hsu; eexists; (split; [reflexivity|]).
  - split; [|done]. intros k P Hk. simpl. rewrite Hsu. simpl.
    rewrite Hk. split; [done|]. split; [|done]. split; congruence.
  - split; [|split; [|done]].
    + intros k P Hk. simpl. rewrite Hsu. simpl. split; [|split; [|done]].
      * rewrite map_lookup_filter_Some. simpl. tauto.
      * rewrite map_lookup_filter_None. simpl. split.
        -- intros [Hn | Hn]; [congruence|]. specialize (Hn _ Hk).
           by apply not_true_is_false.
        -- intros Hf. right. intros P' HP'. rewrite Hk in HP'. injection HP' as <-.
           by rewrite Hf.
    + intros k Hk. apply map_lookup_filter_None. by left.
Qed.

Lemma admin_queryset_matches_permissions_witness :
  ∃ qs, PostAdmin_get_queryset (Authenticated bob) world_with_like
        = (Returned qs, world_with_like) ∧
        qs !! 1 = None ∧
        PostAdmin_has_change_permission (Authenticated bob)
          (Some (Post.mk 1 "hello" None None None)) = false.
Proof.
  destruct (admin_queryset_matches_permissions bob world_with_like)
    as (qs & Hq & Hrows & _).
  exists qs. split; [exact Hq|].
  destruct (Hrows 1 (Post.mk 1 "hello" None None None)) as (_ & H2 & _); [reflexivity|].
  split; [apply H2; reflexivity | reflexivity].
Defined.

(** ** The previews of the admin site *)

Lemma py_len_append s1 s2 :
  py_len (String.append s1 s2) = (py_len s1 + py_len s2)%nat.
Proof.
  induction s1 as [|c s1 IH]; [done|].
  change (py_len (String c (String.append s1 s2)) = (py_len (String c s1) + py_len s2)%nat).
  cbn [py_len]. destruct (is_continuation c); rewrite IH; done.
Qed.

Lemma String_append_empty s : String.append s "" = s.
Proof.
  induction s as [|c s IH]; [done|].
  change (String c (String.append s "") = String c s). by f_equal.
Qed.

Lemma py_len_take n s : py_len (py_take n s) = (n `min` py_len s)%nat.
Proof.
  revert n. induction s as [|c s IH]; intros n; cbn [py_take py_len].
  - by destruct n.
  - destruct (is_continuation c) eqn:Hc.
    + cbn [py_len]. rewrite Hc. apply IH.
    + destruct n as [|n]; [done|]. cbn [py_len]. rewrite Hc, IH. done.
Qed.

Lemma py_take_all n s : (py_len s ≤ n)%nat → py_take n s = s.
Proof.
  revert n. induction s as [|c s IH]; intros n Hn; cbn [py_take py_len] in *; [done|].
  destruct (is_continuation c).
  - f_equal. by apply IH.
  - destruct n as [|n]; [lia|]. f_equal. apply IH. lia.
Qed.

Lemma preview_spec n text :
  (py_len (preview n text) ≤ n + 3)%nat ∧
  ((py_len text ≤ n)%nat → preview n text = text) ∧
  ((n < py_len text)%nat →
   preview n text = String.append (py_take n text) "..." ∧
   py_len (preview n text) = (n + 3)%nat).
Proof.
  unfold preview. destruct (Nat.ltb_spec n (py_len text)) as [Hlt | Hle].
  - rewrite py_len_append, py_len_take.
    change (py_len "...") with 3%nat. split; [lia|].
    split; [lia|]. intros _. split; [done | lia].
  - rewrite String_append_empty, py_len_take. split; [lia|].
    split; [intros _; by apply py_take_all | lia].
Qed.

(** X11: the column [text_preview] of the posts and of the comments in the
    admin site is never longer than 103 characters; it is the text itself
    when the text has at most 100 characters, and otherwise the first 100
    characters of the text followed by three dots.  Characters are counted
    as Python counts them, not bytes: a text of 60 Cyrillic letters is
    shown whole. *)
Theorem admin_text_preview (post : Post.t) (comment : Comment.t) :
  ((py_len (PostAdmin_text_preview post) ≤ 103)%nat ∧
   ((py_len (Post.text post) ≤ 100)%nat →
    PostAdmin_text_preview post = Post.text post) ∧
   ((100 < py_len (Post.text post))%nat →
    PostAdmin_text_preview post
    = String.append (py_take 100 (Post.text post)) "..." ∧
    py_len (PostAdmin_text_preview post) = 103%nat)) ∧
  ((py_len (CommentAdmin_text_preview comment) ≤ 103)%nat ∧
   ((py_len (Comment.text comment) ≤ 100)%nat →
    CommentAdmin_text_preview comment = Comment.text comment) ∧
   ((100 < py_len (Comment.text comment))%nat →
    CommentAdmin_text_preview comment
    = String.append (py_take 100 (Comment.text comment)) "..." ∧
    py_len (CommentAdmin_text_preview comment) = 103%nat)).
Proof.
  split; [apply (preview_spec 100 (Post.text post))
         | apply (preview_spec 100 (Comment.text comment))].
Qed.

Lemma admin_text_preview_witness :
  py_len "Привет, мир" = 11%nat ∧ String.length "Привет, мир" = 20%nat ∧
  PostAdmin_text_preview (Post.mk 1 "Привет, мир" None None None) = "Привет, мир".
Proof.
  split; [reflexivity|]. split; [reflexivity|].
  apply (proj1 (proj2 (proj1 (admin_text_preview (Post.mk 1 "Привет, мир" None None None)
                                (Comment.mk 1 1 "nice"))))).
  vm_compute. lia.
Defined.

(** ** Owners never change *)

Lemma evolves_refl st : evolves st st.
Proof. split; [lia|]. repeat split; intros; right; eauto. Qed.

Lemma owners_kept_of_evolves st st' : seq_wf st → evolves st st' → owners_kept st st'.
Proof.
  intros (Hs1 & Hs2 & Hs3 & Hs4) (_ & Hp & Hi & Hl & Hc).
  split; [|split; [|split]]; intros k r r' Hk Hk'.
  - destruct (Hp _ _ Hk') as [Hge | (r0 & Hr0 & Heq)]; [apply Hs1 in Hk; lia | congruence].
  - destruct (Hi _ _ Hk') as [Hge | (r0 & Hr0 & Heq)]; [apply Hs2 in Hk; lia | congruence].
  - destruct (Hl _ _ Hk') as [Hge | (r0 & Hr0 & Heq)]; [apply Hs3 in Hk; lia | congruence].
  - destruct (Hc _ _ Hk') as [Hge | (r0 & Hr0 & Heq)]; [apply Hs4 in Hk; lia | congruence].
Qed.

Ltac evolves_solve :=
  match goal with Hev : evolves _ _ |- _ =>
    destruct Hev as ((Hq1 & Hq2 & Hq3 & Hq4) & Hp & Hi & Hl & Hc) end;
  unfold evolves; simpl;
  (split; [lia|]); repeat split; intros; wf_lookup;
  destruct_and?; destruct_or?; destruct_and?; simplify_eq/=;
  solve [ eauto | left; lia
        | match goal with
          | H : ∀ k r, _ !! k = Some r → _, H' : _ !! _ = Some _ |- _ =>
              destruct (H _ _ H') as [? | (? & ? & ?)];
                [left; lia | right; eexists; split; [eassumption | congruence]]
          end ].

Section Ownership.
Context (geolocator : Nominatim) (st0 : Store).

Lemma hoare_assume {A} (φ : Prop) (P : Store → Prop) (m : M A) Q E :
  (φ → hoare P m Q E) → hoare (λ st, P st ∧ φ) m Q E.
Proof. intros H w [HP Hφ]. by apply H. Qed.

Lemma hoare_evolves_insert_post row :
  hoare (evolves st0) (insert_post row) (λ _, evolves st0) (evolves st0).
Proof. intros w Hev. simpl. evolves_solve. Qed.

Lemma hoare_evolves_insert_image row :
  hoare (evolves st0) (insert_image row) (λ _, evolves st0) (evolves st0).
Proof.
  intros w Hev. unfold insert_image, bind, get_db. simpl.
  destruct (post_exists _ _); simpl; [|done]. evolves_solve.
Qed.

Lemma hoare_evolves_insert_like row :
  hoare (evolves st0) (insert_like row) (λ _, evolves st0) (evolves st0).
Proof.
  intros w Hev. unfold insert_like, bind, get_db. simpl.
  destruct (_ && _); simpl; [|done]. evolves_solve.
Qed.

Lemma hoare_evolves_insert_comment row :
  hoare (evolves st0) (insert_comment row) (λ _, evolves st0) (evolves st0).
Proof.
  intros w Hev. unfold insert_comment, bind, get_db. simpl.
  destruct (post_exists _ _); simpl; [|done]. evolves_solve.
Qed.

(** An update keeps the owner when the new row has the owner of the stored
    one. *)
Lemma hoare_evolves_update_post k row P :
  Post.author row = Post.author P →
  hoare (λ st, evolves st0 st ∧ posts st !! k = Some P) (update_post k row)
    (λ _, evolves st0) (evolves st0).
Proof. intros Ha w [Hev Hk]. simpl. evolves_solve. Qed.

Lemma hoare_evolves_update_image k row I :
  PostImage.post row = PostImage.post I →
  hoare (λ st, evolves st0 st ∧ images st !! k = Some I) (update_image k row)
    (λ _, evolves st0) (evolves st0).
Proof.
  intros Ha w [Hev Hk]. unfold update_image, bind, get_db. simpl.
  destruct (post_exists _ _); simpl; [|done]. evolves_solve.
Qed.

Lemma hoare_evolves_update_like k row L :
  Like.user row = Like.user L →
  hoare (λ st, evolves st0 st ∧ likes st !! k = Some L) (update_like k row)
    (λ _, evolves st0) (evolves st0).
Proof.
  intros Ha w [Hev Hk]. unfold update_like, bind, get_db. simpl.
  destruct (_ && _); simpl; [|done]. evolves_solve.
Qed.

Lemma hoare_evolves_update_comment k row C :
  Comment.author row = Comment.author C →
  hoare (λ st, evolves st0 st ∧ comments st !! k = Some C) (update_comment k row)
    (λ _, evolves st0) (evolves st0).
Proof.
  intros Ha w [Hev Hk]. unfold update_comment, bind, get_db. simpl.
  destruct (post_exists _ _); simpl; [|done]. evolves_solve.
Qed.

Lemma hoare_evolves_delete_image k :
  hoare (evolves st0) (delete_image k) (λ _, evolves st0) (evolves st0).
Proof. intros w Hev. simpl. evolves_solve. Qed.

Lemma hoare_evolves_delete_like k :
  hoare (evolves st0) (delete_like k) (λ _, evolves st0) (evolves st0).
Proof. intros w Hev. simpl. evolves_solve. Qed.

Lemma hoare_evolves_delete_comment k :
  hoare (evolves st0) (delete_comment k) (λ _, evolves st0) (evolves st0).
Proof. intros w Hev. simpl. evolves_solve. Qed.

Lemma hoare_evolves_Post_delete k :
  hoare (evolves st0) (Post_delete k) (λ _, evolves st0) (evolves st0).
Proof. intros w Hev. rewrite Post_delete_eq. simpl. evolves_solve. Qed.

Lemma hoare_evolves_PostAdmin_delete_model k :
  hoare (evolves st0) (PostAdmin_delete_model k) (λ _, evolves st0) (evolves st0).
Proof.
  intros w Hev. rewrite PostAdmin_delete_model_eq. by apply hoare_evolves_Post_delete.
Qed.

End Ownership.

Lemma hoare_inv_dispatch_list {B L} (I : Store → Prop) perms (request : Request B)
    (list : M L) (create : M pk) :
  hoare I list (λ _, I) I → hoare I create (λ _, I) I →
  hoare I (dispatch_list perms request list create) (λ _, I) I.
Proof.
  intros Hl Hc. unfold dispatch_list. hoare_step.
  destruct (method request); try hoare_step;
    (eapply hoare_bind; [eassumption | intros ?; hoare_step]).
Qed.

Lemma hoare_inv_dispatch_detail {B R} (I : Store → Prop) perms (request : Request B)
    (retrieve : M R) (update : bool → M R) (destroy : M unit) :
  hoare I retrieve (λ _, I) I → (∀ partial, hoare I (update partial) (λ _, I) I) →
  hoare I destroy (λ _, I) I →
  hoare I (dispatch_detail perms request retrieve update destroy) (λ _, I) I.
Proof.
  intros Hr Hu Hd. unfold dispatch_detail. hoare_step.
  destruct (method request); try hoare_step;
    (eapply hoare_bind; [first [eassumption | apply Hu] | intros ?; hoare_step]).
Qed.

Section OwnershipViews.
Context (geolocator : Nominatim) (st0 : Store).

Lemma hoare_evolves_Post_save id self P :
  Post.author self = Post.author P →
  hoare (λ st, evolves st0 st ∧
               match id with Some k => posts st !! k = Some P | None => True end)
    (Post_save geolocator id self) (λ _, evolves st0) (evolves st0).
Proof.
  intros Ha. unfold Post_save.
  eapply hoare_bind with (R := λ self' st,
    (evolves st0 st ∧ match id with Some k => posts st !! k = Some P | None => True end) ∧
    Post.author self' = Post.author P).
  - repeat hoare_step.
  - intros self'. apply hoare_assume. intros Ha'. destruct id as [k|].
    + hoare_bind_by (hoare_evolves_update_post st0 k self' P Ha'). hoare_step.
    + hoare_bind_by (hoare_evolves_insert_post st0 self'). hoare_step.
Qed.

Lemma hoare_evolves_Post_objects_create kwargs :
  hoare (evolves st0) (Post_objects_create geolocator kwargs)
    (λ _, evolves st0) (evolves st0).
Proof.
  unfold Post_objects_create.
  assert (∀ author,
    hoare (evolves st0)
      (if negb (is_None (pd_image kwargs)) || negb (is_None (pd_uploaded_images kwargs))
       then raise TypeError
       else
         let* a := user_fk author in
         Post_save geolocator None
           (Post.mk a (default "" (pd_text kwargs)) (pd_location_name kwargs)
                    (pd_latitude kwargs) (pd_longitude kwargs)))
      (λ _, evolves st0) (evolves st0)) as Hrest.
  { intros author. hoare_step; [hoare_step|].
    eapply hoare_bind; [apply hoare_user_fk | intros a].
    hoare_by (hoare_evolves_Post_save None
                (Post.mk a (default "" (pd_text kwargs)) (pd_location_name kwargs)
                         (pd_latitude kwargs) (pd_longitude kwargs))
                (Post.mk a "" None None None) eq_refl). }
  destruct (pd_author kwargs) as [[|x]|]; [hoare_step | apply Hrest..].
Qed.

Lemma hoare_evolves_PostImage_objects_create post image :
  hoare (evolves st0) (PostImage_objects_create post image)
    (λ _, evolves st0) (evolves st0).
Proof.
  unfold PostImage_objects_create.
  hoare_step; [apply hoare_evolves_insert_image | hoare_step].
Qed.

Lemma hoare_evolves_Like_objects_create kwargs :
  hoare (evolves st0) (Like_objects_create kwargs) (λ _, evolves st0) (evolves st0).
Proof.
  unfold Like_objects_create.
  eapply hoare_bind; [apply hoare_user_fk | intros u].
  hoare_step; [apply hoare_evolves_insert_like | hoare_step].
Qed.

Lemma hoare_evolves_Comment_objects_create kwargs :
  hoare (evolves st0) (Comment_objects_create kwargs) (λ _, evolves st0) (evolves st0).
Proof.
  unfold Comment_objects_create.
  eapply hoare_bind; [apply hoare_user_fk | intros u].
  hoare_step; [apply hoare_evolves_insert_comment | hoare_step].
Qed.

Lemma hoare_evolves_PostSerializer_create {B} (request : Request B) validated_data :
  hoare (evolves st0) (PostSerializer_create geolocator request validated_data)
    (λ _, evolves st0) (evolves st0).
Proof.
  unfold PostSerializer_create. hoare_step; [hoare_step|].
  eapply hoare_bind with (R := λ _, evolves st0).
  - destruct (truthy_opt_str (pd_location_name validated_data)); [|hoare_step].
    apply hoare_db_pure; [|hoare_imp..].
    destruct (pd_location_name validated_data) as [name|]; simpl.
    + apply db_pure_geocode_step.
    + apply db_pure_try_except; [|apply db_pure_ret].
      apply db_pure_bind.
      * intros w. unfold geolocator_geocode. by destruct (geocode _ _ _).
      * intros [[lat lon]|]; apply db_pure_ret.
  - intros d.
    eapply hoare_bind; [apply hoare_evolves_Post_objects_create | intros post].
    eapply hoare_bind with (R := λ _, evolves st0).
    + apply hoare_for_each. intros img.
      eapply hoare_bind; [apply hoare_evolves_PostImage_objects_create | intros ?; hoare_step].
    + intros _. eapply hoare_bind with (R := λ _, evolves st0); [|intros ?; hoare_step].
      destruct (pd_image _); [|hoare_step].
      eapply hoare_bind; [apply hoare_evolves_PostImage_objects_create | intros ?; hoare_step].
Qed.

Lemma hoare_evolves_PostList request :
  hoare (evolves st0) (PostList geolocator request) (λ _, evolves st0) (evolves st0).
Proof.
  apply hoare_inv_dispatch_list.
  - unfold PostList_list. repeat hoare_step.
  - unfold PostList_create, PostList_perform_create. hoare_step.
    apply hoare_evolves_PostSerializer_create.
Qed.

Lemma hoare_evolves_PostDetail request k :
  hoare (evolves st0) (PostDetail geolocator request k) (λ _, evolves st0) (evolves st0).
Proof.
  apply hoare_inv_dispatch_detail.
  - unfold PostDetail_retrieve. hoare_step.
    apply hoare_db_pure; [solve_db_pure | hoare_imp..].
  - intros partial. unfold PostDetail_update. hoare_step. hoare_step.
    eapply hoare_bind with (R := λ _, evolves st0).
    + unfold PostDetail_perform_update, AuthorCheckMixin_perform_update.
      hoare_step; [hoare_step|]. unfold PostSerializer_update.
      hoare_by (hoare_evolves_Post_save (Some k)
                  (Post.mk (Post.author obj) (default (Post.text obj) (pd_text a))
                     (match pd_location_name a with
                      | Some name => Some name
                      | None => Post.location_name obj
                      end) (Post.latitude obj) (Post.longitude obj))
                  obj eq_refl).
    + intros saved. apply hoare_db_pure; [solve_db_pure | hoare_imp..].
  - unfold PostDetail_destroy. hoare_step.
    unfold PostDetail_perform_destroy, AuthorCheckMixin_perform_destroy.
    hoare_step; [hoare_step|]. hoare_by (hoare_evolves_Post_delete st0).
Qed.

Lemma hoare_evolves_PostImageList request post_id :
  hoare (evolves st0) (PostImageList request post_id) (λ _, evolves st0) (evolves st0).
Proof.
  apply hoare_inv_dispatch_list.
  - unfold PostImageList_get_queryset. repeat hoare_step.
  - unfold PostImageList_create, PostImageList_perform_create. hoare_step.
    hoare_step; [hoare_step|]. apply hoare_evolves_PostImage_objects_create.
Qed.

Lemma hoare_evolves_PostImageDetail request k :
  hoare (evolves st0) (PostImageDetail request k) (λ _, evolves st0) (evolves st0).
Proof.
  apply hoare_inv_dispatch_detail.
  - unfold PostImageDetail_retrieve. hoare_step. hoare_step.
  - intros partial. unfold PostImageDetail_update. hoare_step. hoare_step.
    unfold AuthorCheckMixin_perform_update. hoare_step; [hoare_step|].
    unfold PostImageSerializer_update.
    eapply hoare_bind;
      [hoare_by (hoare_evolves_update_image st0 k
                   (PostImage.mk (PostImage.post obj)
                      (default (PostImage.image obj) (id_image a))) obj eq_refl)
      | intros ?; hoare_step].
  - unfold PostImageDetail_destroy. hoare_step.
    unfold AuthorCheckMixin_perform_destroy. hoare_step; [hoare_step|].
    hoare_by (hoare_evolves_delete_image st0).
Qed.

Lemma hoare_evolves_LikeList request post_id :
  hoare (evolves st0) (LikeList request post_id) (λ _, evolves st0) (evolves st0).
Proof.
  apply hoare_inv_dispatch_list.
  - unfold LikeList_get_queryset. repeat hoare_step.
  - unfold LikeList_create, LikeList_perform_create. hoare_step. hoare_step. hoare_step.
    hoare_step; [hoare_step|]. unfold LikeSerializer_create.
    hoare_by hoare_evolves_Like_objects_create.
Qed.

Lemma hoare_evolves_LikeDetail request k :
  hoare (evolves st0) (LikeDetail request k) (λ _, evolves st0) (evolves st0).
Proof.
  apply hoare_inv_dispatch_detail.
  - unfold LikeDetail_retrieve. hoare_step. hoare_step.
  - intros partial. unfold LikeDetail_update. hoare_step. hoare_step.
    unfold LikeDetail_perform_update. hoare_step; [hoare_step|].
    unfold LikeSerializer_update.
    eapply hoare_bind;
      [hoare_by (hoare_evolves_update_like st0 k
                   (Like.mk (default (Like.post obj) (ld_post a)) (Like.user obj))
                   obj eq_refl)
      | intros ?; hoare_step].
  - unfold LikeDetail_destroy. hoare_step.
    unfold LikeDetail_perform_destroy. hoare_step; [hoare_step|].
    hoare_by (hoare_evolves_delete_like st0).
Qed.

Lemma hoare_evolves_CommentList request post_id :
  hoare (evolves st0) (CommentList request post_id) (λ _, evolves st0) (evolves st0).
Proof.
  apply hoare_inv_dispatch_list.
  - unfold CommentList_get_queryset. repeat hoare_step.
  - unfold CommentList_create, CommentList_perform_create. hoare_step. hoare_step.
    unfold CommentSerializer_create. hoare_by hoare_evolves_Comment_objects_create.
Qed.

Lemma hoare_evolves_CommentDetail request k :
  hoare (evolves st0) (CommentDetail request k) (λ _, evolves st0) (evolves st0).
Proof.
  apply hoare_inv_dispatch_detail.
  - unfold CommentDetail_retrieve. hoare_step. hoare_step.
  - intros partial. unfold CommentDetail_update. hoare_step. hoare_step.
    unfold AuthorCheckMixin_perform_update. hoare_step; [hoare_step|].
    unfold CommentSerializer_update.
    eapply hoare_bind;
      [hoare_by (hoare_evolves_update_comment st0 k
                   (Comment.mk (default (Comment.post obj) (cd_post a))
                      (Comment.author obj)
                      (default (Comment.text obj) (cd_text a))) obj eq_refl)
      | intros ?; hoare_step].
  - unfold CommentDetail_destroy. hoare_step.
    unfold AuthorCheckMixin_perform_destroy. hoare_step; [hoare_step|].
    hoare_by (hoare_evolves_delete_comment st0).
Qed.

Lemma hoare_evolves_after {A} (m : M A) w :
  hoare (evolves st0) m (λ _, evolves st0) (evolves st0) →
  evolves st0 (db w) → evolves st0 (db (m w).2).
Proof. intros Hm Hw. specialize (Hm w Hw). by destruct (m w) as [[a|e] w1]. Qed.

Lemma run_evolves c w : evolves st0 (db w) → evolves st0 (db (run geolocator c w)).
Proof.
  intros Hw. destruct c; unfold run; apply hoare_evolves_after; try done.
  - apply hoare_evolves_PostList.
  - apply hoare_evolves_PostDetail.
  - apply hoare_evolves_PostImageList.
  - apply hoare_evolves_PostImageDetail.
  - apply hoare_evolves_LikeList.
  - apply hoare_evolves_LikeDetail.
  - apply hoare_evolves_CommentList.
  - apply hoare_evolves_CommentDetail.
  - apply hoare_evolves_PostAdmin_delete_model.
  - apply hoare_for_each. intros k. apply hoare_evolves_PostAdmin_delete_model.
  - apply hoare_for_each. apply hoare_evolves_delete_image.
  - apply hoare_for_each. apply hoare_evolves_delete_like.
  - apply hoare_for_each. apply hoare_evolves_delete_comment.
  - apply hoare_evolves_delete_comment.
Qed.

Lemma run_all_evolves cs w :
  evolves st0 (db w) → evolves st0 (db (run_all geolocator cs w)).
Proof.
  revert w. induction cs as [|c cs IH]; intros w Hw; [done|].
  simpl. apply IH. by apply run_evolves.
Qed.

End OwnershipViews.

(** X12: owners never change.  Whatever calls are made to the API and to
    the custom operations of the admin site, in whatever order and by
    whomever, a post or a comment that is still stored has the author it
    had, a like has the user it had, and an image belongs to the post it
    belonged to; primary keys are not given out a second time, so a row
    that is stored under an old key is the old row. *)
Theorem owners_never_change geolocator (cs : list Call) (w : World) :
  seq_wf (db w) →
  owners_kept (db w) (db (run_all geolocator cs w)) ∧
  evolves (db w) (db (run_all geolocator cs w)).
Proof.
  intros Hs.
  assert (evolves (db w) (db (run_all geolocator cs w))) as Hev
    by apply run_all_evolves, evolves_refl.
  split; [by apply owners_kept_of_evolves | done].
Qed.

Lemma owners_never_change_witness :
  owners_kept (db world_with_like)
    (db (run_all nominatim_up
           [api_post (request_of PATCH alice (post_body "bye" None None None)) 1;
            api_post_like (request_of PUT bob (like_body (Some 1))) 1 1;
            admin_delete_selected_likes [1]]
           world_with_like)).
Proof.
  apply (owners_never_change nominatim_up).
  apply (reachable_wf nominatim_up), world_with_like_reachable.
Defined.

(** ** Rows and their posts *)

(** X13: no orphans.  Starting from a consistent database, every sequence
    of calls to the API and to the custom operations of the admin site
    leaves a database in which every image, like and comment belongs to a
    stored post and every stored row has a primary key below the sequence
    of its table. *)
Theorem rows_belong_to_stored_posts geolocator (cs : list Call) (w : World) :
  wf (db w) →
  fk_wf (db (run_all geolocator cs w)) ∧ seq_wf (db (run_all geolocator cs w)).
Proof.
  revert w. induction cs as [|c cs IH]; intros w Hw; [by destruct Hw as (? & ? & ?)|].
  simpl. apply IH. by apply run_wf.
Qed.

Lemma rows_belong_to_stored_posts_witness :
  fk_wf (db (run_all nominatim_up
               [api_posts (request_of POST alice (post_body "hello" None None (Some ["cat.png"])));
                api_post_comments (request_of POST bob (comment_body (Some 1) (Some "nice"))) 1;
                api_post (request_of DELETE alice empty_post_body) 1]
               initial_world)).
Proof.
  apply (rows_belong_to_stored_posts nominatim_up). apply wf_empty_store.
Defined.

(** ** The location of a new post *)

Lemma for_each_uploaded_image_frame (l : list File) p w :
  wf (db w) → is_Some (posts (db w) !! p) →
  ∃ w', for_each l (λ img, PostImage_objects_create (Some p) (Some img) >> ret ()) w
        = (Returned (), w') ∧
        wf (db w') ∧ posts (db w') = posts (db w) ∧ likes (db w') = likes (db w) ∧
        comments (db w') = comments (db w) ∧ geo_log w' = geo_log w ∧
        count_images (db w') p = (count_images (db w) p + length l)%nat.
Proof.
  revert w. induction l as [|img l IH]; intros w Hwf Hp; cbn [for_each length].
  - exists w. repeat (split; [done|]). lia.
  - pose proof (count_images_insert (db w) (PostImage.mk p img) Hwf) as Hcount.
    pose proof (wf_insert_image (db w) (PostImage.mk p img) Hwf Hp) as Hwf'.
    set (w1 := {| db := with_images (db w)
                          (<[image_seq (db w) := PostImage.mk p img]> (images (db w)))
                          (image_seq (db w) + 1);
                  geo_log := geo_log w |}).
    destruct (IH w1 Hwf' Hp) as (w' & Hrun & Hwf'' & Hposts & Hlikes & Hcomments & Hlog & Hn).
    exists w'. split; [|repeat (split; [done|])].
    + apply post_exists_true in Hp.
      unfold bind at 1 2. unfold PostImage_objects_create, insert_image, bind, get_db.
      simpl. rewrite Hp. exact Hrun.
    + rewrite Hn. subst w1. simpl in *. rewrite Hcount. lia.
Qed.

Section NewPost.
Context (geolocator : Nominatim).

(** A valid request for a new post reaches [PostSerializer.create] with the
    user of the request as author. *)
Lemma PostList_create_valid (request : Request PostDict) w S text :
  method request = POST → user request = Authenticated S →
  pd_text (data request) = Some text → text ≠ "" →
  has_images
    {| pd_author := None; pd_text := Some text;
       pd_location_name := pd_location_name (data request);
       pd_latitude := None; pd_longitude := None;
       pd_image := pd_image (data request);
       pd_uploaded_images := pd_uploaded_images (data request) |} request = true →
  PostList geolocator request w
  = (let* k := PostSerializer_create geolocator request
                 {| pd_author := Some (Authenticated S); pd_text := Some text;
                    pd_location_name := pd_location_name (data request);
                    pd_latitude := None; pd_longitude := None;
                    pd_image := pd_image (data request);
                    pd_uploaded_images := pd_uploaded_images (data request) |} in
     ret (HTTP_201 k)) w.
Proof.
  destruct request as [m u f d]. simpl. intros -> -> Ht Hne Himg.
  unfold PostList, dispatch_list.
  erewrite bind_returned by (by apply check_permissions_authenticated).
  cbn [method]. unfold PostList_create.
  assert (PostSerializer_is_valid None false
            {| method := POST; user := Authenticated S; FILES_images := f; data := d |} d w
          = (Returned {| pd_author := None; pd_text := Some text;
                         pd_location_name := pd_location_name d;
                         pd_latitude := None; pd_longitude := None;
                         pd_image := pd_image d;
                         pd_uploaded_images := pd_uploaded_images d |}, w)) as Hvalid.
  { unfold PostSerializer_is_valid, validate_text, PostSerializer_validate.
    rewrite Ht. apply truthy_str_spec in Hne. rewrite Hne.
    erewrite bind_returned by done. by rewrite Himg. }
  unfold bind at 1 2. cbn [data]. rewrite Hvalid. done.
Qed.

(** The rest of [PostSerializer.create] once the dictionary is ready, when
    [Post.save] has no reason to call the geocoding service. *)
Lemma PostSerializer_create_rows (d : PostDict) (l : list File) w S text :
  wf (db w) → pd_author d = Some (Authenticated S) → pd_text d = Some text →
  pd_image d = None → pd_uploaded_images d = None →
  truthy_opt_str (pd_location_name d)
  && (is_None (pd_latitude d) || is_None (pd_longitude d)) = false →
  ∃ w', (let* post := Post_objects_create geolocator d in
         for_each l (λ img, PostImage_objects_create (Some post.1) (Some img) >> ret ()) >>
         (match pd_image d with
          | Some image => PostImage_objects_create (Some post.1) (Some image) >> ret ()
          | None => ret ()
          end) >>
         ret post.1) w
        = (Returned (post_seq (db w)), w') ∧
        posts (db w') !! post_seq (db w)
        = Some (Post.mk (user_id S) text (pd_location_name d) (pd_latitude d)
                  (pd_longitude d)) ∧
        count_images (db w') (post_seq (db w)) = length l ∧
        likes (db w') = likes (db w) ∧ comments (db w') = comments (db w) ∧
        geo_log w' = geo_log w.
Proof.
  intros Hwf Ha Ht Hi Hu Hgeo.
  set (P := Post.mk (user_id S) text (pd_location_name d) (pd_latitude d) (pd_longitude d)).
  pose proof (wf_insert_post (db w) P Hwf) as Hwf1.
  set (w1 := {| db := with_posts (db w) (<[post_seq (db w) := P]> (posts (db w)))
                        (post_seq (db w) + 1);
                geo_log := geo_log w |}).
  destruct (for_each_uploaded_image_frame l (post_seq (db w)) w1 Hwf1)
    as (w' & Hrun & _ & Hposts & Hlikes & Hcomments & Hlog & Hn).
  { simpl. rewrite lookup_insert_eq. eauto. }
  assert (Post_objects_create geolocator d w = (Returned (post_seq (db w), P), w1)) as Hcreate.
  { unfold Post_objects_create. rewrite Ha, Hi, Hu, Ht. simpl.
    unfold Post_save. cbn [Post.location_name Post.latitude Post.longitude].
    rewrite Hgeo. done. }
  exists w'. split; [|repeat split].
  - erewrite bind_returned by exact Hcreate. cbn [fst].
    erewrite bind_returned by exact Hrun. by rewrite Hi.
  - rewrite Hposts. apply lookup_insert_eq.
  - rewrite Hn. pose proof (count_images_fresh_post (db w) Hwf) as H0.
    unfold count_images in *. simpl in *. by rewrite H0.
  - by rewrite Hlikes.
  - by rewrite Hcomments.
  - by rewrite Hlog.
Qed.

End NewPost.

Section NewPostLocation.
Context (geolocator : Nominatim).

(** The geocoding step of [PostSerializer.create] for a location name that
    is not empty. *)
Lemma PostSerializer_create_geocoded {B} (request : Request B) (d : PostDict) name w :
  has_images d request = true → pd_location_name d = Some name → name ≠ "" →
  PostSerializer_create geolocator request d w
  = (let* validated_data :=
       try_except
         (let* location := geolocator_geocode geolocator name in
          match location with
          | Some (lat, lon) =>
              ret (pd_set_location
                     (pd_set_location d None (pd_latitude d) (pd_longitude d))
                     (Some name) (Some lat) (Some lon))
          | None => ret (pd_set_location d None (pd_latitude d) (pd_longitude d))
          end)
         [GeocoderUnavailable]
         (ret (pd_set_location d None (pd_latitude d) (pd_longitude d))) in
     let uploaded_images := default [] (pd_uploaded_images validated_data) in
     let validated_data := pd_pop_uploaded_images validated_data in
     let* post := Post_objects_create geolocator validated_data in
     for_each uploaded_images
       (λ img, PostImage_objects_create (Some post.1) (Some img) >> ret ()) >>
     (match pd_image validated_data with
      | Some image => PostImage_objects_create (Some post.1) (Some image) >> ret ()
      | None => ret ()
      end) >>
     ret post.1) w.
Proof.
  intros Himg Hname Hne. unfold PostSerializer_create. rewrite Himg, Hname.
  apply truthy_str_spec in Hne. cbn [negb truthy_opt_str default]. by rewrite Hne.
Qed.

(** X14: the location of a new post.  A valid request for a new post with a
    location name makes exactly one call to the geocoding service.  When
    the service finds the place, the post is stored with the name and the
    coordinates found; when it finds nothing or is unavailable, the post is
    stored without coordinates and without the name that was sent; any
    other error of the service leaves the handler and nothing is stored.
    In the first two cases the post has one image row for each uploaded
    image. *)
Theorem new_post_is_geocoded_once (request : Request PostDict) w S text l name :
  wf (db w) → method request = POST → user request = Authenticated S →
  pd_text (data request) = Some text → text ≠ "" →
  pd_uploaded_images (data request) = Some l → l ≠ [] →
  pd_image (data request) = None →
  pd_location_name (data request) = Some name → name ≠ "" →
  (∀ lat lon, geocode geolocator (geo_log w) name = Located (lat, lon) →
     ∃ w', PostList geolocator request w = (Returned (HTTP_201 (post_seq (db w))), w') ∧
           posts (db w') !! post_seq (db w)
           = Some (Post.mk (user_id S) text (Some name) (Some lat) (Some lon)) ∧
           count_images (db w') (post_seq (db w)) = length l ∧
           geo_log w' = geo_log w ++ [CallGeocode name]) ∧
  (geocode geolocator (geo_log w) name = NoMatch ∨
   geocode geolocator (geo_log w) name = Fails GeocoderUnavailable →
     ∃ w', PostList geolocator request w = (Returned (HTTP_201 (post_seq (db w))), w') ∧
           posts (db w') !! post_seq (db w)
           = Some (Post.mk (user_id S) text None None None) ∧
           count_images (db w') (post_seq (db w)) = length l ∧
           geo_log w' = geo_log w ++ [CallGeocode name]) ∧
  (∀ e, geocode geolocator (geo_log w) name = Fails e → e ≠ GeocoderUnavailable →
     PostList geolocator request w
     = (Raised (Geopy e), {| db := db w; geo_log := geo_log w ++ [CallGeocode name] |})).
Proof.
  destruct request as [m u f d]. destruct d as [a t ln la lo im up]. simpl.
  intros Hwf -> -> -> Hne -> Hl -> -> Hname.
  assert (truthy_list l = true) as Hl' by (by destruct l).
  set (request := {| method := POST; user := Authenticated S; FILES_images := f;
                     data := _ |}).
  set (d := {| pd_author := Some (Authenticated S); pd_text := Some text;
               pd_location_name := Some name; pd_latitude := None; pd_longitude := None;
               pd_image := None; pd_uploaded_images := Some l |}).
  assert (PostList geolocator request w
          = (let* k := PostSerializer_create geolocator request d in ret (HTTP_201 k)) w)
    as Hlist.
  { apply (PostList_create_valid geolocator request w S text); try done.
    unfold has_images. simpl. by rewrite Hl'. }
  assert (PostSerializer_create geolocator request d w
          = (let* validated_data :=
               try_except
                 (let* location := geolocator_geocode geolocator name in
                  match location with
                  | Some (lat, lon) =>
                      ret (pd_set_location
                             (pd_set_location d None (pd_latitude d) (pd_longitude d))
                             (Some name) (Some lat) (Some lon))
                  | None => ret (pd_set_location d None (pd_latitude d) (pd_longitude d))
                  end)
                 [GeocoderUnavailable]
                 (ret (pd_set_location d None (pd_latitude d) (pd_longitude d))) in
             let uploaded_images := default [] (pd_uploaded_images validated_data) in
             let validated_data := pd_pop_uploaded_images validated_data in
             let* post := Post_objects_create geolocator validated_data in
             for_each uploaded_images
               (λ img, PostImage_objects_create (Some post.1) (Some img) >> ret ()) >>
             (match pd_image validated_data with
              | Some image => PostImage_objects_create (Some post.1) (Some image) >> ret ()
              | None => ret ()
              end) >>
             ret post.1) w) as Hcreate.
  { apply PostSerializer_create_geocoded; [|done..]. unfold has_images. simpl. by rewrite Hl'. }
  set (w1 := {| db := db w; geo_log := geo_log w ++ [CallGeocode name] |}).
  assert (∀ d', pd_author d' = Some (Authenticated S) → pd_text d' = Some text →
            pd_image d' = None → pd_uploaded_images d' = Some l →
            truthy_opt_str (pd_location_name d')
            && (is_None (pd_latitude d') || is_None (pd_longitude d')) = false →
            try_except
              (let* location := geolocator_geocode geolocator name in
               match location with
               | Some (lat, lon) =>
                   ret (pd_set_location
                          (pd_set_location d None (pd_latitude d) (pd_longitude d))
                          (Some name) (Some lat) (Some lon))
               | None => ret (pd_set_location d None (pd_latitude d) (pd_longitude d))
               end)
              [GeocoderUnavailable]
              (ret (pd_set_location d None (pd_latitude d) (pd_longitude d))) w
            = (Returned d', w1) →
            ∃ w', PostList geolocator request w
                  = (Returned (HTTP_201 (post_seq (db w))), w') ∧
                  posts (db w') !! post_seq (db w)
                  = Some (Post.mk (user_id S) text (pd_location_name d') (pd_latitude d')
                            (pd_longitude d')) ∧
                  count_images (db w') (post_seq (db w)) = length l ∧
                  geo_log w' = geo_log w ++ [CallGeocode name]) as Hstored.
  { intros d' Ha Ht Hi Hu Hsave Hgeo.
    destruct (PostSerializer_create_rows geolocator (pd_pop_uploaded_images d') l w1 S text)
      as (w' & Hrun & Hpost & Hcount & _ & _ & Hlog); try done.
    exists w'. split; [|done].
    rewrite Hlist. unfold bind at 1. rewrite Hcreate.
    erewrite bind_returned by exact Hgeo. cbv zeta. rewrite Hu. cbn [default from_option]. unfold id.
    by rewrite Hrun. }
  split; [|split].
  - intros lat lon Hg.
    apply (Hstored (pd_set_location
                      (pd_set_location d None (pd_latitude d) (pd_longitude d))
                      (Some name) (Some lat) (Some lon))); try done.
    + simpl. apply andb_false_r.
    + unfold try_except, bind, geolocator_geocode. by rewrite Hg.
  - intros Hg.
    apply (Hstored (pd_set_location d None (pd_latitude d) (pd_longitude d))); try done.
    unfold try_except, bind, geolocator_geocode. by destruct Hg as [-> | ->].
  - intros e Hg He. rewrite Hlist. unfold bind at 1. rewrite Hcreate.
    apply bind_raised. unfold try_except, bind, geolocator_geocode. rewrite Hg.
    by destruct e.
Qed.

End NewPostLocation.

Lemma new_post_is_geocoded_once_witness :
  ∃ w', PostList nominatim_up
          (request_of POST alice (post_body "hello" (Some "Paris") None (Some ["cat.png"])))
          initial_world
        = (Returned (HTTP_201 1), w') ∧
        posts (db w') !! 1
        = Some (Post.mk 1 "hello" (Some "Paris") (Some 48856600) (Some 2352200)) ∧
        count_images (db w') 1 = 1%nat ∧
        geo_log w' = [CallGeocode "Paris"].
Proof.
  apply (proj1 (new_post_is_geocoded_once nominatim_up
                  (request_of POST alice
                     (post_body "hello" (Some "Paris") None (Some ["cat.png"])))
                  initial_world alice "hello" ["cat.png"] "Paris"
                  wf_empty_store eq_refl eq_refl eq_refl ltac:(done) eq_refl ltac:(done)
                  eq_refl eq_refl ltac:(done)) 48856600 2352200).
  reflexivity.
Defined.

(** ** [Post.save] and the geocoding service *)

Section SaveGeocoding.
Context (geolocator : Nominatim).

(** X15: [Post.save] and the geocoding service.  The service is called if
    and only if the post has a location name that is not empty and lacks a
    coordinate, and then once.  Without a call the post is written as it
    is.  With a call, the coordinates found are stored; when nothing is
    found, or the service times out or fails with a service error, the
    post is written as it is; an error of geopy that is no service error
    leaves [save] and nothing is written.  The primary key is the one of
    the instance, or the next of the sequence for a new post. *)
Theorem Post_save_geocoding (id : option pk) (self : Post.t) (w : World) :
  (truthy_opt_str (Post.location_name self) = false ∨
   (Post.latitude self ≠ None ∧ Post.longitude self ≠ None) →
   ∃ w', Post_save geolocator id self w
         = (Returned (default (post_seq (db w)) id, self), w') ∧
         posts (db w') !! default (post_seq (db w)) id = Some self ∧
         geo_log w' = geo_log w) ∧
  (∀ name, Post.location_name self = Some name → name ≠ "" →
     Post.latitude self = None ∨ Post.longitude self = None →
     (∀ lat lon, geocode geolocator (geo_log w) name = Located (lat, lon) →
        ∃ w', Post_save geolocator id self w
              = (Returned (default (post_seq (db w)) id,
                           set_coordinates self (Some lat) (Some lon)), w') ∧
              posts (db w') !! default (post_seq (db w)) id
              = Some (set_coordinates self (Some lat) (Some lon)) ∧
              geo_log w' = geo_log w ++ [CallGeocode name]) ∧
     (geocode geolocator (geo_log w) name = NoMatch ∨
      (∃ e, geocode geolocator (geo_log w) name = Fails e ∧
            issubclass e GeocoderServiceError = true) →
        ∃ w', Post_save geolocator id self w
              = (Returned (default (post_seq (db w)) id, self), w') ∧
              posts (db w') !! default (post_seq (db w)) id = Some self ∧
              geo_log w' = geo_log w ++ [CallGeocode name]) ∧
     (geocode geolocator (geo_log w) name = Fails GeopyError →
        Post_save geolocator id self w
        = (Raised (Geopy GeopyError),
           {| db := db w; geo_log := geo_log w ++ [CallGeocode name] |}))).
Proof.
  split.
  - intros Hno.
    assert (truthy_opt_str (Post.location_name self)
            && (is_None (Post.latitude self) || is_None (Post.longitude self)) = false)
      as Hcond.
    { destruct Hno as [-> | [Hlat Hlon]]; [done|].
      destruct (Post.latitude self), (Post.longitude self); try done. apply andb_false_r. }
    unfold Post_save. rewrite Hcond.
    destruct id as [k|]; simpl; eexists; (split; [reflexivity|]); simpl;
      (split; [apply lookup_insert_eq | done]).
  - intros name Hn Hne Hc. apply truthy_str_spec in Hne.
    assert (truthy_opt_str (Post.location_name self)
            && (is_None (Post.latitude self) || is_None (Post.longitude self)) = true)
      as Hcond.
    { rewrite Hn. simpl. rewrite Hne. destruct Hc as [-> | ->]; simpl;
        [done | apply orb_true_r]. }
    set (w1 := {| db := db w; geo_log := geo_log w ++ [CallGeocode name] |}).
    assert (∀ c self',
      get_coordinates geolocator name w = (Returned c, w1) →
      (if negb (is_None c.1) && negb (is_None c.2)
       then set_coordinates self c.1 c.2 else self) = self' →
      ∃ w', Post_save geolocator id self w
            = (Returned (default (post_seq (db w)) id, self'), w') ∧
            posts (db w') !! default (post_seq (db w)) id = Some self' ∧
            geo_log w' = geo_log w ++ [CallGeocode name]) as Hsaved.
    { intros c self' Hgc Hself. unfold Post_save. rewrite Hcond, Hn.
      change (default "" (Some name)) with name.
      unfold bind at 1 2. rewrite Hgc. rewrite <- Hself.
      destruct (negb (is_None c.1) && negb (is_None c.2));
        destruct id as [k|]; simpl; eexists; (split; [reflexivity|]); simpl;
        (split; [apply lookup_insert_eq | done]). }
    split; [|split].
    + intros lat lon Hg. apply (Hsaved (Some lat, Some lon)); [|done].
      unfold get_coordinates, try_except, bind, geolocator_geocode. by rewrite Hg.
    + intros Hg. apply (Hsaved (None, None)); [|done].
      unfold get_coordinates, try_except, bind, geolocator_geocode.
      destruct Hg as [-> | (e & -> & He)]; [done|]. by destruct e.
    + intros Hg. unfold Post_save. rewrite Hcond, Hn.
      change (default "" (Some name)) with name.
      do 2 apply bind_raised.
      unfold get_coordinates, try_except, bind, geolocator_geocode. by rewrite Hg.
Qed.

End SaveGeocoding.

Lemma Post_save_geocoding_witness :
  ∃ w', Post_save nominatim_up None (Post.mk 1 "hello" (Some "Paris") None None)
          initial_world
        = (Returned (1, Post.mk 1 "hello" (Some "Paris") (Some 48856600) (Some 2352200)),
           w') ∧
        posts (db w') !! 1
        = Some (Post.mk 1 "hello" (Some "Paris") (Some 48856600) (Some 2352200)) ∧
        geo_log w' = [CallGeocode "Paris"].
Proof.
  apply (proj1 (proj2 (Post_save_geocoding nominatim_up None
                         (Post.mk 1 "hello" (Some "Paris") None None) initial_world)
                  "Paris" eq_refl ltac:(done) (or_introl eq_refl)) 48856600 2352200).
  reflexivity.
Defined.

(** ** The update of a post by its author *)

Section PostUpdate.
Context (geolocator : Nominatim).

(** X16: the author updates a post.  A PUT or PATCH by the author with a
    text that is not empty answers 200 and writes the new text, and the
    new location name when one is sent; the author and the coordinates of
    the post stay as they were, also when the location name changes, as
    long as [Post.save] has no reason to call the geocoding service (the
    post has both coordinates, or the name it ends with is empty or
    absent).  No image is needed and none is written, whatever images the
    request carries: the images, likes and comments are untouched. *)
Theorem author_updates_post (request : Request PostDict) k w P S text :
  posts (db w) !! k = Some P → user request = Authenticated S →
  user_id S = Post.author P → method request ∈ [PUT; PATCH] →
  pd_text (data request) = Some text → text ≠ "" →
  let name' := match pd_location_name (data request) with
               | Some name => Some name
               | None => Post.location_name P
               end in
  (Post.latitude P ≠ None ∧ Post.longitude P ≠ None) ∨ truthy_opt_str name' = false →
  let P' := Post.mk (Post.author P) text name' (Post.latitude P) (Post.longitude P) in
  PostDetail geolocator request k w
  = (Returned (HTTP_200
       {| r_id := k; r_author := Post.author P;
          r_comments := filter (λ kv, Comment.post kv.2 = k) (comments (db w));
          r_text := text; r_likes_count := count_likes (db w) k;
          r_images := filter (λ kv, PostImage.post kv.2 = k) (images (db w));
          r_location := get_location P' |}),
     {| db := with_posts (db w) (<[k := P']> (posts (db w))) (post_seq (db w));
        geo_log := geo_log w |}).
Proof.
  destruct request as [m u f d]. simpl. intros Hk -> HS Hm Ht Hne Hno.
  rewrite !elem_of_cons, elem_of_nil in Hm.
  assert (eq_user (Some (Post.author P)) (Authenticated S) = true) as Hown
    by (by apply eq_user_true; rewrite HS).
  set (name' := match pd_location_name d with
                | Some name => Some name
                | None => Post.location_name P
                end) in *.
  set (P' := Post.mk (Post.author P) text name' (Post.latitude P) (Post.longitude P)).
  assert (truthy_opt_str name'
          && (is_None (Post.latitude P) || is_None (Post.longitude P)) = false) as Hcond.
  { destruct Hno as [[Hlat Hlon] | ->]; [|done].
    destruct (Post.latitude P), (Post.longitude P); try done. apply andb_false_r. }
  apply truthy_str_spec in Hne.
  assert (∀ partial,
    bind (PostDetail_update geolocator
            {| method := m; user := Authenticated S; FILES_images := f; data := d |}
            k partial)
         (λ r, ret (HTTP_200 r)) w
    = (Returned (HTTP_200
         {| r_id := k; r_author := Post.author P;
            r_comments := filter (λ kv, Comment.post kv.2 = k) (comments (db w));
            r_text := text; r_likes_count := count_likes (db w) k;
            r_images := filter (λ kv, PostImage.post kv.2 = k) (images (db w));
            r_location := get_location P' |}),
       {| db := with_posts (db w) (<[k := P']> (posts (db w))) (post_seq (db w));
          geo_log := geo_log w |})) as Hupd.
  { intros partial. unfold PostDetail_update.
    unfold bind at 1.
    erewrite bind_returned
      by (eapply get_object_author_allowed;
          [exact Hk | destruct Hm as [-> | [-> | []]];
                      by rewrite has_object_permission_unsafe]).
    assert (PostSerializer_is_valid (Some k) partial
              {| method := m; user := Authenticated S; FILES_images := f; data := d |} d w
            = (Returned {| pd_author := None; pd_text := Some text;
                           pd_location_name := pd_location_name d;
                           pd_latitude := None; pd_longitude := None;
                           pd_image := pd_image d;
                           pd_uploaded_images := pd_uploaded_images d |}, w)) as Hvalid.
    { unfold PostSerializer_is_valid, validate_text, PostSerializer_validate.
      rewrite Ht, Hne. by erewrite bind_returned by done. }
    cbn [data]. erewrite bind_returned by exact Hvalid.
    unfold PostDetail_perform_update, AuthorCheckMixin_perform_update.
    cbn [getattr_author getattr_user Post_Model py_or user]. rewrite Hown. cbn [negb].
    unfold PostSerializer_update. cbn [pd_text pd_location_name default from_option].
    fold name'. unfold id. fold P'.
    unfold Post_save. cbn [Post.location_name Post.latitude Post.longitude P'].
    rewrite Hcond. done. }
  unfold PostDetail, dispatch_detail.
  erewrite bind_returned by (by apply check_permissions_authenticated).
  cbn [method]. destruct Hm as [-> | [-> | []]]; apply Hupd.
Qed.

End PostUpdate.

Lemma author_updates_post_witness :
  (PostDetail nominatim_up
     {| method := PATCH; user := Authenticated alice; FILES_images := [];
        data := post_body "bye" None None None |} 1 world_with_like).2
  = {| db := with_posts (db world_with_like)
               (<[1 := Post.mk 1 "bye" None None None]> (posts (db world_with_like)))
               (post_seq (db world_with_like));
       geo_log := geo_log world_with_like |}.
Proof.
  rewrite (author_updates_post nominatim_up
             {| method := PATCH; user := Authenticated alice; FILES_images := [];
                data := post_body "bye" None None None |} 1 world_with_like
             (Post.mk 1 "hello" None None None) alice "bye").
  - reflexivity.
  - reflexivity.
  - reflexivity.
  - reflexivity.
  - simpl. set_solver.
  - reflexivity.
  - done.
  - right. reflexivity.
Defined.

(** ** Images of a new post *)

Section NewPostImages.
Context (geolocator : Nominatim).

Lemma PostSerializer_create_unlocated {B} (request : Request B) (d : PostDict) w :
  has_images d request = true → truthy_opt_str (pd_location_name d) = false →
  PostSerializer_create geolocator request d w
  = (let validated_data := pd_set_location d None (pd_latitude d) (pd_longitude d) in
     let uploaded_images := default [] (pd_uploaded_images validated_data) in
     let validated_data := pd_pop_uploaded_images validated_data in
     let* post := Post_objects_create geolocator validated_data in
     for_each uploaded_images
       (λ img, PostImage_objects_create (Some post.1) (Some img) >> ret ()) >>
     (match pd_image validated_data with
      | Some image => PostImage_objects_create (Some post.1) (Some image) >> ret ()
      | None => ret ()
      end) >>
     ret post.1) w.
Proof.
  intros Himg Hloc. unfold PostSerializer_create. rewrite Himg, Hloc. done.
Qed.

(** X17: a new post needs an image.  A request for a new post that carries
    no image, neither in [uploaded_images] nor in [image] nor among the
    files [images], is refused with a [ValidationError] and nothing is
    written, whatever its other fields; when its text is valid, the error
    is the one about the missing image. *)
Theorem new_post_needs_an_image (request : Request PostDict) w :
  method request = POST → is_authenticated (user request) = true →
  pd_uploaded_images (data request) = None ∨ pd_uploaded_images (data request) = Some [] →
  pd_image (data request) = None → FILES_images request = [] →
  (∃ detail, PostList geolocator request w = (Raised (ValidationError detail), w)) ∧
  (∀ text, pd_text (data request) = Some text → text ≠ "" →
     PostList geolocator request w = (Raised (ValidationError msg_no_image), w)).
Proof.
  intros Hm Hu Hup Hi Hf.
  assert (∀ text, pd_text (data request) = Some text → text ≠ "" →
            PostList geolocator request w = (Raised (ValidationError msg_no_image), w))
    as Hvalid.
  { intros text Ht Hne. apply (post_without_image_rejected geolocator request w text);
      try done.
    unfold has_images. cbn [pd_uploaded_images pd_image]. rewrite Hi, Hf.
    by destruct Hup as [-> | ->]. }
  split; [|exact Hvalid].
  destruct (pd_text (data request)) as [text|] eqn:Ht.
  - destruct (decide (text = "")) as [-> | Hne]; [|eauto].
    exists msg_blank. destruct request as [m u f d]. simpl in *. subst m.
    unfold PostList, dispatch_list.
    erewrite bind_returned by (by apply check_permissions_authenticated).
    cbn [method]. apply bind_raised. unfold PostList_create. apply bind_raised.
    unfold PostSerializer_is_valid. cbn [data]. rewrite Ht. by apply bind_raised.
  - exists msg_required. destruct request as [m u f d]. simpl in *. subst m.
    unfold PostList, dispatch_list.
    erewrite bind_returned by (by apply check_permissions_authenticated).
    cbn [method]. apply bind_raised. unfold PostList_create. apply bind_raised.
    unfold PostSerializer_is_valid. cbn [data]. rewrite Ht. by apply bind_raised.
Qed.

(** X18: images sent as files only are lost.  A request for a new post whose
    only images are the files [images] of the request passes the validation
    and is answered 201, but [PostSerializer.create] stores the images of
    [uploaded_images] and [image] only: the post is stored without any
    image row. *)
Theorem new_post_with_files_only_has_no_image (request : Request PostDict) w S text :
  wf (db w) → method request = POST → user request = Authenticated S →
  pd_text (data request) = Some text → text ≠ "" →
  FILES_images request ≠ [] →
  pd_uploaded_images (data request) = None → pd_image (data request) = None →
  truthy_opt_str (pd_location_name (data request)) = false →
  ∃ w', PostList geolocator request w = (Returned (HTTP_201 (post_seq (db w))), w') ∧
        posts (db w') !! post_seq (db w) = Some (Post.mk (user_id S) text None None None) ∧
        count_images (db w') (post_seq (db w)) = 0%nat ∧
        images (db w') = images (db w).
Proof.
  destruct request as [m u f d]. destruct d as [a t ln la lo im up]. simpl.
  intros Hwf -> -> -> Hne Hf -> -> Hloc.
  assert (truthy_list f = true) as Hf' by (by destruct f).
  set (request := {| method := POST; user := Authenticated S; FILES_images := f;
                     data := _ |}).
  set (d := {| pd_author := Some (Authenticated S); pd_text := Some text;
               pd_location_name := ln; pd_latitude := None; pd_longitude := None;
               pd_image := None; pd_uploaded_images := None |}).
  assert (PostList geolocator request w
          = (let* k := PostSerializer_create geolocator request d in ret (HTTP_201 k)) w)
    as Hlist.
  { apply (PostList_create_valid geolocator request w S text); try done;
      unfold has_images; simpl; by rewrite Hf'. }
  destruct (PostSerializer_create_rows geolocator
              (pd_pop_uploaded_images (pd_set_location d None None None)) [] w S text)
    as (w' & Hrun & Hpost & Hcount & _ & _ & _); try done.
  exists w'. split; [|split; [done | split; [done|]]].
  - assert (PostSerializer_create geolocator request d w
            = (Returned (post_seq (db w)), w')) as Hcreate.
    { rewrite PostSerializer_create_unlocated;
        [exact Hrun | unfold has_images; simpl; by rewrite Hf' | done]. }
    rewrite Hlist. by erewrite bind_returned by exact Hcreate.
  - revert Hrun. unfold Post_objects_create, user_fk, Post_save. simpl.
    unfold bind, ret, insert_post, get_db, put_db. simpl. by intros [= <-].
Qed.

End NewPostImages.

Lemma new_post_needs_an_image_witness :
  PostList nominatim_up (request_of POST alice (post_body "hello" None None None))
    initial_world
  = (Raised (ValidationError msg_no_image), initial_world).
Proof.
  apply (proj2 (new_post_needs_an_image nominatim_up
                  (request_of POST alice (post_body "hello" None None None)) initial_world
                  eq_refl eq_refl (or_introl eq_refl) eq_refl eq_refl) "hello");
    [reflexivity | done].
Defined.

Lemma new_post_with_files_only_has_no_image_witness :
  ∃ w', PostList nominatim_up
          {| method := POST; user := Authenticated alice; FILES_images := ["cat.png"];
             data := post_body "hello" None None None |} initial_world
        = (Returned (HTTP_201 1), w') ∧
        posts (db w') !! 1 = Some (Post.mk 1 "hello" None None None) ∧
        count_images (db w') 1 = 0%nat ∧
        images (db w') = ∅.
Proof.
  apply (new_post_with_files_only_has_no_image nominatim_up
           {| method := POST; user := Authenticated alice; FILES_images := ["cat.png"];
              data := post_body "hello" None None None |} initial_world alice "hello").
  - apply wf_empty_store.
  - reflexivity.
  - reflexivity.
  - reflexivity.
  - done.
  - done.
  - reflexivity.
  - reflexivity.
  - reflexivity.
Defined.

(** ** Comments and images of a stored post *)

(** X19: the author of a comment changes and deletes it.  A DELETE by the
    author answers 204 and removes that comment and nothing else.  A PUT or
    PATCH by the author with a stored post and a text that is not empty
    answers 200 and writes the text and the post of the body, so the
    comment moves to the post the body names; its author stays the same. *)
Theorem author_changes_comment (request : Request CommentDict) k w C S :
  comments (db w) !! k = Some C → user request = Authenticated S →
  user_id S = Comment.author C →
  (method request = DELETE →
   CommentDetail request k w
   = (Returned HTTP_204,
      {| db := with_comments (db w) (delete k (comments (db w))) (comment_seq (db w));
         geo_log := geo_log w |})) ∧
  (∀ q text,
     method request ∈ [PUT; PATCH] →
     cd_post (data request) = Some q → is_Some (posts (db w) !! q) →
     cd_text (data request) = Some text → text ≠ "" →
     CommentDetail request k w
     = (Returned (HTTP_200 (k, Comment.mk q (Comment.author C) text)),
        {| db := with_comments (db w)
                   (<[k := Comment.mk q (Comment.author C) text]> (comments (db w)))
                   (comment_seq (db w));
           geo_log := geo_log w |})).
Proof.
  destruct request as [m u f d]. simpl. intros Hk -> HS.
  assert (eq_user (Some (Comment.author C)) (Authenticated S) = true) as Hown
    by (by apply eq_user_true; rewrite HS).
  split.
  - intros ->. unfold CommentDetail, dispatch_detail.
    erewrite bind_returned by (by apply check_permissions_authenticated).
    cbn [method]. unfold CommentDetail_destroy. unfold bind at 1.
    erewrite bind_returned
      by (eapply get_object_author_allowed;
          [exact Hk | by rewrite has_object_permission_unsafe]).
    unfold AuthorCheckMixin_perform_destroy.
    cbn [getattr_author getattr_user Comment_Model py_or user]. rewrite Hown. done.
  - intros q text Hm Hq Hqs Ht Hne. rewrite !elem_of_cons, elem_of_nil in Hm.
    apply truthy_str_spec in Hne. pose proof Hqs as Hqe. apply post_exists_true in Hqe.
    assert (∀ partial,
      bind (CommentDetail_update
              {| method := m; user := Authenticated S; FILES_images := f; data := d |}
              k partial)
           (λ r, ret (HTTP_200 r)) w
      = (Returned (HTTP_200 (k, Comment.mk q (Comment.author C) text)),
         {| db := with_comments (db w)
                    (<[k := Comment.mk q (Comment.author C) text]> (comments (db w)))
                    (comment_seq (db w));
            geo_log := geo_log w |})) as Hupd.
    { intros partial. unfold CommentDetail_update. unfold bind at 1.
      erewrite bind_returned
        by (eapply get_object_author_allowed;
            [exact Hk | destruct Hm as [-> | [-> | []]];
                        by rewrite has_object_permission_unsafe]).
      assert (CommentSerializer_is_valid partial d w
              = (Returned {| cd_post := Some q; cd_author := None; cd_text := Some text |},
                 w)) as Hvalid.
      { unfold CommentSerializer_is_valid, validate_post_pk, validate_text, bind, get_db.
        rewrite Hq, Ht. simpl. by rewrite Hqe, Hne. }
      cbn [data]. erewrite bind_returned by exact Hvalid.
      unfold AuthorCheckMixin_perform_update.
      cbn [getattr_author getattr_user Comment_Model py_or user]. rewrite Hown. cbn [negb].
      unfold CommentSerializer_update, update_comment, bind, get_db, put_db, ret. simpl.
      by rewrite Hqe. }
    unfold CommentDetail, dispatch_detail.
    erewrite bind_returned by (by apply check_permissions_authenticated).
    cbn [method]. destruct Hm as [-> | [-> | []]]; apply Hupd.
Qed.

(** X20: any authenticated user adds an image to any stored post.  The view
    of the images of a post checks that the user is authenticated and
    nothing else: the image is stored under the post of the URL, whoever
    the author of the post is. *)
Theorem image_added_by_any_user (request : Request ImageDict) post_id w U P image :
  posts (db w) !! post_id = Some P → post_id ≠ 0 →
  user request = Authenticated U → method request = POST →
  id_image (data request) = Some image →
  PostImageList request post_id w
  = (Returned (HTTP_201 (image_seq (db w))),
     {| db := with_images (db w)
                (<[image_seq (db w) := PostImage.mk post_id image]> (images (db w)))
                (image_seq (db w) + 1);
        geo_log := geo_log w |}).
Proof.
  destruct request as [m u f d]. simpl. intros Hk Hz -> -> Hi.
  unfold PostImageList, dispatch_list.
  erewrite bind_returned by (by apply check_permissions_authenticated).
  cbn [method]. unfold PostImageList_create.
  unfold PostImageSerializer_is_valid, validate_image. cbn [data]. rewrite Hi.
  unfold bind at 1 2 3. unfold ret at 1 2.
  unfold PostImageList_perform_create. destruct (Z.eqb_spec post_id 0); [done|].
  unfold PostImageSerializer_create, PostImage_objects_create, insert_image, bind, get_db.
  simpl. unfold post_exists. rewrite Hk.
  rewrite bool_decide_eq_true_2 by eauto. done.
Qed.

Lemma author_changes_comment_witness :
  (CommentDetail (request_of DELETE bob (comment_body None None)) 1
     (run nominatim_up
        (api_post_comments (request_of POST bob (comment_body (Some 1) (Some "nice"))) 1)
        world_with_like)).1
  = Returned HTTP_204.
Proof.
  rewrite (proj1 (author_changes_comment
                    (request_of DELETE bob (comment_body None None)) 1
                    (run nominatim_up
                       (api_post_comments
                          (request_of POST bob (comment_body (Some 1) (Some "nice"))) 1)
                       world_with_like)
                    (Comment.mk 1 2 "nice") bob eq_refl eq_refl eq_refl) eq_refl).
  reflexivity.
Defined.

Lemma image_added_by_any_user_witness :
  (PostImageList (request_of POST bob (image_body (Some "dog.png"))) 1 world_with_like).1
  = Returned (HTTP_201 2).
Proof.
  rewrite (image_added_by_any_user (request_of POST bob (image_body (Some "dog.png"))) 1
             world_with_like bob (Post.mk 1 "hello" None None None) "dog.png"
             eq_refl ltac:(done) eq_refl eq_refl eq_refl).
  reflexivity.
Defined.

(** ** The lists of the post 0 *)

Lemma reachable_evolves geolocator w :
  reachable geolocator w → evolves empty_store (db w).
Proof.
  induction 1 as [|c w Hr IH]; [apply evolves_refl | by apply run_evolves].
Qed.

(** X21: the lists under the post 0.  [LikeList] and [CommentList] test the
    [post_id] of the URL for truth, and 0 is false: a GET of the likes or of
    the comments of the post 0 answers with the likes or the comments of
    every post.  [PostImageList] filters by the [post_id] as it is: in a
    world reached from the empty database no post has the key 0, and the
    list of the images of the post 0 is empty. *)
Theorem lists_of_post_zero geolocator (w : World) :
  (∀ request : Request CommentDict,
     method request = GET →
     CommentList request 0 w = (Returned (HTTP_200 (comments (db w))), w)) ∧
  (∀ request : Request LikeDict,
     method request = GET → is_authenticated (user request) = true →
     LikeList request 0 w = (Returned (HTTP_200 (likes (db w))), w)) ∧
  (reachable geolocator w →
   ∀ request : Request ImageDict,
     method request = GET →
     PostImageList request 0 w = (Returned (HTTP_200 ∅), w)).
Proof.
  split; [|split].
  - intros [m u f d] Hm. simpl in Hm. subst m.
    unfold CommentList, dispatch_list.
    erewrite bind_returned by (by apply check_permissions_read_only). done.
  - intros [m u f d] Hm Hu. simpl in Hm, Hu. subst m.
    unfold LikeList, dispatch_list.
    erewrite bind_returned by (by apply check_permissions_authenticated). done.
  - intros Hr [m u f d] Hm. simpl in Hm. subst m.
    unfold PostImageList, dispatch_list.
    erewrite bind_returned by (by apply check_permissions_read_only).
    cbn [method]. unfold PostImageList_get_queryset, bind, get_db, ret.
    rewrite (map_empty_filter_2 _ (images (db w))); [done|].
    intros i r Hi Hp. simpl in Hp.
    destruct (reachable_wf geolocator w Hr) as (_ & (Hf1 & _) & _).
    destruct (Hf1 _ _ Hi) as [P HP]. rewrite Hp in HP.
    destruct (reachable_evolves geolocator w Hr) as (_ & Hposts & _).
    destruct (Hposts _ _ HP) as [Hge | (P0 & HP0 & _)]; [simpl in Hge; lia | done].
Qed.

Lemma lists_of_post_zero_witness :
  PostImageList {| method := GET; user := AnonymousUser; FILES_images := [];
                   data := image_body None |} 0 world_with_like
  = (Returned (HTTP_200 ∅), world_with_like).
Proof.
  apply (proj2 (proj2 (lists_of_post_zero nominatim_up world_with_like))
           world_with_like_reachable).
  reflexivity.
Defined.
